(** * Takikawa octree encoding: kernels and encoder class

    A shallow embedding of [takikawa_encoding.cuh]: the forward kernel
    [kernel_takikawa], the two backward kernels
    [kernel_takikawa_backward_input] and [kernel_takikawa_backward], and the
    host class [TakikawaEncoding] (constructor, [forward_impl],
    [backward_impl], [hyperparams]).

    Conventions of the embedding.
    - [uint32_t] values are integers in [Z]; every [uint32_t] operation of
      the source is written with its wrap-around ([U32.add], [U32.mul]); the
      conversion to [int] is [U32.to_int].
    - [float] and [__half] values are exact rationals [Q]: rounding, overflow
      and NaN are outside the model and the casts between the two types are
      identities.  Equality of values is [Qeq].
    - Device buffers are total maps from an index to a value; a matrix view
      is a map from (row, column).  A null pointer or an empty view is
      [None].
    - A kernel is the function one thread runs; a launch runs the threads
      one after the other.  [atomicAdd] is the additive update [atomic_add].
    - [traverse], [smoothstep] and [smoothstep_derivative] are declared in
      other headers; the kernels take them as parameters. *)

From Stdlib Require Import ZArith QArith Qpower List Bool Lia String.
Import ListNotations.
Open Scope Z_scope.

(** ** Machine integers *)

Module U32.

Definition modulus : Z := 2 ^ 32.

Definition wrap (x : Z) : Z := x mod modulus.

Definition add (a b : Z) : Z := wrap (a + b).
Definition sub (a b : Z) : Z := wrap (a - b).
Definition mul (a b : Z) : Z := wrap (a * b).

(** [(int)x] for a [uint32_t] x. *)
Definition to_int (x : Z) : Z :=
  if x <? 2 ^ 31 then x else x - modulus.

End U32.

(** [range n] is the list of loop indices [0; 1; ...; n-1]. *)
Definition range (n : Z) : list Z := map Z.of_nat (seq 0 (Z.to_nat n)).

(** [range_from a b] is [a; a+1; ...; b-1]. *)
Definition range_from (a b : Z) : list Z := map (fun k => a + k) (range (b - a)).

(** ** Values, vectors and buffers *)

Record vec3 : Type := mk_vec3 { vx : Q; vy : Q; vz : Q }.

(** [pos[dim]] *)
Definition vget (p : vec3) (dim : Z) : Q :=
  if dim =? 0 then vx p else if dim =? 1 then vy p else vz p.

(** [pos[dim] = v] *)
Definition vset (p : vec3) (dim : Z) (v : Q) : vec3 :=
  if dim =? 0 then mk_vec3 v (vy p) (vz p)
  else if dim =? 1 then mk_vec3 (vx p) v (vz p)
  else mk_vec3 (vx p) (vy p) v.

(** A [tvec<T, N>] / [vec<N>]: component index to value. *)
Definition fvec : Type := Z -> Q.

(** A flat device buffer. *)
Definition buffer : Type := Z -> Q.

(** A [MatrixView]: [m row col]. *)
Definition matrix : Type := Z -> Z -> Q.

Definition buf_set (b : buffer) (i : Z) (v : Q) : buffer :=
  fun j => if j =? i then v else b j.

Definition mat_set (m : matrix) (row col : Z) (v : Q) : matrix :=
  fun r c => if (r =? row) && (c =? col) then v else m r c.

(** [atomicAdd(&b[i], v)] *)
Definition atomic_add (b : buffer) (i : Z) (v : Q) : buffer :=
  buf_set b i (b i + v)%Q.

(** [atomicAdd((__half2* )&b[i], {v0, v1})] *)
Definition atomic_add_half2 (b : buffer) (i : Z) (v0 v1 : Q) : buffer :=
  atomic_add (atomic_add b i v0) (i + 1) v1.

(** [cudaMemsetAsync(b, 0, n * sizeof(elem))] *)
Definition memset_zero (b : buffer) (n : Z) : buffer :=
  fun j => if (0 <=? j) && (j <? n) then 0%Q else b j.

(** ** Octree interface *)

(** [TriangleOctreeDualNode]: the 8 vertex indices of a node. *)
Record TriangleOctreeDualNode : Type := mk_dual { vertices : list Z }.

(** [node.vertices[idx]] *)
Definition vertex (node : TriangleOctreeDualNode) (idx : Z) : Z :=
  nth (Z.to_nat idx) (vertices node) 0.

(** One call of the visitor by [traverse]. *)
Record visit : Type := mk_visit {
  v_node : TriangleOctreeDualNode;
  v_level : Z;
  v_pos : vec3
}.

(** What a call of [traverse] does: the visits in order and the [int] it
    returns. *)
Record traversal : Type := mk_traversal {
  visits : list visit;
  t_level : Z
}.

(** Modelled from the spec: [InterpolationType] is declared in
    tiny-cuda-nn; the two interpolation modes of the encoder. *)
Inductive InterpolationType : Type := Linear | Smoothstep.

Definition is_linear (t : InterpolationType) : bool :=
  match t with Linear => true | _ => false end.

Definition is_smoothstep (t : InterpolationType) : bool :=
  match t with Smoothstep => true | _ => false end.

(** The types the template parameters [T] and [GRAD_T] range over:
    [float] and [__half]. *)
Inductive scalar_type : Type := Float32 | Half.

Definition is_half (t : scalar_type) : bool :=
  match t with Half => true | Float32 => false end.

Definition scalar_type_eqb (a b : scalar_type) : bool :=
  match a, b with
  | Float32, Float32 | Half, Half => true
  | _, _ => false
  end.

(** [scalbnf(1.0f, n)] *)
Definition scalbnf_one (n : Z) : Q := Qpower 2 n.

(** ** Kernels *)

Section Kernels.

(** [traverse(octree_nodes, octree_dual_nodes, max_depth, pos, fun)] of
    [triangle_octree.cuh], as the visits it makes and the level it
    returns; the octree arrays are part of the parameter. *)
Variable traverse : Z -> vec3 -> traversal.

(** [smoothstep] and [smoothstep_derivative] of tiny-cuda-nn. *)
Variable smoothstep : Q -> Q.
Variable smoothstep_derivative : Q -> Q.

(** The template parameter [N_FEATURES_PER_LEVEL]. *)
Variable N_FEATURES_PER_LEVEL : Z.

(** The trilinear weight of corner [idx] (lines 83-92 and 234-243). *)
Definition corner_weight (pos : vec3) (idx : Z) : Q :=
  fold_left
    (fun weight dim =>
       if Z.land idx (Z.shiftl 1 dim) =? 0
       then (weight * (1 - vget pos dim))%Q
       else (weight * vget pos dim)%Q)
    (range 3) 1%Q.

(** [int param_idx = node.vertices[idx] * N_FEATURES_PER_LEVEL] *)
Definition param_idx (node : TriangleOctreeDualNode) (idx : Z) : Z :=
  U32.to_int (U32.mul (vertex node idx) N_FEATURES_PER_LEVEL).

(** [*(tvec<T, N>* )&grid[param_idx]] *)
Definition load_vec (grid : buffer) (base : Z) : fvec :=
  fun f => grid (base + f).

(** [fma(a, v, r)] on vectors. *)
Definition fma_vec (a : Q) (v r : fvec) : fvec :=
  fun f => (a * v f + r f)%Q.

(** Lines 79-96: the interpolated feature vector of a node. *)
Definition interpolate (grid : buffer) (node : TriangleOctreeDualNode)
    (pos : vec3) : fvec :=
  fold_left
    (fun result idx =>
       fma_vec (corner_weight pos idx) (load_vec grid (param_idx node idx)) result)
    (range 8) (fun _ => 0%Q).

(** Lines 98-101. *)
Definition store_features (data_out : matrix) (level i : Z) (result : fvec)
    : matrix :=
  fold_left
    (fun out feature =>
       mat_set out (U32.add (U32.mul level N_FEATURES_PER_LEVEL) feature) i
         (result feature))
    (range N_FEATURES_PER_LEVEL) data_out.

(** Lines 114-127: the weight and the left child index of pair [idx] for
    the axis [grad_dim]. *)
Definition pair_weight (scale : Q) (pos : vec3) (grad_dim idx : Z) : Q * Z :=
  fold_left
    (fun (acc : Q * Z) non_grad_dim =>
       let '(weight, child_idx) := acc in
       let dim := if non_grad_dim >=? grad_dim then non_grad_dim + 1 else non_grad_dim in
       if Z.land idx (Z.shiftl 1 non_grad_dim) =? 0
       then ((weight * (1 - vget pos dim))%Q, child_idx)
       else ((weight * vget pos dim)%Q, Z.lor child_idx (Z.shiftl 1 dim)))
    (range 2) (scale, 0).

(** Lines 110-140: the derivative of the interpolant along [grad_dim]. *)
Definition axis_gradient (grid : buffer) (node : TriangleOctreeDualNode)
    (scale : Q) (pos pos_derivative : vec3) (grad_dim : Z) : fvec :=
  fold_left
    (fun (grad : fvec) idx =>
       let '(weight, child_idx) := pair_weight scale pos grad_dim idx in
       let val_left := load_vec grid (param_idx node child_idx) in
       let child_idx' := Z.lor child_idx (Z.shiftl 1 grad_dim) in
       let val_right := load_vec grid (param_idx node child_idx') in
       fun feature =>
         (grad feature
          + weight * (val_right feature - val_left feature)
            * vget pos_derivative grad_dim)%Q)
    (range 4) (fun _ => 0%Q).

(** The index of line 143, before the feature offset. *)
Definition dy_dx_index (n_features i level grad_dim : Z) : Z :=
  let fan_out_grad := U32.mul n_features 3 in
  U32.add
    (U32.add (U32.mul i fan_out_grad) (U32.mul level N_FEATURES_PER_LEVEL))
    (U32.mul grad_dim n_features).

(** [*(vec<N>* )&dy_dx[base] = grad] *)
Definition store_vec (b : buffer) (base : Z) (v : fvec) : buffer :=
  fold_left (fun b f => buf_set b (base + f) (v f))
    (range N_FEATURES_PER_LEVEL) b.

(** Lines 106-144. *)
Definition store_gradients (grid : buffer) (node : TriangleOctreeDualNode)
    (n_features starting_level level i : Z) (pos pos_derivative : vec3)
    (dy_dx : buffer) : buffer :=
  let scale := scalbnf_one (U32.to_int (U32.add level starting_level)) in
  fold_left
    (fun dd grad_dim =>
       store_vec dd (dy_dx_index n_features i level grad_dim)
         (axis_gradient grid node scale pos pos_derivative grad_dim))
    (range 3) dy_dx.

(** Lines 64-75: the position and its derivative factor after the
    interpolation mode is applied. *)
Definition warp (interpolation_type : InterpolationType) (pos : vec3)
    : vec3 * vec3 :=
  if is_linear interpolation_type
  then (pos, mk_vec3 1 1 1)
  else
    fold_left
      (fun (acc : vec3 * vec3) dim =>
         let '(p, d) := acc in
         (vset p dim (smoothstep (vget p dim)),
          vset d dim (smoothstep_derivative (vget p dim))))
      (range 3) (pos, mk_vec3 0 0 0).

(** The visitor of [kernel_takikawa] (lines 56-146). *)
Definition forward_visit (n_features starting_level : Z)
    (interpolation_type : InterpolationType) (grid : buffer) (i : Z)
    (st : option matrix * option buffer) (v : visit)
    : option matrix * option buffer :=
  if v_level v <? starting_level then st
  else
    let level := U32.sub (v_level v) starting_level in
    let '(pos, pos_derivative) := warp interpolation_type (v_pos v) in
    let data_out' :=
      match fst st with
      | Some out =>
          Some (store_features out level i (interpolate grid (v_node v) pos))
      | None => None
      end in
    let dy_dx' :=
      match snd st with
      | Some dd =>
          Some (store_gradients grid (v_node v) n_features starting_level
                  level i pos pos_derivative dd)
      | None => None
      end in
    (data_out', dy_dx').

(** Lines 149-158. *)
Definition zero_fill (n_levels starting_level : Z) (level : Z) (i : Z)
    (data_out : matrix) : matrix :=
  let level0 := Z.max 0 (level - U32.to_int starting_level) in
  fold_left
    (fun out level => store_features out level i (fun _ => 0%Q))
    (range_from level0 n_levels) data_out.

(** [kernel_takikawa], for the thread with global index [i]. *)
Definition kernel_takikawa (num_elements n_levels starting_level : Z)
    (interpolation_type : InterpolationType) (grid : buffer)
    (data_in : matrix) (i : Z)
    (st : option matrix * option buffer) : option matrix * option buffer :=
  let n_features := U32.mul N_FEATURES_PER_LEVEL n_levels in
  let encoded_index := U32.mul i n_features in
  if encoded_index >=? U32.mul num_elements n_features then st
  else
    let t :=
      traverse (U32.to_int (U32.add n_levels starting_level))
        (mk_vec3 (data_in 0 i) (data_in 1 i) (data_in 2 i)) in
    let st' :=
      fold_left
        (forward_visit n_features starting_level interpolation_type grid i)
        (visits t) st in
    match fst st' with
    | Some out =>
        (Some (zero_fill n_levels starting_level (t_level t) i out), snd st')
    | None => st'
    end.

(** [kernel_takikawa_backward_input], for the thread with global index
    [input_index] (lines 161-183). *)
Definition kernel_takikawa_backward_input (num_elements num_grid_features : Z)
    (dL_dy : matrix) (dy_dx : buffer) (input_index : Z) (dL_dx : matrix)
    : matrix :=
  if input_index >=? num_elements then dL_dx
  else
    let fan_out_grad := U32.mul num_grid_features 3 in
    let i := input_index / 3 in
    let j := U32.sub input_index (U32.mul i 3) in
    let result :=
      fold_left
        (fun result k =>
           (result
            + dL_dy k i
              * dy_dx (U32.add
                         (U32.add (U32.mul i fan_out_grad)
                                  (U32.mul j num_grid_features)) k))%Q)
        (range num_grid_features) 0%Q in
    mat_set dL_dx j i result.

(** The template parameter [GRAD_T] and the macro [__CUDA_ARCH__] of the
    device code. *)
Variable GRAD_T : scalar_type.
Variable CUDA_ARCH : Z.

(** The loop indices of [for (feature = 0; feature < N; feature += 2)]. *)
Definition even_features : list Z :=
  map (fun k => 2 * k) (range ((N_FEATURES_PER_LEVEL + 1) / 2)).

(** Lines 249-253: the [__half2] updates of one corner. *)
Definition scatter_half2 (param_gradients : buffer) (param_idx : Z)
    (grad : fvec) (weight : Q) : buffer :=
  fold_left
    (fun pg feature =>
       atomic_add_half2 pg (param_idx + feature)
         (grad feature * weight)%Q (grad (feature + 1)%Z * weight)%Q)
    even_features param_gradients.

(** Lines 261-264: the [float] updates of one corner. *)
Definition scatter_float (param_gradients : buffer) (param_idx : Z)
    (grad : fvec) (weight : Q) : buffer :=
  fold_left
    (fun pg f => atomic_add pg param_idx (grad f * weight)%Q)
    (range N_FEATURES_PER_LEVEL) param_gradients.

(** Lines 247-266: the update of the gradient slots of one corner. *)
Definition scatter (param_gradients : buffer) (param_idx : Z) (grad : fvec)
    (weight : Q) : buffer :=
  if (CUDA_ARCH >=? 600) && ((N_FEATURES_PER_LEVEL >? 1) && is_half GRAD_T)
  then scatter_half2 param_gradients param_idx grad weight
  else if is_half GRAD_T
  then param_gradients
  else scatter_float param_gradients param_idx grad weight.

(** Lines 216-221. *)
Definition warp_backward (interpolation_type : InterpolationType)
    (pos : vec3) : vec3 :=
  if is_smoothstep interpolation_type
  then
    fold_left (fun p dim => vset p dim (smoothstep (vget p dim))) (range 3) pos
  else pos.

(** The visitor of [kernel_takikawa_backward] (lines 210-268). *)
Definition backward_visit (starting_level : Z)
    (interpolation_type : InterpolationType) (dL_dy : matrix) (i : Z)
    (param_gradients : buffer) (v : visit) : buffer :=
  if v_level v <? starting_level then param_gradients
  else
    let level := U32.sub (v_level v) starting_level in
    let pos := warp_backward interpolation_type (v_pos v) in
    let grad : fvec :=
      fun f => dL_dy (U32.add (U32.mul N_FEATURES_PER_LEVEL level) f) i in
    fold_left
      (fun pg idx =>
         scatter pg (param_idx (v_node v) idx) grad (corner_weight pos idx))
      (range 8) param_gradients.

(** [kernel_takikawa_backward], for the thread with global index [i]. *)
Definition kernel_takikawa_backward (num_elements n_levels starting_level : Z)
    (interpolation_type : InterpolationType) (data_in dL_dy : matrix)
    (i : Z) (param_gradients : buffer) : buffer :=
  let encoded_index := U32.mul (U32.mul i N_FEATURES_PER_LEVEL) n_levels in
  if encoded_index
     >=? U32.mul (U32.mul num_elements N_FEATURES_PER_LEVEL) n_levels
  then param_gradients
  else
    let t :=
      traverse (U32.to_int (U32.add n_levels starting_level))
        (mk_vec3 (data_in 0 i) (data_in 1 i) (data_in 2 i)) in
    fold_left
      (backward_visit starting_level interpolation_type dL_dy i)
      (visits t) param_gradients.

End Kernels.

(** ** Kernel launches *)

(** [N_THREADS_LINEAR] and [n_blocks_linear] of tiny-cuda-nn. *)
Definition N_THREADS_LINEAR : Z := 128.

Definition n_blocks_linear (n_elements : Z) : Z :=
  (n_elements + N_THREADS_LINEAR - 1) / N_THREADS_LINEAR.

(** [linear_kernel(kernel, 0, stream, n_elements, args...)]: nothing is
    launched for [n_elements <= 0]; otherwise whole blocks of threads run
    the kernel, here in the order of their global index. *)
Definition linear_kernel {S : Type} (kernel : Z -> S -> S) (n_elements : Z)
    (st : S) : S :=
  if n_elements <=? 0 then st
  else
    fold_left (fun s i => kernel i s)
      (range (n_blocks_linear n_elements * N_THREADS_LINEAR)) st.

(** [parallel_for_gpu(stream, n, fun)] *)
Definition parallel_for_gpu {S : Type} (n : Z) (body : Z -> S -> S) (st : S)
    : S :=
  fold_left (fun s i => body i s) (range n) st.

(** ** The encoder class *)

(** What the class uses of [TriangleOctree]: [depth()], [n_vertices()] and
    the traversal of its node arrays ([nodes_gpu()], [dual_nodes_gpu()]). *)
Record TriangleOctree : Type := mk_octree {
  depth : Z;
  n_vertices : Z;
  octree_traverse : Z -> vec3 -> traversal
}.

Inductive exception : Type := runtime_error (what : string).

(** Modelled from the spec: [GradientMode] is declared in tiny-cuda-nn;
    the pass is skipped, starts from a zeroed buffer, or adds onto the
    existing contents. *)
Inductive GradientMode : Type := Ignore | Overwrite | Accumulate.

(** The values [hyperparams] stores in its [json] object, and the object
    as its members in the order written. *)
Inductive json_value : Type :=
| JString (s : string)
| JNumber (n : Z).

Definition json : Type := list (string * json_value).

(** [j[key]], [None] when the key is absent. *)
Definition json_get (j : json) (key : string) : option json_value :=
  match find (fun kv => String.eqb (fst kv) key) j with
  | Some kv => Some (snd kv)
  | None => None
  end.

Definition json_keys (j : json) : list string := map fst j.

Definition is_some {A : Type} (o : option A) : bool :=
  match o with Some _ => true | None => false end.

Section Encoder.

Variable smoothstep : Q -> Q.
Variable smoothstep_derivative : Q -> Q.

(** The template parameters [T] and [N_FEATURES_PER_LEVEL]. *)
Variable T : scalar_type.
Variable N_FEATURES_PER_LEVEL : Z.

(** The macros [TCNN_MIN_GPU_ARCH] (host) and [__CUDA_ARCH__] (device). *)
Variable TCNN_MIN_GPU_ARCH : Z.
Variable CUDA_ARCH : Z.

(** Lines 275-286. *)
Definition grad_t : scalar_type :=
  if TCNN_MIN_GPU_ARCH >=? 60
  then (if N_FEATURES_PER_LEVEL =? 1 then Float32 else T)
  else Float32.

Record TakikawaEncoding : Type := mk_encoding {
  m_starting_level : Z;
  m_n_output_dims : Z;
  m_n_to_pad : Z;
  m_octree : TriangleOctree;
  m_interpolation_type : InterpolationType
}.

(** Lines 437-439, on the members the constructor has already set. *)
Definition n_levels_of (octree : TriangleOctree) (starting_level : Z) : Z :=
  U32.sub (depth octree) starting_level.

Definition n_levels (e : TakikawaEncoding) : Z :=
  n_levels_of (m_octree e) (m_starting_level e).

(** The constructor (lines 288-300). *)
Definition TakikawaEncoding_new (starting_level : Z) (octree : TriangleOctree)
    (interpolation_type : InterpolationType)
    : exception + TakikawaEncoding :=
  if starting_level >=? depth octree
  then inl (runtime_error "Starting level must be below octree depth.")
  else
    let n_output_dims :=
      U32.mul N_FEATURES_PER_LEVEL (n_levels_of octree starting_level) in
    if negb (N_FEATURES_PER_LEVEL =? 1) && negb (N_FEATURES_PER_LEVEL =? 2)
       && negb (N_FEATURES_PER_LEVEL =? 4) && negb (N_FEATURES_PER_LEVEL =? 8)
    then inl (runtime_error "Number of features per level must be 1, 2, 4, or 8.")
    else
      inr {| m_starting_level := starting_level;
             m_n_output_dims := n_output_dims;
             m_n_to_pad := 0;
             m_octree := octree;
             m_interpolation_type := interpolation_type |}.

Definition input_width : Z := 3.

Definition padded_output_width (e : TakikawaEncoding) : Z :=
  U32.add (m_n_output_dims e) (m_n_to_pad e).

(** Lines 433-435; the product is taken at the width of [size_t]. *)
Definition n_params (e : TakikawaEncoding) : Z :=
  N_FEATURES_PER_LEVEL * n_vertices (m_octree e).

(** Lines 445-451. *)
Definition hyperparams (e : TakikawaEncoding) : json :=
  [ ("otype"%string, JString "Takikawa");
    ("starting_level"%string, JNumber (m_starting_level e));
    ("n_levels"%string, JNumber (depth (m_octree e))) ].

(** [forward_impl] (lines 304-335).  [input_n] is [input.n()], [fresh] the
    contents of the newly allocated [dy_dx] matrix.  The result is the
    output view after the call and [forward->dy_dx]. *)
Definition forward_impl (e : TakikawaEncoding) (params inference_params : buffer)
    (input : matrix) (input_n : Z) (output : option matrix)
    (use_inference_params prepare_input_gradients : bool) (fresh : buffer)
    : option matrix * option buffer :=
  if (negb (is_some output) && negb prepare_input_gradients)
     || (padded_output_width e =? 0)
  then (output, None)
  else
    let dy_dx := if prepare_input_gradients then Some fresh else None in
    linear_kernel
      (kernel_takikawa (octree_traverse (m_octree e)) smoothstep
         smoothstep_derivative N_FEATURES_PER_LEVEL
         input_n (n_levels e) (m_starting_level e) (m_interpolation_type e)
         (if use_inference_params then inference_params else params)
         input)
      input_n (output, dy_dx).

(** Lines 354-388: the gradient buffer after the parameter-gradient block.
    [workspace] is the contents of the memory [allocate_workspace]
    returns. *)
Definition backward_params (e : TakikawaEncoding) (input : matrix)
    (num_elements : Z) (dL_doutput : matrix) (workspace gradients : buffer)
    (param_gradients_mode : GradientMode) : buffer :=
  match param_gradients_mode with
  | Ignore => gradients
  | _ =>
      let use_tmp := negb (scalar_type_eqb grad_t T) in
      let param_gradients := if use_tmp then workspace else gradients in
      let param_gradients :=
        match param_gradients_mode with
        | Overwrite => memset_zero param_gradients (n_params e)
        | _ => param_gradients
        end in
      let param_gradients :=
        linear_kernel
          (kernel_takikawa_backward (octree_traverse (m_octree e)) smoothstep
             N_FEATURES_PER_LEVEL grad_t CUDA_ARCH
             num_elements (n_levels e) (m_starting_level e)
             (m_interpolation_type e) input dL_doutput)
          num_elements param_gradients in
      if use_tmp
      then
        parallel_for_gpu (n_params e)
          (fun i grad => buf_set grad i (param_gradients i)) gradients
      else param_gradients
  end.

(** [backward_impl] (lines 337-400).  [dy_dx] is [forward.dy_dx.data()].
    The result is the gradient buffer and [*dL_dinput] after the call;
    [None] stands for the kernel reading through a null [dy_dx]. *)
Definition backward_impl (e : TakikawaEncoding) (dy_dx : option buffer)
    (input : matrix) (num_elements : Z) (dL_doutput : matrix)
    (dL_dinput : option matrix) (param_gradients_mode : GradientMode)
    (workspace gradients : buffer) : option (buffer * option matrix) :=
  if (padded_output_width e =? 0) || (num_elements =? 0)
  then Some (gradients, dL_dinput)
  else
    let gradients' :=
      backward_params e input num_elements dL_doutput workspace gradients
        param_gradients_mode in
    match dL_dinput with
    | None => Some (gradients', None)
    | Some dL_dx =>
        match dy_dx with
        | None => None
        | Some cache =>
            Some (gradients',
                  Some (linear_kernel
                          (kernel_takikawa_backward_input
                             (U32.mul num_elements input_width)
                             (U32.mul N_FEATURES_PER_LEVEL (n_levels e))
                             dL_doutput cache)
                          (U32.mul num_elements input_width) dL_dx))
        end
    end.

End Encoder.

(** ** The traversal, from its description *)

(** Modelled from the spec: [TriangleOctreeNode] and [traverse] are declared
    in [triangle_octree.cuh], a header outside the translated sources.  A
    node lists its 8 children (a negative entry: no child).  The traversal
    starts at node 0 with the point itself as local position, calls the
    visitor once per level with the dual node of the current node, steps
    into the child whose octant holds the point (a component of 1/2 or more
    goes to the upper half) with the position rescaled to that child's cell,
    stops when that child is missing or [max_depth] levels were visited, and
    returns the number of levels visited. *)
Record TriangleOctreeNode : Type := mk_node { children : list Z }.

Definition upper_half (x : Q) : bool := Qle_bool (1 # 2) x.

Definition octant (pos : vec3) : Z :=
  (if upper_half (vx pos) then 1 else 0)
  + (if upper_half (vy pos) then 2 else 0)
  + (if upper_half (vz pos) then 4 else 0).

Definition child_coord (x : Q) : Q :=
  if upper_half x then (2 * x - 1)%Q else (2 * x)%Q.

Definition child_pos (pos : vec3) : vec3 :=
  mk_vec3 (child_coord (vx pos)) (child_coord (vy pos)) (child_coord (vz pos)).

Fixpoint traverse_from (fuel : nat) (nodes : list TriangleOctreeNode)
    (dual_nodes : list TriangleOctreeDualNode) (node_idx level : Z)
    (pos : vec3) : traversal :=
  match fuel with
  | O => mk_traversal [] level
  | S fuel' =>
      let v :=
        mk_visit (nth (Z.to_nat node_idx) dual_nodes (mk_dual [])) level pos in
      let child :=
        nth (Z.to_nat (octant pos))
          (children (nth (Z.to_nat node_idx) nodes (mk_node []))) (-1) in
      if child <? 0
      then mk_traversal [v] (level + 1)
      else
        let t := traverse_from fuel' nodes dual_nodes child (level + 1)
                   (child_pos pos) in
        mk_traversal (v :: visits t) (t_level t)
  end.

Definition traverse_spec (nodes : list TriangleOctreeNode)
    (dual_nodes : list TriangleOctreeDualNode) (max_depth : Z) (pos : vec3)
    : traversal :=
  traverse_from (Z.to_nat max_depth) nodes dual_nodes 0 0 pos.

(** What the kernels rely on from a traversal asked for [max_depth] levels:
    every level is visited at most once, and the returned level is above
    every visited level and at most [max_depth]. *)
Definition traversal_ok (max_depth : Z) (t : traversal) : Prop :=
  NoDup (map v_level (visits t))
  /\ (forall v, In v (visits t) -> 0 <= v_level v < t_level t)
  /\ t_level t <= max_depth.

(** ** Reference formulas *)

(** The sum of a list of values. *)
Definition sumQ (l : list Q) : Q := fold_right Qplus 0%Q l.

(** The dot product of [a] and [b] over the indices [0 .. n-1]. *)
Definition dot (n : Z) (a b : Z -> Q) : Q :=
  sumQ (map (fun k => (a k * b k)%Q) (range n)).

(** The parameters, in the spec's words: the grid holds one feature
    vector of [F] entries per vertex, that of vertex [v] from entry
    [v * F] on; a node names its 8 vertices, corner [idx] being the
    [idx]-th of them.  Neither definition goes through the kernels'
    [param_idx] or [vertex]. *)
Definition vertex_features (F : Z) (grid : buffer) (v : Z) : fvec :=
  fun f => grid (v * F + f).

Definition corner_features (F : Z) (grid : buffer)
    (node : TriangleOctreeDualNode) (f : Z) : Z -> Q :=
  fun idx =>
    match nth_error (vertices node) (Z.to_nat idx) with
    | Some v => vertex_features F grid v f
    | None => 0%Q
    end.

(** A dual node as the octree builds it: 8 vertices, whose feature
    vectors lie at offsets an [int] holds. *)
Definition node_ok (F : Z) (node : TriangleOctreeDualNode) : Prop :=
  List.length (vertices node) = 8%nat
  /\ Forall (fun v => 0 <= v /\ v * F + F <= 2 ^ 31) (vertices node).

(** Trilinear interpolation at [(x, y, z)] of the values [c 0 .. c 7] at
    the corners of a cell, bit [d] of the corner index selecting the upper
    side along axis [d]. *)
Definition trilinear (c : Z -> Q) (x y z : Q) : Q :=
  ((1 - x) * (1 - y) * (1 - z) * c 0%Z
   + x * (1 - y) * (1 - z) * c 1%Z
   + (1 - x) * y * (1 - z) * c 2%Z
   + x * y * (1 - z) * c 3%Z
   + (1 - x) * (1 - y) * z * c 4%Z
   + x * (1 - y) * z * c 5%Z
   + (1 - x) * y * z * c 6%Z
   + x * y * z * c 7%Z)%Q.

(** The arithmetic mean of the values [c 0 .. c 7]. *)
Definition mean8 (c : Z -> Q) : Q :=
  ((c 0%Z + c 1%Z + c 2%Z + c 3%Z + c 4%Z + c 5%Z + c 6%Z + c 7%Z) / 8)%Q.

(** The corners on the lower side of axis [g]: the left ends of the 4
    axis-opposite vertex pairs. *)
Definition left_corners (g : Z) : list Z :=
  filter (fun idx => negb (Z.testbit idx g)) (range 8).

(** The weight of corner [idx] over the two axes other than [g]. *)
Definition face_weight (pos : vec3) (g idx : Z) : Q :=
  fold_right
    (fun dim w =>
       ((if Z.testbit idx dim then vget pos dim else 1 - vget pos dim) * w)%Q)
    1%Q (filter (fun dim => negb (dim =? g)) (range 3)).

(** The sum over the 4 pairs along axis [g] of the face weight times the
    difference right minus left of the corner values, times the step
    factor [2^level] and the derivative factor [factor]. *)
Definition pair_difference_sum (c : Z -> Q) (pos : vec3) (g : Z)
    (level : Z) (factor : Q) : Q :=
  (sumQ (map (fun idx => face_weight pos g idx * (c (idx + 2 ^ g)%Z - c idx))%Q
             (left_corners g))
   * Qpower 2 level * factor)%Q.

(** The derivative factor of an axis: 1 for [Linear], the smoothstep
    derivative of the local position otherwise. *)
Definition derivative_factor (smoothstep_derivative : Q -> Q)
    (interpolation_type : InterpolationType) (x : Q) : Q :=
  match interpolation_type with
  | Linear => 1%Q
  | _ => smoothstep_derivative x
  end.

(** The local position after the interpolation mode is applied. *)
Definition warped (smoothstep : Q -> Q)
    (interpolation_type : InterpolationType) (p : vec3) : vec3 :=
  match interpolation_type with
  | Linear => p
  | _ => mk_vec3 (smoothstep (vx p)) (smoothstep (vy p)) (smoothstep (vz p))
  end.

(** The cubic smoothstep and its derivative, as tiny-cuda-nn defines
    them; they instantiate the kernels' parameters in the examples. *)
Definition smoothstep_cubic (x : Q) : Q := (x * x * (3 - 2 * x))%Q.
Definition smoothstep_cubic_derivative (x : Q) : Q := (6 * x * (1 - x))%Q.

(** ** The two effects of the forward visitor *)

Section VisitorEffects.

Variable smoothstep : Q -> Q.
Variable smoothstep_derivative : Q -> Q.
Variable N_FEATURES_PER_LEVEL : Z.

(** What one call of the visitor does to the output view. *)
Definition visit_output (starting_level : Z)
    (interpolation_type : InterpolationType) (grid : buffer) (i : Z)
    (out : matrix) (v : visit) : matrix :=
  if v_level v <? starting_level then out
  else
    store_features N_FEATURES_PER_LEVEL out
      (U32.sub (v_level v) starting_level) i
      (interpolate N_FEATURES_PER_LEVEL grid (v_node v)
         (fst (warp smoothstep smoothstep_derivative interpolation_type
                 (v_pos v)))).

(** What one call of the visitor does to the derivative cache. *)
Definition visit_cache (n_features starting_level : Z)
    (interpolation_type : InterpolationType) (grid : buffer) (i : Z)
    (dy_dx : buffer) (v : visit) : buffer :=
  if v_level v <? starting_level then dy_dx
  else
    let w := warp smoothstep smoothstep_derivative interpolation_type
               (v_pos v) in
    store_gradients N_FEATURES_PER_LEVEL grid (v_node v) n_features
      starting_level (U32.sub (v_level v) starting_level) i (fst w) (snd w)
      dy_dx.

End VisitorEffects.

(** ** Launch sizes *)

(** The sizes for which no [uint32_t] computation of the thread of sample
    [i] wraps around. *)
Definition sample_ok (F n_levels starting_level num_elements i : Z) : Prop :=
  0 < F /\ 0 < n_levels /\ 0 <= starting_level
  /\ n_levels + starting_level < 2 ^ 31
  /\ 0 <= i < num_elements
  /\ num_elements * (3 * (F * n_levels)) < 2 ^ 32.

(** The index in the derivative cache of feature [f] of level [level]
    along axis [g] for sample [i], with [n_features] features per sample. *)
Definition cache_slot (F n_features i level g f : Z) : Z :=
  i * (3 * n_features) + g * n_features + level * F + f.

(** The traversal the kernels run for sample [i]. *)
Definition sample_traversal (traverse : Z -> vec3 -> traversal)
    (n_levels starting_level : Z) (data_in : matrix) (i : Z) : traversal :=
  traverse (n_levels + starting_level)
    (mk_vec3 (data_in 0 i) (data_in 1 i) (data_in 2 i)).

(** A buffer update is additive when it adds to every entry an amount that
    does not depend on the buffer it starts from. *)
Definition additive (f : buffer -> buffer) : Prop :=
  exists d : buffer, forall b j, Qeq (f b j) (b j + d j)%Q.

Definition zero_buffer : buffer := fun _ => 0%Q.

(** ** A one-node octree for the examples *)

(** A single populated node, the root, with the vertices 0 .. 7. *)
Definition root_only_nodes : list TriangleOctreeNode :=
  [mk_node [-1; -1; -1; -1; -1; -1; -1; -1]].

Definition root_only_dual_nodes : list TriangleOctreeDualNode :=
  [mk_dual [0; 1; 2; 3; 4; 5; 6; 7]].

Definition root_only_traverse : Z -> vec3 -> traversal :=
  traverse_spec root_only_nodes root_only_dual_nodes.

(** The octree of the given depth whose only populated node is the root. *)
Definition root_only_octree (depth : Z) : TriangleOctree :=
  mk_octree depth 8 root_only_traverse.

(** The same octree with the vertices of the root in another order, so
    that no corner has its own index as vertex. *)
Definition scrambled_dual_nodes : list TriangleOctreeDualNode :=
  [mk_dual [5; 3; 0; 7; 2; 6; 1; 4]].

Definition scrambled_traverse : Z -> vec3 -> traversal :=
  traverse_spec root_only_nodes scrambled_dual_nodes.

(** A batch whose samples all sit at [(1/4, 1/2, 3/4)]. *)
Definition quarter_input : matrix :=
  fun j _ => if j =? 0 then (1 # 4)%Q else if j =? 1 then (1 # 2)%Q else (3 # 4)%Q.

(** A batch whose samples all sit at the centroid of the root cell. *)
Definition centroid_input : matrix := fun _ _ => (1 # 2)%Q.

(** A parameter buffer whose entries are pairwise distinct: entry [j] holds
    [j + 1]. *)
Definition distinct_grid : buffer := fun j => inject_Z (j + 1).

(** An upstream gradient of ones. *)
Definition ones : matrix := fun _ _ => 1%Q.

(** ** The two effects of a forward thread *)

Section ThreadEffects.

Variable traverse : Z -> vec3 -> traversal.
Variable smoothstep : Q -> Q.
Variable smoothstep_derivative : Q -> Q.
Variable N_FEATURES_PER_LEVEL : Z.

(** What thread [i] of [kernel_takikawa] does to the output view. *)
Definition thread_output (num_elements n_levels starting_level : Z)
    (interpolation_type : InterpolationType) (grid : buffer)
    (data_in : matrix) (i : Z) (out : matrix) : matrix :=
  let n_features := U32.mul N_FEATURES_PER_LEVEL n_levels in
  if U32.mul i n_features >=? U32.mul num_elements n_features then out
  else
    let t :=
      traverse (U32.to_int (U32.add n_levels starting_level))
        (mk_vec3 (data_in 0 i) (data_in 1 i) (data_in 2 i)) in
    zero_fill N_FEATURES_PER_LEVEL n_levels starting_level (t_level t) i
      (fold_left
         (visit_output smoothstep smoothstep_derivative N_FEATURES_PER_LEVEL
            starting_level interpolation_type grid i)
         (visits t) out).

(** What thread [i] of [kernel_takikawa] does to the derivative cache. *)
Definition thread_cache (num_elements n_levels starting_level : Z)
    (interpolation_type : InterpolationType) (grid : buffer)
    (data_in : matrix) (i : Z) (dy_dx : buffer) : buffer :=
  let n_features := U32.mul N_FEATURES_PER_LEVEL n_levels in
  if U32.mul i n_features >=? U32.mul num_elements n_features then dy_dx
  else
    let t :=
      traverse (U32.to_int (U32.add n_levels starting_level))
        (mk_vec3 (data_in 0 i) (data_in 1 i) (data_in 2 i)) in
    fold_left
      (visit_cache smoothstep smoothstep_derivative N_FEATURES_PER_LEVEL
         n_features starting_level interpolation_type grid i)
      (visits t) dy_dx.

End ThreadEffects.

(** The sizes for which no [uint32_t] computation of any thread of a launch
    over [num_elements] samples wraps around. *)
Definition launch_ok (F n_levels starting_level num_elements : Z) : Prop :=
  0 < F /\ 0 < n_levels /\ 0 <= starting_level
  /\ n_levels + starting_level < 2 ^ 31
  /\ 0 < num_elements
  /\ n_blocks_linear num_elements * N_THREADS_LINEAR * (3 * (F * n_levels))
     < 2 ^ 32.



(** An encoder over the one-node octree of depth 3 that starts at level 1,
    in each interpolation mode. *)
Definition example_encoder (interpolation_type : InterpolationType)
    : TakikawaEncoding :=
  mk_encoding 1 4 0 (root_only_octree 3) interpolation_type.

(** The encoder the constructor returns for the one-node octree of the
    given depth, starting level 0 and linear interpolation. *)
Definition root_only_encoder (F depth : Z) : TakikawaEncoding :=
  mk_encoding 0 (U32.mul F (U32.sub depth 0)) 0 (root_only_octree depth) Linear.
From Stdlib Require Import Lqa Qminmax Qround DecimalString.


(** ** The rest of the encoder's interface *)

Section EncoderInterface.

(** The template parameter [N_FEATURES_PER_LEVEL]. *)
Variable N_FEATURES_PER_LEVEL : Z.

(** Lines 410-412. *)
Definition output_width (e : TakikawaEncoding) : Z := padded_output_width e.

(** Lines 414-416. *)
Definition required_input_alignment : Z := 1.

(** Lines 422-424. *)
Definition required_output_alignment : Z := N_FEATURES_PER_LEVEL.

(** Lines 418-420: [CHECK_THROW(padded_output_width == m_n_output_dims)];
    [None] stands for the exception, no member is changed either way. *)
Definition set_padded_output_width (e : TakikawaEncoding)
    (padded_output_width : Z) : option TakikawaEncoding :=
  if padded_output_width =? m_n_output_dims e then Some e else None.

End EncoderInterface.

(** What the update of one corner adds to slot [j] when feature [f] goes to
    slot [p + f]. *)
Definition slot_share (F p : Z) (grad : fvec) (w : Q) (j : Z) : Q :=
  if (p <=? j) && (j <? p + F) then (grad (j - p)%Z * w)%Q else 0%Q.

(** A traversal that visits every level below the level it returns. *)
Definition traversal_complete (t : traversal) : Prop :=
  forall level, 0 <= level < t_level t ->
    exists v, In v (visits t) /\ v_level v = level.

(** The visit a traversal made at [level], if any. *)
Definition visit_at (t : traversal) (level : Z) : option visit :=
  find (fun v => v_level v =? level) (visits t).

(** What entry [k] of the slice of sample [i] and axis [j] of the
    derivative cache holds after a forward call: the derivative of feature
    [k mod F] at level [k / F] where the sample's traversal visited that
    level, and what the newly allocated buffer held where it did not. *)
Definition cache_entry (traverse : Z -> vec3 -> traversal)
    (smoothstep smoothstep_derivative : Q -> Q) (F n_levels s : Z)
    (it : InterpolationType) (grid : buffer) (data_in : matrix)
    (fresh : buffer) (i j k : Z) : Q :=
  match visit_at (sample_traversal traverse n_levels s data_in i) (k / F + s)
  with
  | Some v =>
      pair_difference_sum
        (fun idx => grid (param_idx F (v_node v) idx + k mod F))
        (warped smoothstep it (v_pos v)) j (v_level v)
        (derivative_factor smoothstep_derivative it (vget (v_pos v) j))
  | None => fresh (i * (3 * (F * n_levels)) + j * (F * n_levels) + k)
  end.

(** A workspace that holds ones. *)
Definition ones_buffer : buffer := fun _ => 1%Q.

(** The scrambled one-node octree of the given depth, and the encoder the
    constructor returns for it with starting level 0 and linear
    interpolation. *)
Definition scrambled_octree (depth : Z) : TriangleOctree :=
  mk_octree depth 8 scrambled_traverse.

Definition scrambled_encoder (F depth : Z) : TakikawaEncoding :=
  mk_encoding 0 (U32.mul F (U32.sub depth 0)) 0 (scrambled_octree depth) Linear.

(** * The render buffer ([render_buffer.cu])

    Colours are [vec4] values whose channels are rationals, and the
    arithmetic on them is exact: a statement about them names the formula
    the code evaluates, and holds of the [float] code where the theorem's
    bounds keep every intermediate value representable or where only the
    order of values matters.  A device buffer of pixels is a function from
    the element index, a surface a function from the pixel's column and
    row.  A two-dimensional launch
    runs its threads one after the other.  The CUDA runtime calls are
    taken to succeed; the colour-space conversions, the turbo colour map
    and the power function are declared outside this file and stay
    parameters. *)

(** [int] arithmetic: the compiled code wraps around at 2^31. *)
Module I32.

Definition wrap (x : Z) : Z := (x + 2 ^ 31) mod 2 ^ 32 - 2 ^ 31.

Definition mul (a b : Z) : Z := wrap (a * b).

End I32.

Module RenderBuffer.

(** ** Types *)

(** [ivec2], with [v[axis]] (axis 0 is x, the other one y) and [==]. *)
Definition ivec2 : Type := (Z * Z)%type.

(** The number of pixels of a resolution, as a number. *)
Definition product (v : ivec2) : Z := fst v * snd v.

(** [product(v)] as the code computes it: the two [int] components are
    multiplied in [int]. *)
Definition int_product (v : ivec2) : Z := I32.mul (fst v) (snd v).

Definition ivec2_get (v : ivec2) (axis : Z) : Z :=
  if axis =? 0 then fst v else snd v.

Definition ivec2_eqb (a b : ivec2) : bool :=
  (fst a =? fst b) && (snd a =? snd b).

(** [vec4]: the channels [r g b a], also read as [x y z w]. *)
Record vec4 : Type := mk_vec4 { c_r : Q; c_g : Q; c_b : Q; c_a : Q }.

Definition vec4_zero : vec4 := mk_vec4 0 0 0 0.

Definition rgb (c : vec4) : vec3 := mk_vec3 (c_r c) (c_g c) (c_b c).

Definition set_rgb (c : vec4) (v : vec3) : vec4 :=
  mk_vec4 (vx v) (vy v) (vz v) (c_a c).

Definition set_a (c : vec4) (a : Q) : vec4 :=
  mk_vec4 (c_r c) (c_g c) (c_b c) a.

Definition v3_map (f : Q -> Q) (v : vec3) : vec3 :=
  mk_vec3 (f (vx v)) (f (vy v)) (f (vz v)).

Definition v3_map2 (f : Q -> Q -> Q) (a b : vec3) : vec3 :=
  mk_vec3 (f (vx a) (vx b)) (f (vy a) (vy b)) (f (vz a) (vz b)).

Definition v3_add : vec3 -> vec3 -> vec3 := v3_map2 Qplus.
Definition v3_mul : vec3 -> vec3 -> vec3 := v3_map2 Qmult.
Definition v3_scale (k : Q) : vec3 -> vec3 := v3_map (fun t => (t * k)%Q).
Definition v3_div (v : vec3) (k : Q) : vec3 := v3_map (fun t => (t / k)%Q) v.

Definition v4_map2 (f : Q -> Q -> Q) (a b : vec4) : vec4 :=
  mk_vec4 (f (c_r a) (c_r b)) (f (c_g a) (c_g b)) (f (c_b a) (c_b b))
    (f (c_a a) (c_a b)).

(** [color * alpha + prev_color * (1.f - alpha)] *)
Definition blend (alpha : Q) (color prev_color : vec4) : vec4 :=
  v4_map2 (fun c p => (c * alpha + p * (1 - alpha))%Q) color prev_color.

(** [a > 0.0f] *)
Definition Qpositive (a : Q) : bool := negb (Qle_bool a 0).

(** [clamp(t, 0.0f, 1.0f)] *)
Definition clamp01 (t : Q) : Q := Qmin (Qmax t 0) 1.

(** The enumerations of [common.h], with the enumerators this file
    names. *)
Inductive EColorSpace : Type := Linear | SRGB | VisPosNeg.

Inductive ETonemapCurve : Type := Identity | ACES | Hable | Reinhard.

Definition is_srgb (c : EColorSpace) : bool :=
  match c with SRGB => true | _ => false end.

(** A pixel buffer in device memory, and a surface. *)
Definition buffer4 : Type := Z -> vec4.
Definition surface2D : Type := Z -> Z -> vec4.

Definition buffer4_set (b : buffer4) (idx : Z) (c : vec4) : buffer4 :=
  fun j => if j =? idx then c else b j.

Definition surf2Dwrite (s : surface2D) (x y : Z) (c : vec4) : surface2D :=
  fun x' y' => if (x' =? x) && (y' =? y) then c else s x' y'.

(** [div_round_up] of tiny-cuda-nn on [uint32_t]. *)
Definition div_round_up (val divisor : Z) : Z :=
  U32.sub (U32.add val divisor) 1 / divisor.

(** [kernel<<<blocks, threads>>>] with [threads = {16, 8, 1}]: every
    thread of every block runs, identified by its global [x] and [y]. *)
Definition launch_2d {S : Type} (kernel : Z -> Z -> S -> S)
    (blocks_x blocks_y : Z) (st : S) : S :=
  fold_left
    (fun st y => fold_left (fun st x => kernel x y st) (range (blocks_x * 16)) st)
    (range (blocks_y * 8)) st.

(** ** [CudaSurface2D] (lines 40-81) *)

(** [size_t] wraps at 2^64. *)
Definition size_t_wrap (x : Z) : Z := x mod 2 ^ 64.

(** The handles are integers, 0 for none; the second component of the
    state is [g_total_n_bytes_allocated]. *)
Record CudaSurface2D : Type := mk_surface {
  m_surface : Z;
  m_array : Z;
  m_size : ivec2;
  m_n_channels : Z
}.

Definition surface_state : Type := (CudaSurface2D * Z)%type.

(** [sizeof(float)] *)
Definition sizeof_float : Z := 4.

(** Lines 40-52.  The [int] product is converted to [size_t] and the
    subtraction is done there. *)
Definition free (st : surface_state) : surface_state :=
  let s := fst st in
  let total :=
    if m_array s =? 0 then snd st
    else size_t_wrap
           (snd st - int_product (m_size s) * sizeof_float * m_n_channels s) in
  (mk_surface 0 0 (0, 0) 0, total).

Definition unsupported_channels (n_channels : Z) : exception :=
  runtime_error
    ("CudaSurface2D: unsupported number of channels "
       ++ DecimalString.NilZero.string_of_int (Z.to_int n_channels)).

(** Lines 54-81.  [array] and [surface] are the handles
    [cudaMallocArray] and [cudaCreateSurfaceObject] hand out.  The result
    is the state the call leaves and the exception it throws, if any. *)
Definition resize (size : ivec2) (n_channels : Z) (array surface : Z)
    (st : surface_state) : surface_state * option exception :=
  if ivec2_eqb size (m_size (fst st)) && (n_channels =? m_n_channels (fst st))
  then (st, None)
  else
    let st1 := free st in
    if (1 <=? n_channels) && (n_channels <=? 4) then
      let total :=
        size_t_wrap
          (snd st1
           + int_product (m_size (fst st1)) * sizeof_float * n_channels) in
      ((mk_surface surface array size n_channels, total), None)
    else (st1, Some (unsupported_channels n_channels)).

(** ** [accumulate_kernel] (lines 228-262) *)

Section PixelKernels.

Variable linear_to_srgb : vec3 -> vec3.
Variable srgb_to_linear : vec3 -> vec3.
(** [pow(2.0f, e)] *)
Variable exp2 : Q -> Q.
Variable colormap_turbo : Q -> vec3.

(** Lines 238-261 for one pixel: [color] from the frame buffer, [tmp]
    from the accumulate buffer; the result is stored back. *)
Definition accumulate_pixel (sample_count : Q) (color_space : EColorSpace)
    (color tmp : vec4) : vec4 :=
  let mean (t c : Q) : Q := ((t * sample_count + c) / (sample_count + 1))%Q in
  let tmp1 :=
    match color_space with
    | VisPosNeg =>
        let val := (c_r color - c_g color)%Q in
        let tmp_val := (c_r tmp - c_g tmp)%Q in
        let tmp_val := mean tmp_val val in
        mk_vec4 (Qmax tmp_val 0) (Qmax (- tmp_val) 0) (c_b tmp) (c_a tmp)
    | SRGB => set_rgb tmp (v3_map2 mean (rgb tmp) (linear_to_srgb (rgb color)))
    | Linear => set_rgb tmp (v3_map2 mean (rgb tmp) (rgb color))
    end in
  set_a tmp1 (mean (c_a tmp) (c_a color)).

Definition accumulate_kernel (resolution : ivec2) (frame_buffer : buffer4)
    (sample_count : Q) (color_space : EColorSpace) (x y : Z)
    (accumulate_buffer : buffer4) : buffer4 :=
  if (U32.wrap (fst resolution) <=? x) || (U32.wrap (snd resolution) <=? y)
  then accumulate_buffer
  else
    let idx := U32.add x (U32.mul (U32.wrap (fst resolution)) y) in
    buffer4_set accumulate_buffer idx
      (accumulate_pixel sample_count color_space (frame_buffer idx)
         (accumulate_buffer idx)).

(** ** The tone-mapping curves (lines 264-321) *)

(** The coefficients [k0 .. k5] of the two rational curves. *)
Definition aces_coefficients : Q * Q * Q * Q * Q * Q :=
  ((6 # 10) * (6 # 10) * (251 # 100),
   (6 # 10) * (3 # 100),
   0,
   (6 # 10) * (6 # 10) * (243 # 100),
   (6 # 10) * (59 # 100),
   14 # 100)%Q.

Definition hable_coefficients : Q * Q * Q * Q * Q * Q :=
  let A := (15 # 100)%Q in
  let B := (50 # 100)%Q in
  let C := (10 # 100)%Q in
  let D := (20 # 100)%Q in
  let E := (2 # 100)%Q in
  let F := (30 # 100)%Q in
  let k0 := (A * F - A * E)%Q in
  let k1 := (C * B * F - B * E)%Q in
  let k2 := 0%Q in
  let k3 := (A * F)%Q in
  let k4 := (B * F)%Q in
  let k5 := (D * F * F)%Q in
  let W := (112 # 10)%Q in
  let nom := (k0 * (W * W) + k1 * W + k2)%Q in
  let denom := (k3 * (W * W) + k4 * W + k5)%Q in
  let white_scale := (denom / nom)%Q in
  (4 * k0 * white_scale, 2 * k1 * white_scale, k2 * white_scale,
   4 * k3, 2 * k4, k5)%Q.

(** Lines 314-316 for one channel. *)
Definition curve_nom (k : Q * Q * Q * Q * Q * Q) (t : Q) : Q :=
  let '(k0, k1, k2, _, _, _) := k in (t * t * k0 + k1 * t + k2)%Q.

Definition curve_denom (k : Q * Q * Q * Q * Q * Q) (t : Q) : Q :=
  let '(_, _, _, k3, k4, k5) := k in (k3 * (t * t) + k4 * t + k5)%Q.

Definition rational_curve (k : Q * Q * Q * Q * Q * Q) (x : vec3) : vec3 :=
  v3_map (fun t => (curve_nom k t / curve_denom k t)%Q) x.

(** [Y] of line 309. *)
Definition luminance (x : vec3) : Q :=
  ((2126 # 10000) * vx x + (7152 # 10000) * vy x + (722 # 10000) * vz x)%Q.

(** [tonemap(vec3 x, ETonemapCurve curve)], lines 264-321. *)
Definition tonemap_curve (x : vec3) (curve : ETonemapCurve) : vec3 :=
  match curve with
  | Identity => x
  | ACES => rational_curve aces_coefficients (v3_map (fun t => Qmax t 0) x)
  | Hable => rational_curve hable_coefficients (v3_map (fun t => Qmax t 0) x)
  | Reinhard =>
      let x := v3_map (fun t => Qmax t 0) x in
      v3_scale (1 / (luminance x + 1)) x
  end.

(** [tonemap(col, exposure, tonemap_curve, color_space,
    output_color_space)], lines 323-342. *)
Definition tonemap (col exposure : vec3) (curve : ETonemapCurve)
    (color_space output_color_space : EColorSpace) : vec3 :=
  let col := if is_srgb color_space then srgb_to_linear col else col in
  let col := v3_mul col (v3_map exp2 exposure) in
  let col := tonemap_curve col curve in
  if is_srgb output_color_space then linear_to_srgb col else col.

(** ** [tonemap_kernel] (lines 511-543) *)

(** Lines 521-540 for one pixel of the accumulate buffer. *)
Definition tonemap_pixel (exposure : Q) (background_color : vec4)
    (color_space output_color_space : EColorSpace) (curve : ETonemapCurve)
    (clamp_output_color unmultiply_alpha : bool) (color : vec4) : vec4 :=
  let background_color :=
    if is_srgb color_space then background_color
    else set_rgb background_color (srgb_to_linear (rgb background_color)) in
  let weight := ((1 - c_a color) * c_a background_color)%Q in
  let color :=
    set_rgb color (v3_add (rgb color) (v3_scale weight (rgb background_color))) in
  let color := set_a color (c_a color + weight)%Q in
  let color :=
    set_rgb color
      (tonemap (rgb color) (mk_vec3 exposure exposure exposure) curve
         color_space output_color_space) in
  let color :=
    if unmultiply_alpha && Qpositive (c_a color)
    then set_rgb color (v3_div (rgb color) (c_a color))
    else color in
  if clamp_output_color
  then mk_vec4 (clamp01 (c_r color)) (clamp01 (c_g color))
         (clamp01 (c_b color)) (clamp01 (c_a color))
  else color.

Definition tonemap_kernel (resolution : ivec2) (exposure : Q)
    (background_color : vec4) (accumulate_buffer : buffer4)
    (color_space output_color_space : EColorSpace) (curve : ETonemapCurve)
    (clamp_output_color unmultiply_alpha : bool) (x y : Z)
    (surface : surface2D) : surface2D :=
  if (U32.wrap (fst resolution) <=? x) || (U32.wrap (snd resolution) <=? y)
  then surface
  else
    let idx := U32.add x (U32.mul (U32.wrap (fst resolution)) y) in
    surf2Dwrite surface x y
      (tonemap_pixel exposure background_color color_space output_color_space
         curve clamp_output_color unmultiply_alpha (accumulate_buffer idx)).

(** ** [overlay_depth_kernel] (lines 414-460) *)

(** Lines 432-444: the pixel of the image shown at pixel [(x, y)] of the
    screen.  [overlay_image_kernel] computes the same pair at lines
    367-379. *)
Definition source_pixel (resolution image_resolution : ivec2) (fov_axis : Z)
    (zoom : Q) (screen_center : Q * Q) (x y : Z) : Z * Z :=
  let scale :=
    (inject_Z (ivec2_get image_resolution fov_axis)
       / inject_Z (ivec2_get resolution fov_axis))%Q in
  let half : Q := (1 # 2)%Q in
  let fx := (inject_Z x + half)%Q in
  let fy := (inject_Z y + half)%Q in
  let fx := (fx - inject_Z (fst resolution) * half)%Q in
  let fx := (fx / zoom)%Q in
  let fx := (fx + fst screen_center * inject_Z (fst resolution))%Q in
  let fy := (fy - inject_Z (snd resolution) * half)%Q in
  let fy := (fy / zoom)%Q in
  let fy := (fy + snd screen_center * inject_Z (snd resolution))%Q in
  let u :=
    ((fx - inject_Z (fst resolution) * half) * scale
       + inject_Z (fst image_resolution) * half)%Q in
  let v :=
    ((fy - inject_Z (snd resolution) * half) * scale
       + inject_Z (snd image_resolution) * half)%Q in
  (Qfloor u, Qfloor v).

(** Lines 445-451: the index at which the depth image is read, [None]
    where the pixel lies outside the image and nothing is read. *)
Definition depth_read (image_resolution : ivec2) (src : Z * Z) : option Z :=
  let srcx := fst src in
  let srcy := snd src in
  let srcidx := U32.wrap (srcx + fst image_resolution * srcy) in
  if (fst image_resolution <=? srcx) || (snd image_resolution <=? srcy)
     || (srcx <? 0) || (srcy <? 0)
  then None
  else Some srcidx.

(** Lines 432-458 for one pixel; [prev_color] is read from the surface. *)
Definition overlay_depth_pixel (resolution : ivec2) (alpha : Q)
    (depth : Z -> Q) (depth_scale : Q) (image_resolution : ivec2)
    (fov_axis : Z) (zoom : Q) (screen_center : Q * Q) (x y : Z)
    (prev_color : vec4) : vec4 :=
  let src :=
    source_pixel resolution image_resolution fov_axis zoom screen_center x y in
  let color :=
    match depth_read image_resolution src with
    | None => vec4_zero
    | Some srcidx =>
        let depth_value := (depth srcidx * depth_scale)%Q in
        let c := colormap_turbo depth_value in
        mk_vec4 (vx c) (vy c) (vz c) 1
    end in
  blend alpha color prev_color.

Definition overlay_depth_kernel (resolution : ivec2) (alpha : Q)
    (depth : Z -> Q) (depth_scale : Q) (image_resolution : ivec2)
    (fov_axis : Z) (zoom : Q) (screen_center : Q * Q) (x y : Z)
    (surface : surface2D) : surface2D :=
  if (U32.wrap (fst resolution) <=? x) || (U32.wrap (snd resolution) <=? y)
  then surface
  else
    surf2Dwrite surface x y
      (overlay_depth_pixel resolution alpha depth depth_scale image_resolution
         fov_axis zoom screen_center x y (surface x y)).

(** ** [CudaRenderBuffer] (lines 613-633) *)

(** The members [accumulate] uses.  [m_dlss] records whether the pointer
    is set; the two buffers stand for [frame_buffer()] and
    [accumulate_buffer()], [m_in_resolution] for [in_resolution()]. *)
Record CudaRenderBuffer : Type := mk_render_buffer {
  m_spp : Z;
  m_dlss : bool;
  m_color_space : EColorSpace;
  m_in_resolution : ivec2;
  m_frame_buffer : buffer4;
  m_accumulate_buffer : buffer4
}.

(** Lines 613-633.  The [cudaMemsetAsync] clears the whole allocation. *)
Definition accumulate (rb : CudaRenderBuffer) : CudaRenderBuffer :=
  let res := m_in_resolution rb in
  let accum_spp := if m_dlss rb then 0 else m_spp rb in
  let cleared : buffer4 :=
    if accum_spp =? 0 then (fun _ => vec4_zero) else m_accumulate_buffer rb in
  let accumulated :=
    launch_2d
      (accumulate_kernel res (m_frame_buffer rb) (inject_Z accum_spp)
         (m_color_space rb))
      (div_round_up (U32.wrap (fst res)) 16)
      (div_round_up (U32.wrap (snd res)) 8) cleared in
  mk_render_buffer (U32.add (m_spp rb) 1) (m_dlss rb) (m_color_space rb)
    (m_in_resolution rb) (m_frame_buffer rb) accumulated.

End PixelKernels.

(** ** Reference notions *)

(** What the running mean takes from a colour of the frame buffer in
    the linear and the sRGB colour space. *)
Definition frame_sample (linear_to_srgb : vec3 -> vec3)
    (color_space : EColorSpace) (color : vec4) : vec4 :=
  if is_srgb color_space then set_rgb color (linear_to_srgb (rgb color))
  else color.

(** One step of the running mean over [k] earlier samples. *)
Definition mean_step (k old sample : Q) : Q := ((old * k + sample) / (k + 1))%Q.

(** The pixel that stands for a frame on its own: the sample in the
    linear and the sRGB colour space; in the positive/negative
    visualisation the signed value [r - g] of the frame, split into its
    positive part in the first channel and its negative part in the
    second, a third channel of 0 and the alpha of the frame. *)
Definition latest_sample (linear_to_srgb : vec3 -> vec3)
    (color_space : EColorSpace) (color : vec4) : vec4 :=
  match color_space with
  | VisPosNeg =>
      mk_vec4 (Qmax (c_r color - c_g color) 0)
        (Qmax (- (c_r color - c_g color)) 0) 0 (c_a color)
  | _ => frame_sample linear_to_srgb color_space color
  end.

(** A resolution with pixels, whose pixel count fits an [int]. *)
Definition resolution_ok (res : ivec2) : Prop :=
  0 < fst res /\ 0 < snd res /\ product res < 2 ^ 31.

(** The coefficients of a rational curve are not negative, the constant
    of the denominator is positive. *)
Definition coefficients_ok (k : Q * Q * Q * Q * Q * Q) : Prop :=
  let '(k0, k1, k2, k3, k4, k5) := k in
  (0 <= k0 /\ 0 <= k1 /\ 0 <= k2 /\ 0 <= k3 /\ 0 <= k4 /\ 0 < k5)%Q.

(** A surface with nothing allocated. *)
Definition empty_surface : CudaSurface2D := mk_surface 0 0 (0, 0) 0.

(** The number of bytes the code counts for a [size] surface of
    [n_channels] floats. *)
Definition surface_bytes (size : ivec2) (n_channels : Z) : Z :=
  int_product size * sizeof_float * n_channels.

End RenderBuffer.

(** * Properties *)

(** ** Machine integers and loops *)

Lemma u32_wrap_small (x : Z) : 0 <= x < U32.modulus -> U32.wrap x = x.
Proof. intros H. unfold U32.wrap. apply Z.mod_small. exact H. Qed.

Lemma u32_to_int_small (x : Z) : 0 <= x < 2 ^ 31 -> U32.to_int x = x.
Proof.
  intros H. unfold U32.to_int.
  destruct (Z.ltb_spec x (2 ^ 31)); [reflexivity | lia].
Qed.

Lemma modulus_eq : U32.modulus = 4294967296.
Proof. reflexivity. Qed.

Lemma in_range (n x : Z) : In x (range n) <-> 0 <= x < n.
Proof.
  unfold range. rewrite in_map_iff. split.
  - intros [k [<- Hk]]. apply in_seq in Hk. lia.
  - intros H. exists (Z.to_nat x). split; [lia |]. apply in_seq. lia.
Qed.

Lemma in_range_from (a b x : Z) : In x (range_from a b) <-> a <= x < b.
Proof.
  unfold range_from. rewrite in_map_iff. split.
  - intros [k [<- Hk]]. apply in_range in Hk. lia.
  - intros H. exists (x - a). split; [lia |]. apply in_range. lia.
Qed.

Lemma range_nonpos (n : Z) : n <= 0 -> range n = [].
Proof.
  intros H. unfold range. replace (Z.to_nat n) with 0%nat by lia. reflexivity.
Qed.

Lemma range_succ (n : Z) : 0 <= n -> range (n + 1) = range n ++ [n].
Proof.
  intros H. unfold range.
  replace (Z.to_nat (n + 1)) with (S (Z.to_nat n)) by lia.
  rewrite seq_S, map_app. simpl. rewrite Z2Nat.id by lia. reflexivity.
Qed.

Lemma seq_shift_Z (a m : nat) :
  map Z.of_nat (seq a m) = map (fun k => Z.of_nat a + k) (range (Z.of_nat m)).
Proof.
  unfold range. rewrite Nat2Z.id, map_map.
  revert a. induction m as [| m IH]; intros a; [reflexivity |].
  rewrite !seq_S, !map_app, IH. simpl. f_equal. f_equal. lia.
Qed.

Lemma range_split (n i : Z) :
  0 <= i < n -> range n = range i ++ i :: range_from (i + 1) n.
Proof.
  intros H. unfold range_from. unfold range at 1 2.
  replace (Z.to_nat n) with (Z.to_nat i + S (Z.to_nat (n - (i + 1))))%nat by lia.
  rewrite seq_app, map_app. f_equal. simpl.
  rewrite Z2Nat.id by lia. f_equal.
  rewrite seq_shift_Z. rewrite Z2Nat.id by lia.
  apply map_ext. intros k. lia.
Qed.

(** ** Sequences of writes *)

Lemma mat_set_same (m : matrix) (r c : Z) (v : Q) : mat_set m r c v r c = v.
Proof. unfold mat_set. rewrite !Z.eqb_refl. reflexivity. Qed.

Lemma mat_set_other (m : matrix) (r c : Z) (v : Q) (r' c' : Z) :
  r' <> r \/ c' <> c -> mat_set m r c v r' c' = m r' c'.
Proof.
  intros H. unfold mat_set.
  destruct (Z.eqb_spec r' r), (Z.eqb_spec c' c); simpl; try reflexivity. lia.
Qed.

Lemma buf_set_same (b : buffer) (i : Z) (v : Q) : buf_set b i v i = v.
Proof. unfold buf_set. rewrite Z.eqb_refl. reflexivity. Qed.

Lemma buf_set_other (b : buffer) (i : Z) (v : Q) (j : Z) :
  j <> i -> buf_set b i v j = b j.
Proof. intros H. unfold buf_set. destruct (Z.eqb_spec j i); [lia | reflexivity]. Qed.

Section Writes.

Context {A : Type}.
Variable row : A -> Z.
Variable val : A -> Q.

Lemma fold_mat_set_miss (col : Z) (l : list A) (m : matrix) (r c : Z) :
  (c <> col \/ forall a, In a l -> row a <> r) ->
  fold_left (fun out a => mat_set out (row a) col (val a)) l m r c = m r c.
Proof.
  revert m. induction l as [| x l IH]; intros m H; [reflexivity |].
  simpl. rewrite IH.
  - apply mat_set_other. destruct H as [H | H]; [right; exact H |].
    left. intros E. apply (H x); [left; reflexivity | now symmetry].
  - destruct H as [H | H]; [left; exact H | right].
    intros a Ha. apply H. right. exact Ha.
Qed.

Lemma fold_mat_set_hit (col : Z) (l : list A) (m : matrix) (a : A) :
  In a l ->
  (forall a', In a' l -> row a' = row a -> val a' = val a) ->
  fold_left (fun out a => mat_set out (row a) col (val a)) l m (row a) col
  = val a.
Proof.
  revert m. induction l as [| x l IH] using rev_ind; intros m Hin Hval.
  - destruct Hin.
  - rewrite fold_left_app. simpl.
    destruct (Z.eq_dec (row x) (row a)) as [E | E].
    + rewrite <- E at 1. rewrite mat_set_same.
      apply Hval; [apply in_or_app; right; left; reflexivity | exact E].
    + rewrite mat_set_other by (left; congruence).
      apply IH.
      * apply in_app_or in Hin. destruct Hin as [Hin | [-> | []]];
          [exact Hin | congruence].
      * intros a' Ha'. apply Hval. apply in_or_app. left. exact Ha'.
Qed.

Lemma fold_buf_set_miss (l : list A) (b : buffer) (j : Z) :
  (forall a, In a l -> row a <> j) ->
  fold_left (fun b a => buf_set b (row a) (val a)) l b j = b j.
Proof.
  revert b. induction l as [| x l IH]; intros b H; [reflexivity |].
  simpl. rewrite IH.
  - apply buf_set_other. intros E. apply (H x); [left; reflexivity | now symmetry].
  - intros a Ha. apply H. right. exact Ha.
Qed.

Lemma fold_buf_set_hit (l : list A) (b : buffer) (a : A) :
  In a l ->
  (forall a', In a' l -> row a' = row a -> val a' = val a) ->
  fold_left (fun b a => buf_set b (row a) (val a)) l b (row a) = val a.
Proof.
  revert b. induction l as [| x l IH] using rev_ind; intros b Hin Hval.
  - destruct Hin.
  - rewrite fold_left_app. simpl.
    destruct (Z.eq_dec (row x) (row a)) as [E | E].
    + rewrite <- E at 1. rewrite buf_set_same.
      apply Hval; [apply in_or_app; right; left; reflexivity | exact E].
    + rewrite buf_set_other by congruence.
      apply IH.
      * apply in_app_or in Hin. destruct Hin as [Hin | [-> | []]];
          [exact Hin | congruence].
      * intros a' Ha'. apply Hval. apply in_or_app. left. exact Ha'.
Qed.

End Writes.

(** A fold of steps that each leave a location alone leaves it alone. *)
Lemma fold_left_preserves {S A : Type} (f : S -> A -> S) (P : S -> Prop)
    (l : list A) (s : S) :
  P s -> (forall s a, In a l -> P s -> P (f s a)) -> P (fold_left f l s).
Proof.
  revert s. induction l as [| x l IH]; intros s Hs Hstep; [exact Hs |].
  simpl. apply IH.
  - apply Hstep; [left; reflexivity | exact Hs].
  - intros s' a Ha. apply Hstep. right. exact Ha.
Qed.

(** ** The parameters of a node *)

(** For a well-formed node the kernels' [param_idx] is the offset of the
    feature vector of the corner's vertex. *)
Lemma param_idx_vertex F node idx :
  0 < F -> node_ok F node -> 0 <= idx < 8 ->
  exists v,
    nth_error (vertices node) (Z.to_nat idx) = Some v
    /\ param_idx F node idx = v * F.
Proof.
  intros HF [Hlen Hall] Hidx.
  destruct (nth_error (vertices node) (Z.to_nat idx)) as [v |] eqn:E.
  - exists v. split; [reflexivity |].
    assert (Hin : In v (vertices node)) by (eapply nth_error_In; exact E).
    rewrite Forall_forall in Hall. destruct (Hall v Hin) as [Hv Hb].
    unfold param_idx, vertex.
    rewrite (nth_error_nth _ _ 0 E).
    unfold U32.mul. rewrite u32_wrap_small by (rewrite modulus_eq; nia).
    apply u32_to_int_small. nia.
  - apply nth_error_None in E. lia.
Qed.

Lemma corner_features_gather F grid node f idx :
  0 < F -> node_ok F node -> 0 <= idx < 8 ->
  grid (param_idx F node idx + f) = corner_features F grid node f idx.
Proof.
  intros HF Hnode Hidx.
  destruct (param_idx_vertex F node idx HF Hnode Hidx) as (v & E & Ep).
  unfold corner_features, vertex_features. rewrite E, Ep. reflexivity.
Qed.

Lemma trilinear_ext (c c' : Z -> Q) (x y z : Q) :
  (forall idx, 0 <= idx < 8 -> c idx = c' idx) ->
  trilinear c x y z = trilinear c' x y z.
Proof.
  intros H. unfold trilinear.
  rewrite (H 0), (H 1), (H 2), (H 3), (H 4), (H 5), (H 6), (H 7) by lia.
  reflexivity.
Qed.

Lemma pair_difference_sum_ext (c c' : Z -> Q) pos g level factor :
  (forall idx, 0 <= idx < 8 -> c idx = c' idx) -> 0 <= g < 3 ->
  pair_difference_sum c pos g level factor
  = pair_difference_sum c' pos g level factor.
Proof.
  intros H Hg. unfold pair_difference_sum. f_equal. f_equal. f_equal.
  apply map_ext_in. intros idx Hin.
  unfold left_corners in Hin. apply filter_In in Hin.
  destruct Hin as [Hr Hbit]. apply in_range in Hr.
  assert (Hup : 0 <= idx + 2 ^ g < 8).
  { assert (g = 0 \/ g = 1 \/ g = 2) as [-> | [-> | ->]] by lia;
      assert (idx = 0 \/ idx = 1 \/ idx = 2 \/ idx = 3 \/ idx = 4 \/ idx = 5
              \/ idx = 6 \/ idx = 7)
        as [-> | [-> | [-> | [-> | [-> | [-> | [-> | ->]]]]]]] by lia;
      simpl in Hbit; try discriminate; simpl; lia. }
  rewrite (H idx) by lia. rewrite (H (idx + 2 ^ g)) by exact Hup.
  reflexivity.
Qed.

(** ** The forward kernel *)

Section Forward.

Variable traverse : Z -> vec3 -> traversal.
Variable smoothstep : Q -> Q.
Variable smoothstep_derivative : Q -> Q.
Variable F : Z.

Local Abbreviation v_out := (visit_output smoothstep smoothstep_derivative F).
Local Abbreviation v_cache := (visit_cache smoothstep smoothstep_derivative F).
Local Abbreviation v_both := (forward_visit smoothstep smoothstep_derivative F).

Lemma forward_visit_split nf s it grid i st v :
  v_both nf s it grid i st v
  = (option_map (fun out => v_out s it grid i out v) (fst st),
     option_map (fun dd => v_cache nf s it grid i dd v) (snd st)).
Proof.
  unfold forward_visit, visit_output, visit_cache.
  destruct st as [[out |] [dd |]]; simpl;
    destruct (v_level v <? s); simpl; try reflexivity;
    destruct (warp _ _ _ _); reflexivity.
Qed.

Lemma fold_forward_visit nf s it grid i vs st :
  fold_left (v_both nf s it grid i) vs st
  = (option_map (fun out => fold_left (v_out s it grid i) vs out) (fst st),
     option_map (fun dd => fold_left (v_cache nf s it grid i) vs dd) (snd st)).
Proof.
  revert st. induction vs as [| v vs IH]; intros st.
  - destruct st as [[out |] [dd |]]; reflexivity.
  - simpl. rewrite IH, forward_visit_split.
    destruct st as [[out |] [dd |]]; reflexivity.
Qed.

(** *** Rows of the output view *)

Lemma row_small level f :
  0 <= level -> 0 <= f < F -> level * F + F <= 2 ^ 32 ->
  U32.add (U32.mul level F) f = level * F + f.
Proof.
  intros Hl Hf Hb. unfold U32.add, U32.mul.
  rewrite (u32_wrap_small (level * F)) by (rewrite modulus_eq; nia).
  apply u32_wrap_small. rewrite modulus_eq. nia.
Qed.

Lemma rows_disjoint l1 l2 f :
  0 <= f < F -> l1 <> l2 -> ~ (l2 * F <= l1 * F + f < l2 * F + F).
Proof. intros Hf Hne H. assert (l1 < l2 \/ l2 < l1) as [C | C] by lia; nia. Qed.

Lemma store_features_hit out level i res f :
  0 <= level -> 0 <= f < F -> level * F + F <= 2 ^ 32 ->
  store_features F out level i res (level * F + f) i = res f.
Proof.
  intros Hl Hf Hb. unfold store_features.
  rewrite <- (row_small level f) by assumption.
  apply (fold_mat_set_hit (fun feature => U32.add (U32.mul level F) feature) res).
  - apply in_range. exact Hf.
  - intros f' Hf' E. apply in_range in Hf'.
    rewrite !row_small in E by assumption. f_equal. lia.
Qed.

Lemma store_features_miss out level i res r c :
  0 <= level -> level * F + F <= 2 ^ 32 ->
  c <> i \/ ~ (level * F <= r < level * F + F) ->
  store_features F out level i res r c = out r c.
Proof.
  intros Hl Hb H. unfold store_features.
  apply (fold_mat_set_miss (fun feature => U32.add (U32.mul level F) feature) res).
  destruct H as [H | H]; [left; exact H | right].
  intros f Hf E. apply in_range in Hf.
  rewrite row_small in E by assumption. lia.
Qed.

(** *** The visitor on the output view *)

Lemma v_out_miss n_levels s it grid i out v r c :
  0 < F -> 0 <= s -> F * n_levels < 2 ^ 32 ->
  0 <= v_level v < s + n_levels ->
  c <> i \/ (s <= v_level v ->
             ~ ((v_level v - s) * F <= r < (v_level v - s) * F + F)) ->
  v_out s it grid i out v r c = out r c.
Proof.
  intros HF Hs Hn Hv H. unfold visit_output.
  destruct (Z.ltb_spec (v_level v) s) as [Hlt | Hge]; [reflexivity |].
  assert (U32.sub (v_level v) s = v_level v - s) as ->.
  { apply u32_wrap_small. rewrite modulus_eq. nia. }
  apply store_features_miss; [lia | nia |].
  destruct H as [H | H]; [left; exact H | right; apply H; lia].
Qed.

Lemma v_out_hit n_levels s it grid i out v f :
  0 < F -> 0 <= s -> F * n_levels < 2 ^ 32 ->
  s <= v_level v < s + n_levels -> 0 <= f < F ->
  v_out s it grid i out v ((v_level v - s) * F + f) i
  = interpolate F grid (v_node v)
      (fst (warp smoothstep smoothstep_derivative it (v_pos v))) f.
Proof.
  intros HF Hs Hn Hv Hf. unfold visit_output.
  destruct (Z.ltb_spec (v_level v) s) as [Hlt | Hge]; [lia |].
  assert (U32.sub (v_level v) s = v_level v - s) as ->.
  { apply u32_wrap_small. rewrite modulus_eq. nia. }
  apply store_features_hit; [lia | exact Hf | nia].
Qed.

Lemma fold_v_out_miss n_levels s it grid i vs out r c :
  0 < F -> 0 <= s -> F * n_levels < 2 ^ 32 ->
  (forall v, In v vs -> 0 <= v_level v < s + n_levels) ->
  c <> i \/ (forall v, In v vs -> s <= v_level v ->
             ~ ((v_level v - s) * F <= r < (v_level v - s) * F + F)) ->
  fold_left (v_out s it grid i) vs out r c = out r c.
Proof.
  intros HF Hs Hn Hvs H.
  apply (fold_left_preserves (v_out s it grid i) (fun m => m r c = out r c));
    [reflexivity |].
  intros m v Hv Hm. rewrite <- Hm.
  apply (v_out_miss n_levels); try assumption; [apply Hvs; exact Hv |].
  destruct H as [H | H]; [left; exact H | right; apply H; exact Hv].
Qed.

Lemma fold_v_out_hit n_levels s it grid i vs out v f :
  0 < F -> 0 <= s -> F * n_levels < 2 ^ 32 ->
  (forall v, In v vs -> 0 <= v_level v < s + n_levels) ->
  NoDup (map v_level vs) ->
  In v vs -> s <= v_level v -> 0 <= f < F ->
  fold_left (v_out s it grid i) vs out ((v_level v - s) * F + f) i
  = interpolate F grid (v_node v)
      (fst (warp smoothstep smoothstep_derivative it (v_pos v))) f.
Proof.
  intros HF Hs Hn Hvs Hnd Hin Hge Hf. revert out.
  induction vs as [| x vs IH]; intros out; [destruct Hin |].
  simpl. inversion Hnd as [| ? ? Hx Hnd']; subst.
  destruct Hin as [-> | Hin].
  - rewrite (fold_v_out_miss n_levels); try assumption.
    + apply (v_out_hit n_levels); try assumption.
      specialize (Hvs v (or_introl eq_refl)). lia.
    + intros w Hw. apply Hvs. right. exact Hw.
    + right. intros w Hw Hwge. apply rows_disjoint; [exact Hf |].
      intros E. apply Hx. apply in_map_iff. exists w. split; [lia | exact Hw].
  - apply IH; try assumption.
    intros w Hw. apply Hvs. right. exact Hw.
Qed.

(** *** The zero fill *)

Lemma zero_fill_hit n_levels s t_lvl i out level f :
  0 < F -> F * n_levels < 2 ^ 32 ->
  Z.max 0 (t_lvl - U32.to_int s) <= level < n_levels -> 0 <= f < F ->
  zero_fill F n_levels s t_lvl i out (level * F + f) i = 0%Q.
Proof.
  intros HF Hn Hl Hf. unfold zero_fill.
  set (level0 := Z.max 0 (t_lvl - U32.to_int s)) in *.
  assert (Hin : In level (range_from level0 n_levels))
    by (apply in_range_from; exact Hl).
  assert (Hall : forall x, In x (range_from level0 n_levels) -> 0 <= x < n_levels).
  { intros x Hx. apply in_range_from in Hx. lia. }
  revert Hin Hall. generalize (range_from level0 n_levels). intros ls.
  induction ls as [| x ls IH] using rev_ind; intros Hin Hall; [destruct Hin |].
  rewrite fold_left_app. simpl.
  assert (Hx : 0 <= x < n_levels) by (apply Hall, in_or_app; right; left; reflexivity).
  destruct (Z.eq_dec x level) as [-> | Hne].
  - apply store_features_hit; [lia | exact Hf | nia].
  - rewrite store_features_miss; [| lia | nia |].
    + apply IH.
      * apply in_app_or in Hin. destruct Hin as [Hin | [E | []]];
          [exact Hin | congruence].
      * intros y Hy. apply Hall, in_or_app. left. exact Hy.
    + right. apply rows_disjoint; [exact Hf | congruence].
Qed.

Lemma zero_fill_miss n_levels s t_lvl i out r c :
  0 < F -> F * n_levels < 2 ^ 32 ->
  c <> i \/ r < Z.max 0 (t_lvl - U32.to_int s) * F ->
  zero_fill F n_levels s t_lvl i out r c = out r c.
Proof.
  intros HF Hn H. unfold zero_fill.
  set (level0 := Z.max 0 (t_lvl - U32.to_int s)) in *.
  apply (fold_left_preserves
           (fun o l => store_features F o l i (fun _ => 0%Q))
           (fun m => m r c = out r c)); [reflexivity |].
  intros m x Hx Hm. rewrite <- Hm. apply in_range_from in Hx.
  apply store_features_miss; [lia | nia |].
  destruct H as [H | H]; [left; exact H | right; nia].
Qed.

(** *** Closed forms *)

Lemma warp_fst it p :
  fst (warp smoothstep smoothstep_derivative it p) = warped smoothstep it p.
Proof. destruct it, p; reflexivity. Qed.

Lemma warp_snd it p g :
  0 <= g < 3 ->
  vget (snd (warp smoothstep smoothstep_derivative it p)) g
  = derivative_factor smoothstep_derivative it (vget p g).
Proof.
  intros Hg. assert (g = 0 \/ g = 1 \/ g = 2) as [-> | [-> | ->]] by lia;
    destruct it, p; reflexivity.
Qed.

Lemma interpolate_trilinear grid node pos f :
  Qeq (interpolate F grid node pos f)
      (trilinear (fun idx => grid (param_idx F node idx + f))
         (vx pos) (vy pos) (vz pos)).
Proof.
  unfold interpolate, trilinear, fma_vec, load_vec, corner_weight.
  destruct pos as [x y z]. simpl. unfold vget. simpl. ring.
Qed.

(** *** Slots of the derivative cache *)

Lemma dy_dx_index_small n_levels N i level g :
  0 < F -> 0 <= i < N -> 0 <= level < n_levels -> 0 <= g < 3 ->
  N * (3 * (F * n_levels)) < 2 ^ 32 ->
  dy_dx_index F (F * n_levels) i level g
  = cache_slot F (F * n_levels) i level g 0.
Proof.
  intros HF Hi Hl Hg Hb. unfold dy_dx_index, cache_slot, U32.add, U32.mul.
  set (nf := F * n_levels) in *.
  assert (Hnf : 0 < nf) by (unfold nf; nia).
  assert (Hrow : 0 <= level * F < nf) by (unfold nf; nia).
  assert (Hi3 : (i + 1) * (3 * nf) <= N * (3 * nf)) by nia.
  rewrite (u32_wrap_small (nf * 3)) by (rewrite modulus_eq; nia).
  rewrite (u32_wrap_small (i * (nf * 3))) by (rewrite modulus_eq; nia).
  rewrite (u32_wrap_small (level * F)) by (rewrite modulus_eq; nia).
  rewrite (u32_wrap_small (g * nf)) by (rewrite modulus_eq; nia).
  rewrite (u32_wrap_small (i * (nf * 3) + level * F)) by (rewrite modulus_eq; nia).
  rewrite u32_wrap_small by (rewrite modulus_eq; nia).
  lia.
Qed.

Lemma cache_slot_inj n_levels i l g f l' g' f' :
  0 < F -> 0 <= l < n_levels -> 0 <= l' < n_levels ->
  0 <= g -> 0 <= g' -> 0 <= f < F -> 0 <= f' < F ->
  cache_slot F (F * n_levels) i l g f = cache_slot F (F * n_levels) i l' g' f' ->
  l = l' /\ g = g' /\ f = f'.
Proof.
  intros HF Hl Hl' Hg Hg' Hf Hf' E. unfold cache_slot in E.
  set (nf := F * n_levels) in *.
  assert (Ha : 0 <= l * F + f < nf) by (unfold nf; nia).
  assert (Ha' : 0 <= l' * F + f' < nf) by (unfold nf; nia).
  assert (g = g') as ->.
  { assert (g < g' \/ g = g' \/ g' < g) as [C | [C | C]] by lia;
      [nia | exact C | nia]. }
  assert (l = l').
  { assert (l < l' \/ l = l' \/ l' < l) as [C | [C | C]] by lia;
      [nia | exact C | nia]. }
  subst. repeat split. lia.
Qed.

Lemma store_vec_hit b base v f :
  0 <= f < F -> store_vec F b base v (base + f) = v f.
Proof.
  intros Hf. unfold store_vec.
  apply (fold_buf_set_hit (fun f => base + f) v).
  - apply in_range. exact Hf.
  - intros f' _ E. f_equal. lia.
Qed.

Lemma store_vec_miss b base v j :
  (forall f, 0 <= f < F -> j <> base + f) -> store_vec F b base v j = b j.
Proof.
  intros H. unfold store_vec.
  apply (fold_buf_set_miss (fun f => base + f) v).
  intros f Hf E. apply in_range in Hf. apply (H f Hf). now symmetry.
Qed.

Lemma store_gradients_miss n_levels N grid node s level i pos pd dd j :
  0 < F -> 0 <= i < N -> 0 <= level < n_levels ->
  N * (3 * (F * n_levels)) < 2 ^ 32 ->
  (forall g f, 0 <= g < 3 -> 0 <= f < F ->
               j <> cache_slot F (F * n_levels) i level g f) ->
  store_gradients F grid node (F * n_levels) s level i pos pd dd j = dd j.
Proof.
  intros HF Hi Hl Hb H. unfold store_gradients.
  apply (fold_left_preserves _ (fun b => b j = dd j)); [reflexivity |].
  intros b g Hg Hbj. rewrite <- Hbj. apply in_range in Hg.
  apply store_vec_miss. intros f Hf.
  rewrite (dy_dx_index_small n_levels N) by assumption.
  specialize (H g f Hg Hf). unfold cache_slot in *. lia.
Qed.

Lemma store_gradients_hit n_levels N grid node s level i pos pd dd g f :
  0 < F -> 0 <= i < N -> 0 <= level < n_levels ->
  N * (3 * (F * n_levels)) < 2 ^ 32 ->
  0 <= g < 3 -> 0 <= f < F ->
  store_gradients F grid node (F * n_levels) s level i pos pd dd
    (cache_slot F (F * n_levels) i level g f)
  = axis_gradient F grid node
      (scalbnf_one (U32.to_int (U32.add level s))) pos pd g f.
Proof.
  intros HF Hi Hl Hb Hg Hf. unfold store_gradients.
  set (sc := scalbnf_one _).
  assert (Hin : In g (range 3)) by (apply in_range; exact Hg).
  assert (Hall : forall x, In x (range 3) -> 0 <= x < 3)
    by (intros x Hx; apply in_range; exact Hx).
  revert Hin Hall. generalize (range 3). intros gs.
  induction gs as [| x gs IH] using rev_ind; intros Hin Hall; [destruct Hin |].
  rewrite fold_left_app. simpl.
  assert (Hx : 0 <= x < 3) by (apply Hall, in_or_app; right; left; reflexivity).
  rewrite (dy_dx_index_small n_levels N) by assumption.
  destruct (Z.eq_dec x g) as [-> | Hne].
  - replace (cache_slot F (F * n_levels) i level g f)
      with (cache_slot F (F * n_levels) i level g 0 + f)
      by (unfold cache_slot; lia).
    apply store_vec_hit. exact Hf.
  - rewrite store_vec_miss.
    + apply IH.
      * apply in_app_or in Hin. destruct Hin as [Hin | [E | []]];
          [exact Hin | congruence].
      * intros y Hy. apply Hall, in_or_app. left. exact Hy.
    + intros f' Hf' E.
      replace (cache_slot F (F * n_levels) i level x 0 + f')
        with (cache_slot F (F * n_levels) i level x f') in E
        by (unfold cache_slot; lia).
      apply (cache_slot_inj n_levels) in E; try assumption; lia.
Qed.

(** *** The visitor on the derivative cache *)

Lemma v_cache_miss n_levels N s it grid i dd v j :
  0 < F -> 0 <= s -> 0 <= i < N -> N * (3 * (F * n_levels)) < 2 ^ 32 ->
  0 <= v_level v < s + n_levels ->
  (s <= v_level v -> forall g f, 0 <= g < 3 -> 0 <= f < F ->
     j <> cache_slot F (F * n_levels) i (v_level v - s) g f) ->
  v_cache (F * n_levels) s it grid i dd v j = dd j.
Proof.
  intros HF Hs Hi Hb Hv H. unfold visit_cache.
  destruct (Z.ltb_spec (v_level v) s) as [Hlt | Hge]; [reflexivity |].
  assert (Hfn : F * n_levels < 2 ^ 32) by nia.
  assert (U32.sub (v_level v) s = v_level v - s) as ->.
  { apply u32_wrap_small. rewrite modulus_eq. nia. }
  apply (store_gradients_miss n_levels N); try assumption; [lia |].
  apply H. lia.
Qed.

Lemma v_cache_hit n_levels N s it grid i dd v g f :
  0 < F -> 0 <= s -> 0 <= i < N -> N * (3 * (F * n_levels)) < 2 ^ 32 ->
  n_levels + s < 2 ^ 31 ->
  s <= v_level v < s + n_levels -> 0 <= g < 3 -> 0 <= f < F ->
  v_cache (F * n_levels) s it grid i dd v
    (cache_slot F (F * n_levels) i (v_level v - s) g f)
  = axis_gradient F grid (v_node v) (scalbnf_one (v_level v))
      (warped smoothstep it (v_pos v))
      (snd (warp smoothstep smoothstep_derivative it (v_pos v))) g f.
Proof.
  intros HF Hs Hi Hb Hd Hv Hg Hf. unfold visit_cache.
  destruct (Z.ltb_spec (v_level v) s) as [Hlt | Hge]; [lia |].
  assert (U32.sub (v_level v) s = v_level v - s) as ->.
  { apply u32_wrap_small. rewrite modulus_eq. lia. }
  rewrite (store_gradients_hit n_levels N) by (try assumption; lia).
  rewrite warp_fst. do 2 f_equal. unfold U32.add.
  replace (v_level v - s + s) with (v_level v) by lia.
  rewrite u32_wrap_small by (rewrite modulus_eq; lia).
  apply u32_to_int_small. lia.
Qed.

Lemma fold_v_cache_miss n_levels N s it grid i vs dd j :
  0 < F -> 0 <= s -> 0 <= i < N -> N * (3 * (F * n_levels)) < 2 ^ 32 ->
  (forall v, In v vs -> 0 <= v_level v < s + n_levels) ->
  (forall v, In v vs -> s <= v_level v ->
     forall g f, 0 <= g < 3 -> 0 <= f < F ->
       j <> cache_slot F (F * n_levels) i (v_level v - s) g f) ->
  fold_left (v_cache (F * n_levels) s it grid i) vs dd j = dd j.
Proof.
  intros HF Hs Hi Hb Hvs H.
  apply (fold_left_preserves (v_cache (F * n_levels) s it grid i)
           (fun b => b j = dd j)); [reflexivity |].
  intros b v Hv Hbj. rewrite <- Hbj.
  apply (v_cache_miss n_levels N); try assumption; [apply Hvs; exact Hv |].
  apply H. exact Hv.
Qed.

Lemma fold_v_cache_hit n_levels N s it grid i vs dd v g f :
  0 < F -> 0 <= s -> 0 <= i < N -> N * (3 * (F * n_levels)) < 2 ^ 32 ->
  n_levels + s < 2 ^ 31 ->
  (forall v, In v vs -> 0 <= v_level v < s + n_levels) ->
  NoDup (map v_level vs) ->
  In v vs -> s <= v_level v -> 0 <= g < 3 -> 0 <= f < F ->
  fold_left (v_cache (F * n_levels) s it grid i) vs dd
    (cache_slot F (F * n_levels) i (v_level v - s) g f)
  = axis_gradient F grid (v_node v) (scalbnf_one (v_level v))
      (warped smoothstep it (v_pos v))
      (snd (warp smoothstep smoothstep_derivative it (v_pos v))) g f.
Proof.
  intros HF Hs Hi Hb Hd Hvs Hnd Hin Hge Hg Hf. revert dd.
  induction vs as [| x vs IH]; intros dd; [destruct Hin |].
  simpl. inversion Hnd as [| ? ? Hx Hnd']; subst.
  destruct Hin as [-> | Hin].
  - rewrite (fold_v_cache_miss n_levels N); try assumption.
    + apply (v_cache_hit n_levels N); try assumption.
      specialize (Hvs v (or_introl eq_refl)). lia.
    + intros w Hw. apply Hvs. right. exact Hw.
    + intros w Hw Hwge g' f' Hg' Hf' E.
      pose proof (Hvs v (or_introl eq_refl)) as Bv.
      pose proof (Hvs w (or_intror Hw)) as Bw.
      apply (cache_slot_inj n_levels) in E; try lia.
      apply Hx. apply in_map_iff. exists w. split; [lia | exact Hw].
  - apply IH; try assumption.
    intros w Hw. apply Hvs. right. exact Hw.
Qed.

(** The code's weighted sum over the 4 pairs is the reference formula. *)
Lemma axis_gradient_closed grid node level pos pd g f :
  0 <= g < 3 ->
  Qeq (axis_gradient F grid node (scalbnf_one level) pos pd g f)
      (pair_difference_sum (fun idx => grid (param_idx F node idx + f))
         pos g level (vget pd g)).
Proof.
  intros Hg. unfold scalbnf_one, pair_difference_sum.
  generalize (Qpower 2 level). intros sc.
  unfold axis_gradient, pair_weight, load_vec, face_weight, left_corners, sumQ.
  destruct pos as [x y z].
  assert (g = 0 \/ g = 1 \/ g = 2) as [-> | [-> | ->]] by lia;
    simpl; unfold vget; simpl;
    try change (Z.pow_pos 2 1) with 2; try change (Z.pow_pos 2 2) with 4; ring.
Qed.

(** *** The kernel of one sample *)

Lemma kernel_takikawa_sample N n_levels s it grid data_in i st :
  sample_ok F n_levels s N i ->
  kernel_takikawa traverse smoothstep smoothstep_derivative F
    N n_levels s it grid data_in i st
  = let t := sample_traversal traverse n_levels s data_in i in
    let dd' :=
      option_map
        (fun dd => fold_left (v_cache (F * n_levels) s it grid i) (visits t) dd)
        (snd st) in
    match fst st with
    | Some out =>
        (Some (zero_fill F n_levels s (t_level t) i
                 (fold_left (v_out s it grid i) (visits t) out)), dd')
    | None => (None, dd')
    end.
Proof.
  intros (HF & Hn & Hs & Hd & Hi & Hb). unfold kernel_takikawa, U32.add, U32.mul.
  assert (Hnf : 0 < F * n_levels) by nia.
  assert (Hi1 : (i + 1) * (F * n_levels) <= N * (F * n_levels)) by nia.
  rewrite (u32_wrap_small (F * n_levels)) by (rewrite modulus_eq; nia).
  rewrite (u32_wrap_small (i * _)) by (rewrite modulus_eq; nia).
  rewrite (u32_wrap_small (N * _)) by (rewrite modulus_eq; nia).
  destruct (Z.geb_spec (i * (F * n_levels)) (N * (F * n_levels))) as [C | C];
    [nia |].
  rewrite (u32_wrap_small (n_levels + s)) by (rewrite modulus_eq; lia).
  rewrite u32_to_int_small by lia.
  rewrite fold_forward_visit. cbv zeta.
  destruct st as [[out |] dd]; reflexivity.
Qed.

(** C3.  For a sample of the batch whose traversal returned the level
    [t_level] (the first level it did not reach), the forward kernel
    leaves exactly zero in every output feature slot of every active
    level from [max 0 (t_level - starting_level)] on, and every level the
    traversal visited at or above the starting level holds the trilinear
    interpolation of the feature vectors of the 8 vertices of the node
    visited at that level: corner [idx] of the cell takes the feature
    vector the grid holds for the [idx]-th vertex of the node, which
    starts at entry [vertex * F]. *)
Theorem forward_zero_fill_unreached N n_levels s it grid data_in i out dd :
  sample_ok F n_levels s N i ->
  traversal_ok (n_levels + s) (sample_traversal traverse n_levels s data_in i) ->
  (forall v, In v (visits (sample_traversal traverse n_levels s data_in i)) ->
     node_ok F (v_node v)) ->
  exists out',
    fst (kernel_takikawa traverse smoothstep smoothstep_derivative F
           N n_levels s it grid data_in i (Some out, dd)) = Some out'
    /\ (forall level f,
          Z.max 0 (t_level (sample_traversal traverse n_levels s data_in i) - s)
            <= level < n_levels ->
          0 <= f < F ->
          out' (level * F + f) i = 0%Q)
    /\ (forall v f,
          In v (visits (sample_traversal traverse n_levels s data_in i)) ->
          s <= v_level v -> 0 <= f < F ->
          Qeq (out' ((v_level v - s) * F + f) i)
              (trilinear (corner_features F grid (v_node v) f)
                 (vx (warped smoothstep it (v_pos v)))
                 (vy (warped smoothstep it (v_pos v)))
                 (vz (warped smoothstep it (v_pos v))))).
Proof.
  intros Hok (Hnd & Hlv & Hret) Hnodes.
  rewrite kernel_takikawa_sample by exact Hok.
  destruct Hok as (HF & Hn & Hs & Hd & Hi & Hb).
  assert (Hfn : F * n_levels < 2 ^ 32) by nia.
  set (t := sample_traversal traverse n_levels s data_in i) in *.
  assert (Hvs : forall v, In v (visits t) -> 0 <= v_level v < s + n_levels).
  { intros v Hv. specialize (Hlv v Hv). lia. }
  cbv zeta. simpl. eexists. split; [reflexivity |]. split.
  - intros level f Hl Hf.
    apply zero_fill_hit; try assumption.
    rewrite u32_to_int_small by lia. exact Hl.
  - intros v f Hv Hge Hf.
    rewrite zero_fill_miss; try assumption.
    + rewrite (fold_v_out_hit n_levels); try assumption.
      rewrite warp_fst. rewrite interpolate_trilinear.
      rewrite (trilinear_ext _ (corner_features F grid (v_node v) f));
        [reflexivity |].
      intros idx Hidx. apply corner_features_gather;
        [exact HF | apply Hnodes; exact Hv | exact Hidx].
    + right. rewrite u32_to_int_small by lia.
      specialize (Hlv v Hv).
      assert (v_level v - s + 1 <= Z.max 0 (t_level t - s)) by lia. nia.
Qed.

(** C4.  When a derivative cache is present, the forward kernel leaves in
    it, for a sample of the batch, every level the traversal visited at or
    above the starting level, every axis [g] and every feature [f], the
    sum over the 4 vertex pairs opposite along [g] of the weight over the
    other two axes times (right minus left vertex feature), times
    [2^level] for the visited octree level and times the derivative factor
    of the axis: 1 for [Linear], the smoothstep derivative of the local
    position otherwise.  The feature of a corner is the one the grid holds
    for the corner's vertex of the visited node, from entry [vertex * F]
    on. *)
Theorem forward_derivative_cache N n_levels s it grid data_in i out dd :
  sample_ok F n_levels s N i ->
  traversal_ok (n_levels + s) (sample_traversal traverse n_levels s data_in i) ->
  (forall v, In v (visits (sample_traversal traverse n_levels s data_in i)) ->
     node_ok F (v_node v)) ->
  exists dd',
    snd (kernel_takikawa traverse smoothstep smoothstep_derivative F
           N n_levels s it grid data_in i (out, Some dd)) = Some dd'
    /\ (forall v g f,
          In v (visits (sample_traversal traverse n_levels s data_in i)) ->
          s <= v_level v -> 0 <= g < 3 -> 0 <= f < F ->
          Qeq (dd' (cache_slot F (F * n_levels) i (v_level v - s) g f))
              (pair_difference_sum
                 (corner_features F grid (v_node v) f)
                 (warped smoothstep it (v_pos v)) g (v_level v)
                 (derivative_factor smoothstep_derivative it
                    (vget (v_pos v) g)))).
Proof.
  intros Hok (Hnd & Hlv & Hret) Hnodes.
  rewrite kernel_takikawa_sample by exact Hok.
  destruct Hok as (HF & Hn & Hs & Hd & Hi & Hb).
  set (t := sample_traversal traverse n_levels s data_in i) in *.
  assert (Hvs : forall v, In v (visits t) -> 0 <= v_level v < s + n_levels).
  { intros v Hv. specialize (Hlv v Hv). lia. }
  cbv zeta. simpl.
  exists (fold_left (v_cache (F * n_levels) s it grid i) (visits t) dd).
  split; [destruct out; reflexivity |].
  intros v g f Hv Hge Hg Hf.
  rewrite (fold_v_cache_hit n_levels N); try assumption.
  rewrite <- (warp_snd it (v_pos v) g) by exact Hg.
  rewrite axis_gradient_closed by exact Hg.
  rewrite (pair_difference_sum_ext _ (corner_features F grid (v_node v) f));
    [reflexivity | | exact Hg].
  intros idx Hidx. apply corner_features_gather;
    [exact HF | apply Hnodes; exact Hv | exact Hidx].
Qed.

End Forward.

(** ** The backward kernel for the input *)

Lemma fold_left_ext_in {S A : Type} (f g : S -> A -> S) (l : list A) (s : S) :
  (forall s a, In a l -> f s a = g s a) -> fold_left f l s = fold_left g l s.
Proof.
  revert s. induction l as [| x l IH]; intros s H; [reflexivity |].
  simpl. rewrite H by (left; reflexivity). apply IH.
  intros s' a Ha. apply H. right. exact Ha.
Qed.

Lemma fold_left_sum (term : Z -> Q) (l : list Z) (init : Q) :
  Qeq (fold_left (fun r k => (r + term k)%Q) l init)
      (init + sumQ (map term l))%Q.
Proof.
  revert init. induction l as [| x l IH]; intros init; simpl.
  - ring.
  - rewrite IH. ring.
Qed.

Section BackwardInput.

Variables N nf : Z.
Variable dL_dy : matrix.
Variable dy_dx : buffer.

Hypothesis HN : 3 * N < 2 ^ 32.
Hypothesis Hnf : 0 <= nf.
Hypothesis Hfit : N * (3 * nf) < 2 ^ 32.

Local Abbreviation bi_thread :=
  (kernel_takikawa_backward_input (3 * N) nf dL_dy dy_dx).

Lemma backward_input_thread_hit dL_dx i j :
  0 <= i < N -> 0 <= j < 3 ->
  Qeq (bi_thread (3 * i + j) dL_dx j i)
      (dot nf (fun k => dL_dy k i)
         (fun k => dy_dx (i * (3 * nf) + j * nf + k))).
Proof.
  intros Hi Hj. unfold kernel_takikawa_backward_input.
  destruct (Z.geb_spec (3 * i + j) (3 * N)) as [C | C]; [lia |].
  assert ((3 * i + j) / 3 = i) as -> by (symmetry; apply Z.div_unique with j; lia).
  assert (U32.sub (3 * i + j) (U32.mul i 3) = j) as ->.
  { unfold U32.sub, U32.mul.
    rewrite (u32_wrap_small (i * 3)) by (rewrite modulus_eq; lia).
    rewrite u32_wrap_small by (rewrite modulus_eq; lia). lia. }
  rewrite mat_set_same.
  rewrite (fold_left_ext_in _
             (fun r k =>
                Qplus r (Qmult (dL_dy k i)
                           (dy_dx (i * (3 * nf) + j * nf + k))))).
  - rewrite fold_left_sum. unfold dot. ring.
  - intros r k Hk. apply in_range in Hk. do 3 f_equal.
    unfold U32.add, U32.mul.
    assert (Hi1 : (i + 1) * (3 * nf) <= N * (3 * nf)) by nia.
    rewrite (u32_wrap_small (nf * 3)) by (rewrite modulus_eq; nia).
    rewrite (u32_wrap_small (i * (nf * 3))) by (rewrite modulus_eq; nia).
    rewrite (u32_wrap_small (j * nf)) by (rewrite modulus_eq; nia).
    rewrite (u32_wrap_small (i * (nf * 3) + j * nf)) by (rewrite modulus_eq; nia).
    rewrite u32_wrap_small by (rewrite modulus_eq; nia).
    lia.
Qed.

Lemma backward_input_thread_miss dL_dx t r c :
  0 <= t -> r <> t mod 3 \/ c <> t / 3 -> bi_thread t dL_dx r c = dL_dx r c.
Proof.
  intros Ht H. unfold kernel_takikawa_backward_input.
  destruct (Z.geb_spec t (3 * N)) as [C | C]; [reflexivity |].
  apply mat_set_other.
  assert (U32.sub t (U32.mul (t / 3) 3) = t mod 3) as ->; [| exact H].
  pose proof (Z.div_mod t 3 ltac:(lia)) as E.
  pose proof (Z.mod_pos_bound t 3 ltac:(lia)) as B.
  unfold U32.sub, U32.mul.
  rewrite (u32_wrap_small (t / 3 * 3)) by (rewrite modulus_eq; lia).
  rewrite u32_wrap_small by (rewrite modulus_eq; lia). lia.
Qed.

(** Whatever the order the threads of a launch run in, the thread of
    sample [i] and axis [j] decides entry [(j, i)]. *)
Lemma backward_input_schedule (threads : list Z) dL_dx i j :
  (forall t, In t threads -> 0 <= t) ->
  In (3 * i + j) threads -> 0 <= i < N -> 0 <= j < 3 ->
  Qeq (fold_left (fun m t => bi_thread t m) threads dL_dx j i)
      (dot nf (fun k => dL_dy k i)
         (fun k => dy_dx (i * (3 * nf) + j * nf + k))).
Proof.
  intros Hpos Hin Hi Hj. revert Hpos Hin.
  induction threads as [| x l IH] using rev_ind; intros Hpos Hin;
    [destruct Hin |].
  rewrite fold_left_app. simpl.
  destruct (Z.eq_dec x (3 * i + j)) as [-> | Hne].
  - apply backward_input_thread_hit; assumption.
  - rewrite backward_input_thread_miss.
    + apply IH.
      * intros t Ht. apply Hpos, in_or_app. left. exact Ht.
      * apply in_app_or in Hin. destruct Hin as [Hin | [E | []]];
          [exact Hin | congruence].
    + apply Hpos, in_or_app. right. left. reflexivity.
    + pose proof (Z.div_mod x 3 ltac:(lia)) as E.
      pose proof (Z.mod_pos_bound x 3 ltac:(lia)) as B. lia.
Qed.

Lemma backward_input_frame (threads : list Z) dL_dx r c :
  (forall t, In t threads -> 0 <= t) ->
  ~ (0 <= r < 3 /\ 0 <= c < N) ->
  fold_left (fun m t => bi_thread t m) threads dL_dx r c = dL_dx r c.
Proof.
  intros Hpos H.
  apply (fold_left_preserves (fun m t => bi_thread t m)
           (fun m => m r c = dL_dx r c)); [reflexivity |].
  intros m t Ht Hm. rewrite <- Hm.
  unfold kernel_takikawa_backward_input.
  destruct (Z.geb_spec t (3 * N)) as [C | C]; [reflexivity |].
  specialize (Hpos t Ht).
  pose proof (Z.div_mod t 3 ltac:(lia)) as E.
  pose proof (Z.mod_pos_bound t 3 ltac:(lia)) as B.
  apply mat_set_other.
  assert (U32.sub t (U32.mul (t / 3) 3) = t mod 3) as ->.
  { unfold U32.sub, U32.mul.
    rewrite (u32_wrap_small (t / 3 * 3)) by (rewrite modulus_eq; lia).
    rewrite u32_wrap_small by (rewrite modulus_eq; lia). lia. }
  assert (0 <= t / 3 < N) by lia. lia.
Qed.

End BackwardInput.

Lemma launch_covers (n t : Z) :
  0 <= t < n -> In t (range (n_blocks_linear n * N_THREADS_LINEAR)).
Proof.
  intros H. apply in_range. unfold n_blocks_linear, N_THREADS_LINEAR.
  pose proof (Z.div_mod (n + 128 - 1) 128 ltac:(lia)) as E.
  pose proof (Z.mod_pos_bound (n + 128 - 1) 128 ltac:(lia)) as B. lia.
Qed.

Lemma linear_kernel_unfold {S : Type} (kernel : Z -> S -> S) (n : Z) (st : S) :
  0 < n ->
  linear_kernel kernel n st
  = fold_left (fun s i => kernel i s)
      (range (n_blocks_linear n * N_THREADS_LINEAR)) st.
Proof.
  intros H. unfold linear_kernel.
  destruct (Z.leb_spec n 0); [lia | reflexivity].
Qed.

(** C5.  After the launch of the backward kernel for the input over a batch
    of [N] samples, [dL_dx(j, i)] is, for every sample [i] and axis [j], the
    dot product over the [nf = L * F] level-feature terms [k] of
    [dL_dy(k, i)] with [dy_dx[i * 3 * nf + j * nf + k]]; entries outside
    the 3 rows and [N] columns keep their value, and the value of an entry
    does not depend on the order the threads run in. *)
Theorem backward_input_dot_product N nf dL_dy dy_dx dL_dx :
  0 <= N -> 3 * N < 2 ^ 32 -> 0 <= nf -> N * (3 * nf) < 2 ^ 32 ->
  (forall i j, 0 <= i < N -> 0 <= j < 3 ->
     Qeq (linear_kernel (kernel_takikawa_backward_input (U32.mul N 3) nf dL_dy dy_dx)
            (U32.mul N 3) dL_dx j i)
         (dot nf (fun k => dL_dy k i)
            (fun k => dy_dx (i * (3 * nf) + j * nf + k))))
  /\ (forall r c, ~ (0 <= r < 3 /\ 0 <= c < N) ->
        linear_kernel (kernel_takikawa_backward_input (U32.mul N 3) nf dL_dy dy_dx)
          (U32.mul N 3) dL_dx r c = dL_dx r c)
  /\ (forall threads i j,
        (forall t, In t threads -> 0 <= t) -> In (3 * i + j) threads ->
        0 <= i < N -> 0 <= j < 3 ->
        Qeq (fold_left
               (fun m t => kernel_takikawa_backward_input (U32.mul N 3) nf
                             dL_dy dy_dx t m) threads dL_dx j i)
            (dot nf (fun k => dL_dy k i)
               (fun k => dy_dx (i * (3 * nf) + j * nf + k)))).
Proof.
  intros HN0 HN Hnf Hfit.
  assert (E3 : U32.mul N 3 = 3 * N).
  { unfold U32.mul. rewrite u32_wrap_small by (rewrite modulus_eq; lia). lia. }
  rewrite E3.
  assert (Hpos : forall t, In t (range (n_blocks_linear (3 * N) * N_THREADS_LINEAR))
                           -> 0 <= t).
  { intros t Ht. apply in_range in Ht. lia. }
  split; [| split].
  - intros i j Hi Hj. rewrite linear_kernel_unfold by lia.
    apply backward_input_schedule; try assumption.
    apply launch_covers. lia.
  - intros r c Hrc. unfold linear_kernel.
    destruct (Z.leb_spec (3 * N) 0); [reflexivity |].
    apply backward_input_frame; assumption.
  - intros threads i j Hth Hin Hi Hj.
    apply backward_input_schedule; assumption.
Qed.

(** ** The backward kernel for the parameters *)

Lemma additive_id : additive (fun b => b).
Proof. exists zero_buffer. intros b j. unfold zero_buffer. ring. Qed.

Lemma additive_compose (f g : buffer -> buffer) :
  additive f -> additive g -> additive (fun b => g (f b)).
Proof.
  intros [df Hf] [dg Hg]. exists (fun j => (df j + dg j)%Q).
  intros b j. rewrite Hg, Hf. ring.
Qed.

Lemma additive_atomic_add (i : Z) (v : Q) : additive (fun b => atomic_add b i v).
Proof.
  exists (fun j => if j =? i then v else 0%Q). intros b j.
  unfold atomic_add, buf_set.
  destruct (Z.eqb_spec j i) as [-> | _]; [reflexivity | ring].
Qed.

Lemma additive_fold {A : Type} (f : buffer -> A -> buffer) (l : list A) :
  (forall a, In a l -> additive (fun b => f b a)) ->
  additive (fun b => fold_left f l b).
Proof.
  induction l as [| x l IH]; intros H; simpl; [apply additive_id |].
  apply (additive_compose (fun b => f b x) (fun b => fold_left f l b)).
  - apply H. left. reflexivity.
  - apply IH. intros a Ha. apply H. right. exact Ha.
Qed.

Lemma additive_zero (f : buffer -> buffer) :
  additive f -> forall b j, Qeq (f b j) (b j + f zero_buffer j)%Q.
Proof.
  intros [d H] b j. rewrite (H b j), (H zero_buffer j).
  unfold zero_buffer. ring.
Qed.

(** The order in which additive updates are applied does not matter. *)
Lemma additive_fold_sum {A : Type} (f : buffer -> A -> buffer) (l : list A) :
  (forall a, In a l -> additive (fun b => f b a)) ->
  forall b j,
    Qeq (fold_left f l b j)
        (b j + sumQ (map (fun a => f zero_buffer a j) l))%Q.
Proof.
  induction l as [| x l IH]; intros H b j; simpl; [ring |].
  rewrite IH by (intros a Ha; apply H; right; exact Ha).
  rewrite (additive_zero (fun b => f b x)) by (apply H; left; reflexivity).
  ring.
Qed.

Section BackwardParams.

Variable traverse : Z -> vec3 -> traversal.
Variable smoothstep : Q -> Q.
Variable F : Z.
Variable GRAD_T : scalar_type.
Variable CUDA_ARCH : Z.

Lemma additive_scatter p grad w :
  additive (fun pg => scatter F GRAD_T CUDA_ARCH pg p grad w).
Proof.
  unfold scatter, scatter_half2, scatter_float.
  destruct ((CUDA_ARCH >=? 600) && ((F >? 1) && is_half GRAD_T)).
  - apply additive_fold. intros feature _. unfold atomic_add_half2.
    apply (additive_compose
             (fun b => atomic_add b (p + feature) (grad feature * w)%Q)
             (fun b => atomic_add b (p + feature + 1)
                         (Qmult (grad (feature + 1)) w)));
      apply additive_atomic_add.
  - destruct (is_half GRAD_T); [apply additive_id |].
    apply additive_fold. intros f _. apply additive_atomic_add.
Qed.

Lemma additive_backward_visit s it dL_dy i v :
  additive (fun pg => backward_visit smoothstep F GRAD_T CUDA_ARCH
                        s it dL_dy i pg v).
Proof.
  unfold backward_visit. destruct (v_level v <? s); [apply additive_id |].
  apply additive_fold. intros idx _. apply additive_scatter.
Qed.

Lemma additive_kernel_backward N n_levels s it data_in dL_dy i :
  additive (kernel_takikawa_backward traverse smoothstep F GRAD_T CUDA_ARCH
              N n_levels s it data_in dL_dy i).
Proof.
  unfold kernel_takikawa_backward.
  destruct (_ >=? _); [apply additive_id |].
  apply additive_fold. intros v _. apply additive_backward_visit.
Qed.

Lemma additive_launch_backward N n_levels s it data_in dL_dy n :
  additive (linear_kernel
              (kernel_takikawa_backward traverse smoothstep F GRAD_T CUDA_ARCH
                 N n_levels s it data_in dL_dy) n).
Proof.
  unfold linear_kernel. destruct (n <=? 0); [apply additive_id |].
  apply (additive_fold
           (fun b i => kernel_takikawa_backward traverse smoothstep F GRAD_T
                         CUDA_ARCH N n_levels s it data_in dL_dy i b)).
  intros i _. apply additive_kernel_backward.
Qed.

End BackwardParams.

(** The scalar [float] path puts the contributions of both features of a
    two-feature vertex into the vertex's first slot. *)
Lemma scatter_float_two_features arch pg p grad w :
  Qeq (scatter 2 Float32 arch pg p grad w p)
      (pg p + grad 0%Z * w + grad 1%Z * w)%Q
  /\ scatter 2 Float32 arch pg p grad w (p + 1) = pg (p + 1).
Proof.
  unfold scatter, scatter_float. rewrite !andb_false_r. simpl.
  unfold atomic_add. split.
  - rewrite !buf_set_same. reflexivity.
  - rewrite !buf_set_other by lia. reflexivity.
Qed.

Lemma buf_set_eq (b : buffer) (i : Z) (v : Q) (j : Z) :
  j = i -> buf_set b i v j = v.
Proof. intros ->. apply buf_set_same. Qed.

Ltac buf_simpl :=
  unfold atomic_add_half2, atomic_add;
  repeat ((rewrite buf_set_eq by lia) || (rewrite buf_set_other by lia)).

(** The [__half2] path adds every feature's contribution to its own slot. *)
Lemma scatter_half2_each_slot F arch pg p grad w f :
  F = 2 \/ F = 4 \/ F = 8 -> 600 <= arch -> 0 <= f < F ->
  Qeq (scatter F Half arch pg p grad w (p + f)) (Qplus (pg (p + f)) (Qmult (grad f) w)).
Proof.
  intros HF Harch Hf. unfold scatter, scatter_half2.
  destruct (Z.geb_spec arch 600) as [_ | C]; [| lia].
  destruct HF as [-> | [-> | ->]]; simpl;
    assert (f = 0 \/ f = 1 \/ f = 2 \/ f = 3 \/ f = 4 \/ f = 5 \/ f = 6 \/ f = 7)
      as [-> | [-> | [-> | [-> | [-> | [-> | [-> | ->]]]]]]] by lia;
    try lia; buf_simpl; replace (p + 0) with p by lia;
    rewrite <- ?Z.add_assoc; simpl; reflexivity.
Qed.

(** The scalar path with one feature per vertex adds it to the vertex's
    slot. *)
Lemma scatter_float_one_feature arch pg p grad w :
  Qeq (scatter 1 Float32 arch pg p grad w p) (pg p + grad 0%Z * w)%Q.
Proof.
  unfold scatter, scatter_float. rewrite !andb_false_r. simpl. buf_simpl.
  reflexivity.
Qed.

(** C9.  For a sample of the batch whose traversal returned the level
    [t_level], the forward kernel zero-fills the output feature slots of
    the levels from [max 0 (t_level - starting_level)] on, while the
    derivative-cache entries of those levels keep the contents the buffer
    held before the kernel ran; the backward kernel for the input then sums
    over all [F * n_levels] entries of the sample's slice of that cache,
    the unwritten ones included. *)
Theorem unreached_cache_entries_unwritten traverse smoothstep
    smoothstep_derivative F N n_levels s it grid data_in i out dd :
  sample_ok F n_levels s N i ->
  traversal_ok (n_levels + s) (sample_traversal traverse n_levels s data_in i) ->
  exists out' dd',
    kernel_takikawa traverse smoothstep smoothstep_derivative F
      N n_levels s it grid data_in i (Some out, Some dd)
    = (Some out', Some dd')
    /\ (forall level g f,
          Z.max 0 (t_level (sample_traversal traverse n_levels s data_in i) - s)
            <= level < n_levels ->
          0 <= g < 3 -> 0 <= f < F ->
          out' (level * F + f) i = 0%Q
          /\ dd' (cache_slot F (F * n_levels) i level g f)
             = dd (cache_slot F (F * n_levels) i level g f))
    /\ (forall dL_dy dL_dx j, 0 <= j < 3 ->
          Qeq (kernel_takikawa_backward_input (3 * N) (F * n_levels) dL_dy dd'
                 (3 * i + j) dL_dx j i)
              (dot (F * n_levels) (fun k => dL_dy k i)
                 (fun k => dd' (i * (3 * (F * n_levels)) + j * (F * n_levels) + k)))).
Proof.
  intros Hok (Hnd & Hlv & Hret).
  rewrite kernel_takikawa_sample by exact Hok.
  destruct Hok as (HF & Hn & Hs & Hd & Hi & Hb).
  assert (Hfn : F * n_levels < 2 ^ 32) by nia.
  set (t := sample_traversal traverse n_levels s data_in i) in *.
  assert (Hvs : forall v, In v (visits t) -> 0 <= v_level v < s + n_levels).
  { intros v Hv. specialize (Hlv v Hv). lia. }
  cbv zeta. simpl. eexists. eexists. split; [reflexivity |]. split.
  - intros level g f Hl Hg Hf. split.
    + apply zero_fill_hit; try assumption.
      rewrite u32_to_int_small by lia. exact Hl.
    + apply (fold_v_cache_miss smoothstep smoothstep_derivative F n_levels N);
        try assumption.
      intros v Hv Hge g' f' Hg' Hf' E.
      specialize (Hlv v Hv).
      apply (cache_slot_inj F n_levels) in E; try lia.
  - intros dL_dy dL_dx j Hj.
    apply backward_input_thread_hit; try assumption; nia.
Qed.

(** ** The forward launch *)

Section ForwardLaunch.

Variable traverse : Z -> vec3 -> traversal.
Variable smoothstep : Q -> Q.
Variable smoothstep_derivative : Q -> Q.
Variable F : Z.
Variables N n_levels s : Z.
Variable it : InterpolationType.
Variable grid : buffer.
Variable data_in : matrix.

Local Abbreviation kernel :=
  (kernel_takikawa traverse smoothstep smoothstep_derivative F
     N n_levels s it grid data_in).
Local Abbreviation t_out :=
  (thread_output traverse smoothstep smoothstep_derivative F
     N n_levels s it grid data_in).
Local Abbreviation t_cache :=
  (thread_cache traverse smoothstep smoothstep_derivative F
     N n_levels s it grid data_in).

Lemma kernel_takikawa_effects i st :
  kernel i st = (option_map (t_out i) (fst st), option_map (t_cache i) (snd st)).
Proof.
  unfold kernel_takikawa, thread_output, thread_cache.
  destruct (_ >=? _).
  - destruct st as [[out |] [dd |]]; reflexivity.
  - rewrite fold_forward_visit.
    destruct st as [[out |] [dd |]]; reflexivity.
Qed.

Lemma fold_kernel_effects (threads : list Z) st :
  fold_left (fun st i => kernel i st) threads st
  = (option_map (fun out => fold_left (fun o i => t_out i o) threads out) (fst st),
     option_map (fun dd => fold_left (fun d i => t_cache i d) threads dd) (snd st)).
Proof.
  revert st. induction threads as [| i l IH]; intros st.
  - destruct st as [[out |] [dd |]]; reflexivity.
  - simpl. rewrite IH, kernel_takikawa_effects.
    destruct st as [[out |] [dd |]]; reflexivity.
Qed.

Lemma launch_effects n st :
  linear_kernel kernel n st
  = (option_map (linear_kernel t_out n) (fst st),
     option_map (linear_kernel t_cache n) (snd st)).
Proof.
  unfold linear_kernel. destruct (n <=? 0).
  - destruct st as [[out |] [dd |]]; reflexivity.
  - apply fold_kernel_effects.
Qed.

Hypothesis Hok : launch_ok F n_levels s N.
Hypothesis Htrav :
  forall i, 0 <= i < N ->
    traversal_ok (n_levels + s) (sample_traversal traverse n_levels s data_in i).

Lemma launch_padding : N <= n_blocks_linear N * N_THREADS_LINEAR.
Proof.
  unfold n_blocks_linear, N_THREADS_LINEAR.
  pose proof (Z.div_mod (N + 128 - 1) 128 ltac:(lia)) as E.
  pose proof (Z.mod_pos_bound (N + 128 - 1) 128 ltac:(lia)) as B. lia.
Qed.

Lemma launch_sample_ok i : 0 <= i < N -> sample_ok F n_levels s N i.
Proof.
  intros Hi. destruct Hok as (HF & Hn & Hs & Hd & HN & Hb).
  pose proof launch_padding as Hp.
  repeat split; try lia. nia.
Qed.

Lemma t_cache_sample i dd :
  0 <= i < N ->
  t_cache i dd
  = fold_left
      (visit_cache smoothstep smoothstep_derivative F (F * n_levels) s it grid i)
      (visits (sample_traversal traverse n_levels s data_in i)) dd.
Proof.
  intros Hi.
  pose proof (kernel_takikawa_effects i (None, Some dd)) as E.
  rewrite kernel_takikawa_sample in E by (apply launch_sample_ok; exact Hi).
  simpl in E. injection E as E. symmetry. exact E.
Qed.

Lemma t_cache_padding i dd :
  N <= i < n_blocks_linear N * N_THREADS_LINEAR -> t_cache i dd = dd.
Proof.
  intros Hi. destruct Hok as (HF & Hn & Hs & Hd & HN & Hb).
  unfold thread_cache, U32.mul.
  assert (Hnf : 0 < F * n_levels) by nia.
  rewrite (u32_wrap_small (F * n_levels)) by (rewrite modulus_eq; nia).
  rewrite (u32_wrap_small (i * _)) by (rewrite modulus_eq; nia).
  rewrite (u32_wrap_small (N * _)) by (rewrite modulus_eq; nia).
  destruct (Z.geb_spec (i * (F * n_levels)) (N * (F * n_levels))) as [C | C];
    [reflexivity | nia].
Qed.

Lemma cache_slot_range i level g f :
  0 <= level < n_levels -> 0 <= g < 3 -> 0 <= f < F ->
  i * (3 * (F * n_levels)) <= cache_slot F (F * n_levels) i level g f
  < (i + 1) * (3 * (F * n_levels)).
Proof.
  intros Hl Hg Hf. destruct Hok as (HF & Hn & _). unfold cache_slot.
  set (nf := F * n_levels).
  assert (Ha : 0 <= level * F + f < nf) by (unfold nf; nia).
  nia.
Qed.

(** A thread leaves the cache slice of every other sample alone. *)
Lemma t_cache_frame i j dd k :
  0 <= j < n_blocks_linear N * N_THREADS_LINEAR -> i <> j ->
  i * (3 * (F * n_levels)) <= k < (i + 1) * (3 * (F * n_levels)) ->
  t_cache j dd k = dd k.
Proof.
  intros Hj Hne Hk.
  destruct (Z_lt_ge_dec j N) as [Hlt | Hge].
  - rewrite t_cache_sample by lia.
    pose proof (launch_sample_ok j ltac:(lia)) as (HF & Hn & Hs & Hd & Hi & Hb).
    destruct (Htrav j ltac:(lia)) as (Hnd & Hlv & Hret).
    apply (fold_v_cache_miss smoothstep smoothstep_derivative F n_levels N);
      try assumption.
    + intros v Hv. specialize (Hlv v Hv). lia.
    + intros v Hv Hvge g f Hg Hf E. specialize (Hlv v Hv).
      pose proof (cache_slot_range j (v_level v - s) g f ltac:(lia) Hg Hf) as R.
      rewrite <- E in R.
      assert (i < j \/ j < i) as [C | C] by lia; nia.
  - rewrite t_cache_padding by lia. reflexivity.
Qed.

Lemma launch_cache_sample i dd k :
  0 <= i < N ->
  i * (3 * (F * n_levels)) <= k < (i + 1) * (3 * (F * n_levels)) ->
  linear_kernel t_cache N dd k
  = t_cache i (fold_left (fun d j => t_cache j d) (range i) dd) k
    /\ fold_left (fun d j => t_cache j d) (range i) dd k = dd k.
Proof.
  intros Hi Hk. pose proof launch_padding as Hp.
  rewrite linear_kernel_unfold by lia.
  rewrite (range_split _ i) by lia.
  rewrite fold_left_app. simpl. split.
  - apply (fold_left_preserves (fun d j => t_cache j d)
             (fun b => b k = t_cache i (fold_left (fun d j => t_cache j d)
                                           (range i) dd) k));
      [reflexivity |].
    intros b j Hj Hb. rewrite <- Hb. apply in_range_from in Hj.
    apply (t_cache_frame i); [lia | lia | exact Hk].
  - apply (fold_left_preserves (fun d j => t_cache j d) (fun b => b k = dd k));
      [reflexivity |].
    intros b j Hj Hb. rewrite <- Hb. apply in_range in Hj.
    apply (t_cache_frame i); [lia | lia | exact Hk].
Qed.

(** After the launch the cache holds, for every sample, the derivatives
    of every level its traversal visited. *)
Lemma launch_cache_visited i dd v g f :
  0 <= i < N ->
  In v (visits (sample_traversal traverse n_levels s data_in i)) ->
  s <= v_level v -> 0 <= g < 3 -> 0 <= f < F ->
  Qeq (linear_kernel t_cache N dd
         (cache_slot F (F * n_levels) i (v_level v - s) g f))
      (pair_difference_sum
         (fun idx => grid (param_idx F (v_node v) idx + f))
         (warped smoothstep it (v_pos v)) g (v_level v)
         (derivative_factor smoothstep_derivative it (vget (v_pos v) g))).
Proof.
  intros Hi Hv Hge Hg Hf.
  pose proof (launch_sample_ok i Hi) as (HF & Hn & Hs & Hd & _ & Hb).
  destruct (Htrav i Hi) as (Hnd & Hlv & Hret).
  pose proof (Hlv v Hv) as Bv.
  destruct (launch_cache_sample i dd
              (cache_slot F (F * n_levels) i (v_level v - s) g f) Hi) as [E _].
  { apply cache_slot_range; [lia | exact Hg | exact Hf]. }
  rewrite E, t_cache_sample by exact Hi.
  rewrite (fold_v_cache_hit smoothstep smoothstep_derivative F n_levels N);
    try assumption.
  - rewrite <- (warp_snd smoothstep smoothstep_derivative it (v_pos v) g)
      by exact Hg.
    apply axis_gradient_closed. exact Hg.
  - intros w Hw. specialize (Hlv w Hw). lia.
Qed.

(** After the launch the cache entries of the levels a sample did not
    reach hold what the buffer held before. *)
Lemma launch_cache_unreached i dd level g f :
  0 <= i < N ->
  Z.max 0 (t_level (sample_traversal traverse n_levels s data_in i) - s)
    <= level < n_levels ->
  0 <= g < 3 -> 0 <= f < F ->
  linear_kernel t_cache N dd (cache_slot F (F * n_levels) i level g f)
  = dd (cache_slot F (F * n_levels) i level g f).
Proof.
  intros Hi Hl Hg Hf.
  pose proof (launch_sample_ok i Hi) as (HF & Hn & Hs & Hd & _ & Hb).
  destruct (Htrav i Hi) as (Hnd & Hlv & Hret).
  destruct (launch_cache_sample i dd
              (cache_slot F (F * n_levels) i level g f) Hi) as [E E'].
  { apply cache_slot_range; [lia | exact Hg | exact Hf]. }
  rewrite E, t_cache_sample by exact Hi. rewrite <- E'.
  apply (fold_v_cache_miss smoothstep smoothstep_derivative F n_levels N);
    try assumption.
  - intros w Hw. specialize (Hlv w Hw). lia.
  - intros w Hw Hwge g' f' Hg' Hf' E2. specialize (Hlv w Hw).
    apply (cache_slot_inj F n_levels) in E2; try lia.
Qed.

End ForwardLaunch.

(** ** The spec-modelled traversal meets the kernels' assumption *)

Lemma traverse_from_ok fuel nodes dual_nodes node_idx level pos :
  let t := traverse_from fuel nodes dual_nodes node_idx level pos in
  (forall v, In v (visits t) -> level <= v_level v < t_level t)
  /\ NoDup (map v_level (visits t))
  /\ level <= t_level t <= level + Z.of_nat fuel.
Proof.
  revert node_idx level pos.
  induction fuel as [| fuel IH]; intros node_idx level pos; simpl.
  - split; [intros v [] |]. split; [constructor | lia].
  - destruct (_ <? 0).
    + simpl. split; [| split].
      * intros v [<- | []]. simpl. lia.
      * constructor; [intros [] | constructor].
      * lia.
    + specialize (IH (nth (Z.to_nat (octant pos))
                        (children (nth (Z.to_nat node_idx) nodes (mk_node [])))
                        (-1)) (level + 1) (child_pos pos)).
      cbv zeta in IH. destruct IH as (Hlv & Hnd & Hret).
      simpl. split; [| split].
      * intros v [<- | Hv]; [simpl; lia | apply Hlv in Hv; lia].
      * constructor; [| exact Hnd].
        intros Hin. apply in_map_iff in Hin. destruct Hin as (w & E & Hw).
        apply Hlv in Hw. lia.
      * lia.
Qed.

Lemma traverse_spec_ok nodes dual_nodes max_depth pos :
  0 <= max_depth ->
  traversal_ok max_depth (traverse_spec nodes dual_nodes max_depth pos).
Proof.
  intros H. unfold traverse_spec, traversal_ok.
  pose proof (traverse_from_ok (Z.to_nat max_depth) nodes dual_nodes 0 0 pos)
    as (Hlv & Hnd & Hret).
  cbv zeta in *. split; [exact Hnd |]. split; [exact Hlv | lia].
Qed.

(** ** The encoder class *)

(** C8, as the code has it.  The hyperparameter report has exactly the
    three keys [otype], [starting_level] and [n_levels]; they hold the
    string [Takikawa], the starting level and the depth of the octree. *)
Theorem hyperparams_report (e : TakikawaEncoding) :
  json_keys (hyperparams e) = ["otype"; "starting_level"; "n_levels"]%string
  /\ json_get (hyperparams e) "otype" = Some (JString "Takikawa")
  /\ json_get (hyperparams e) "starting_level"
     = Some (JNumber (m_starting_level e))
  /\ json_get (hyperparams e) "n_levels" = Some (JNumber (depth (m_octree e))).
Proof. repeat split. Qed.

(** C8 fails as stated: for the encoder of depth 3 starting at level 1 the
    report's [n_levels] is 3 while the derived level count is 2, and the
    report is the same for both interpolation modes. *)
Lemma hyperparams_report_counterexample :
  n_levels (example_encoder Linear) = 2
  /\ json_get (hyperparams (example_encoder Linear)) "n_levels"
     = Some (JNumber 3)
  /\ hyperparams (example_encoder Linear) = hyperparams (example_encoder Smoothstep)
  /\ m_interpolation_type (example_encoder Linear)
     <> m_interpolation_type (example_encoder Smoothstep).
Proof. repeat split. discriminate. Qed.


Lemma constructor_accepts F sl oct it e :
  TakikawaEncoding_new F sl oct it = inr e ->
  sl < depth oct /\ (F = 1 \/ F = 2 \/ F = 4 \/ F = 8).
Proof.
  unfold TakikawaEncoding_new.
  destruct (Z.geb_spec sl (depth oct)) as [Hge | Hlt]; [discriminate |].
  destruct (Z.eqb_spec F 1), (Z.eqb_spec F 2), (Z.eqb_spec F 4),
    (Z.eqb_spec F 8); simpl; try discriminate; intros _; lia.
Qed.




Lemma constructor_result F sl oct it e :
  TakikawaEncoding_new F sl oct it = inr e ->
  e = mk_encoding sl (U32.mul F (n_levels_of oct sl)) 0 oct it.
Proof.
  unfold TakikawaEncoding_new.
  destruct (sl >=? depth oct); [discriminate |].
  destruct (_ && _); [discriminate |]. intros E. injection E as <-. reflexivity.
Qed.

(** C10, as the code has it.  [forward_impl] returns at once, writing
    nothing and with an empty context, when the output is null and no input
    gradients are asked for, or when the output width is zero.  On a
    constructed encoder, a call with a null output that asks for input
    gradients leaves the output null and runs the kernel over the whole
    batch: the derivative cache it returns is the one the same call with
    any non-null output returns; it holds, for every sample, the
    derivatives of every level the sample's traversal visited, and at the
    levels a sample did not reach it holds what the newly allocated buffer
    held. *)
Theorem forward_null_output smoothstep smoothstep_derivative F sl oct it e
    params inference_params input N use_inference_params fresh :
  TakikawaEncoding_new F sl oct it = inr e ->
  launch_ok F (n_levels e) sl N ->
  (forall i, 0 <= i < N ->
     traversal_ok (n_levels e + sl)
       (sample_traversal (octree_traverse oct) (n_levels e) sl input i)) ->
  (forall (e' : TakikawaEncoding) output prepare,
     (output = None /\ prepare = false) \/ padded_output_width e' = 0 ->
     forward_impl smoothstep smoothstep_derivative F e' params inference_params
       input N output use_inference_params prepare fresh
     = (output, None))
  /\ exists cache,
       forward_impl smoothstep smoothstep_derivative F e params inference_params
         input N None use_inference_params true fresh
       = (None, Some cache)
       /\ (forall out,
             snd (forward_impl smoothstep smoothstep_derivative F e params
                    inference_params input N (Some out) use_inference_params
                    true fresh)
             = Some cache)
       /\ (forall i v g f,
             0 <= i < N ->
             In v (visits (sample_traversal (octree_traverse oct) (n_levels e)
                             sl input i)) ->
             sl <= v_level v -> 0 <= g < 3 -> 0 <= f < F ->
             Qeq (cache (cache_slot F (F * n_levels e) i (v_level v - sl) g f))
                 (pair_difference_sum
                    (fun idx =>
                       (if use_inference_params then inference_params else params)
                         (param_idx F (v_node v) idx + f))
                    (warped smoothstep it (v_pos v)) g (v_level v)
                    (derivative_factor smoothstep_derivative it
                       (vget (v_pos v) g))))
       /\ (forall i level g f,
             0 <= i < N ->
             Z.max 0 (t_level (sample_traversal (octree_traverse oct)
                                 (n_levels e) sl input i) - sl)
               <= level < n_levels e ->
             0 <= g < 3 -> 0 <= f < F ->
             cache (cache_slot F (F * n_levels e) i level g f)
             = fresh (cache_slot F (F * n_levels e) i level g f)).
Proof.
  intros E Hok Htrav. apply constructor_result in E. subst e.
  unfold n_levels in *. simpl in *.
  set (n := n_levels_of oct sl) in *.
  split.
  - intros e' output prepare H. unfold forward_impl.
    destruct H as [[-> ->] | ->]; [reflexivity |].
    rewrite Z.eqb_refl, orb_true_r. reflexivity.
  - assert (Hw : (padded_output_width (mk_encoding sl (U32.mul F n) 0 oct it)
                  =? 0) = false).
    { destruct Hok as (HF & Hn & Hs & Hd & HN & Hb).
      pose proof (launch_padding N) as Hp.
      unfold padded_output_width, U32.add, U32.mul. simpl.
      rewrite (u32_wrap_small (F * n)) by (rewrite modulus_eq; nia).
      rewrite Z.add_0_r.
      rewrite u32_wrap_small by (rewrite modulus_eq; nia).
      apply Z.eqb_neq. nia. }
    exists (linear_kernel
              (thread_cache (octree_traverse oct) smoothstep
                 smoothstep_derivative F N n sl it
                 (if use_inference_params then inference_params else params)
                 input) N fresh).
    unfold forward_impl. rewrite Hw. simpl.
    unfold n_levels. simpl. fold n.
    rewrite !launch_effects. simpl.
    split; [reflexivity |]. split; [intros out; rewrite launch_effects; reflexivity |].
    split.
    + intros i v g f Hi Hv Hge Hg Hf.
      apply launch_cache_visited; assumption.
    + intros i level g f Hi Hl Hg Hf.
      apply launch_cache_unreached; assumption.
Qed.

(** C10 fails as stated: on the two-level one-node octree the sample at the
    centroid reaches level 0 only, and after a call with a null output that
    asks for input gradients the cache entry of its level 1 (axis 0,
    feature 0: index 1) holds what the newly allocated buffer held. *)
Lemma forward_null_output_counterexample :
  TakikawaEncoding_new 1 0 (root_only_octree 2) Linear
  = inr (root_only_encoder 1 2)
  /\ forall fresh,
       option_map (fun cache : buffer => cache (cache_slot 1 2 0 1 0 0))
         (snd (forward_impl smoothstep_cubic smoothstep_cubic_derivative 1
                 (root_only_encoder 1 2) distinct_grid distinct_grid
                 centroid_input 1 None false true fresh))
       = Some (fresh 1).
Proof. split; [reflexivity |]. intros fresh. vm_compute. reflexivity. Qed.

Lemma root_only_launch_ok (F depth : Z) :
  F = 1 \/ F = 2 -> depth = 1 \/ depth = 2 -> launch_ok F depth 0 1.
Proof.
  intros [-> | ->] [-> | ->]; unfold launch_ok; repeat split; try lia;
    vm_compute; reflexivity.
Qed.

Lemma forward_null_output_witness :
  exists cache,
    forward_impl smoothstep_cubic smoothstep_cubic_derivative 1
      (root_only_encoder 1 2) distinct_grid distinct_grid centroid_input 1
      None false true zero_buffer
    = (None, Some cache)
    /\ cache 1 = 0%Q.
Proof.
  destruct (forward_null_output smoothstep_cubic smoothstep_cubic_derivative
              1 0 (root_only_octree 2) Linear (root_only_encoder 1 2)
              distinct_grid distinct_grid centroid_input 1 false zero_buffer
              eq_refl
              (root_only_launch_ok 1 2 (or_introl eq_refl) (or_intror eq_refl))
              (fun i _ => traverse_spec_ok root_only_nodes root_only_dual_nodes
                            2 _ ltac:(lia)))
    as (_ & cache & E & _ & _ & Hun).
  exists cache. split; [exact E |].
  apply (Hun 0 1 0 0); [lia | | lia | lia].
  vm_compute. split; congruence.
Defined.

(** ** The parameter-gradient pass of [backward_impl] *)

Lemma copy_back (n : Z) (src dst : buffer) (idx : Z) :
  parallel_for_gpu n (fun i grad => buf_set grad i (src i)) dst idx
  = if (0 <=? idx) && (idx <? n) then src idx else dst idx.
Proof.
  unfold parallel_for_gpu.
  destruct (Z.leb_spec 0 idx) as [H0 | H0];
    destruct (Z.ltb_spec idx n) as [Hn | Hn]; simpl.
  - apply (fold_buf_set_hit (fun i => i) src (range n) dst idx).
    + apply in_range. lia.
    + intros i _ ->. reflexivity.
  - apply (fold_buf_set_miss (fun i => i) src).
    intros i Hi. apply in_range in Hi. lia.
  - apply (fold_buf_set_miss (fun i => i) src).
    intros i Hi. apply in_range in Hi. lia.
  - apply (fold_buf_set_miss (fun i => i) src).
    intros i Hi. apply in_range in Hi. lia.
Qed.

Section ParameterGradients.

Variable smoothstep : Q -> Q.
Variable T : scalar_type.
Variables F MIN ARCH : Z.
Variable e : TakikawaEncoding.
Variable input : matrix.
Variable N : Z.
Variable dL_dy : matrix.

Local Abbreviation bp := (backward_params smoothstep T F MIN ARCH e input N dL_dy).

(** What one launch of the backward kernel adds to a zeroed buffer. *)
Local Abbreviation delta :=
  (linear_kernel
     (kernel_takikawa_backward (octree_traverse (m_octree e)) smoothstep F
        (grad_t T F MIN) ARCH N (n_levels e) (m_starting_level e)
        (m_interpolation_type e) input dL_dy) N zero_buffer).

Lemma launch_adds (pg : buffer) (idx : Z) :
  Qeq (linear_kernel
         (kernel_takikawa_backward (octree_traverse (m_octree e)) smoothstep F
            (grad_t T F MIN) ARCH N (n_levels e) (m_starting_level e)
            (m_interpolation_type e) input dL_dy) N pg idx)
      (pg idx + delta idx)%Q.
Proof. apply additive_zero, additive_launch_backward. Qed.

Lemma backward_params_overwrite ws g idx :
  0 <= idx < n_params F e -> Qeq (bp ws g Overwrite idx) (delta idx).
Proof.
  intros Hidx. unfold backward_params.
  assert (Hm : forall b, memset_zero b (n_params F e) idx = 0%Q).
  { intros b. unfold memset_zero.
    destruct (Z.leb_spec 0 idx), (Z.ltb_spec idx (n_params F e)); simpl;
      try reflexivity; lia. }
  destruct (negb (scalar_type_eqb (grad_t T F MIN) T)).
  - rewrite copy_back.
    destruct (Z.leb_spec 0 idx), (Z.ltb_spec idx (n_params F e)); simpl;
      try lia.
    rewrite launch_adds, Hm. ring.
  - rewrite launch_adds, Hm. ring.
Qed.

Lemma backward_params_accumulate_direct ws g idx :
  scalar_type_eqb (grad_t T F MIN) T = true ->
  Qeq (bp ws g Accumulate idx) (g idx + delta idx)%Q.
Proof.
  intros E. unfold backward_params. rewrite E. simpl. apply launch_adds.
Qed.

Lemma backward_params_accumulate_workspace ws g idx :
  scalar_type_eqb (grad_t T F MIN) T = false ->
  0 <= idx < n_params F e ->
  Qeq (bp ws g Accumulate idx) (ws idx + delta idx)%Q.
Proof.
  intros E Hidx. unfold backward_params. rewrite E. simpl.
  rewrite copy_back.
  destruct (Z.leb_spec 0 idx), (Z.ltb_spec idx (n_params F e)); simpl;
    try lia.
  apply launch_adds.
Qed.

Lemma backward_impl_params dy_dx mode ws g :
  backward_impl smoothstep T F MIN ARCH e dy_dx input N dL_dy None mode ws g
  = Some (if (padded_output_width e =? 0) || (N =? 0) then g
          else bp ws g mode, None).
Proof.
  unfold backward_impl. destruct ((padded_output_width e =? 0) || (N =? 0));
    reflexivity.
Qed.

(** Two passes in [Overwrite] mode leave what one pass leaves, on every
    path. *)
Lemma backward_overwrite_idempotent dy_dx ws1 ws2 g :
  exists g1 g2,
    backward_impl smoothstep T F MIN ARCH e dy_dx input N dL_dy None
      Overwrite ws1 g = Some (g1, None)
    /\ backward_impl smoothstep T F MIN ARCH e dy_dx input N dL_dy None
         Overwrite ws2 g1 = Some (g2, None)
    /\ forall idx, 0 <= idx < n_params F e -> Qeq (g2 idx) (g1 idx).
Proof.
  rewrite backward_impl_params. eexists. eexists.
  split; [reflexivity |]. rewrite backward_impl_params.
  split; [reflexivity |].
  intros idx Hidx. destruct ((padded_output_width e =? 0) || (N =? 0));
    [reflexivity |].
  rewrite !backward_params_overwrite by exact Hidx. reflexivity.
Qed.

(** Two passes in [Accumulate] mode from a zeroed buffer leave twice what
    one pass leaves, when the accumulation type is the parameter type. *)
Lemma backward_accumulate_doubles dy_dx ws1 ws2 :
  scalar_type_eqb (grad_t T F MIN) T = true ->
  exists g1 g2,
    backward_impl smoothstep T F MIN ARCH e dy_dx input N dL_dy None
      Accumulate ws1 zero_buffer = Some (g1, None)
    /\ backward_impl smoothstep T F MIN ARCH e dy_dx input N dL_dy None
         Accumulate ws2 g1 = Some (g2, None)
    /\ forall idx, Qeq (g2 idx) (2 * g1 idx)%Q.
Proof.
  intros E. rewrite backward_impl_params. eexists. eexists.
  split; [reflexivity |]. rewrite backward_impl_params.
  split; [reflexivity |].
  intros idx. destruct ((padded_output_width e =? 0) || (N =? 0)).
  - unfold zero_buffer. ring.
  - rewrite (backward_params_accumulate_direct ws2) by exact E.
    rewrite (backward_params_accumulate_direct ws1) by exact E.
    unfold zero_buffer. ring.
Qed.

(** Through the temporary buffer, a pass in [Accumulate] mode leaves the
    workspace contents plus its own contributions, whatever the gradient
    buffer held. *)
Lemma backward_accumulate_ignores_buffer dy_dx ws g :
  scalar_type_eqb (grad_t T F MIN) T = false ->
  padded_output_width e <> 0 -> N <> 0 ->
  exists g1,
    backward_impl smoothstep T F MIN ARCH e dy_dx input N dL_dy None
      Accumulate ws g = Some (g1, None)
    /\ forall idx, 0 <= idx < n_params F e ->
         Qeq (g1 idx) (ws idx + delta idx)%Q.
Proof.
  intros E Hw HN. rewrite backward_impl_params. eexists.
  split; [reflexivity |]. intros idx Hidx.
  destruct (Z.eqb_spec (padded_output_width e) 0); [lia |].
  destruct (Z.eqb_spec N 0); [lia |]. simpl.
  apply backward_params_accumulate_workspace; assumption.
Qed.

End ParameterGradients.

(** C7 at the failing input.  With [__half] parameters and one feature per
    level the gradients are accumulated in a temporary [float] buffer.  On
    the one-level one-node octree, one sample at the centroid, upstream
    gradient 1 and a workspace that holds zeros, a pass in [Accumulate] mode
    from a zeroed gradient buffer leaves 1/8 in slot 0, and a second pass
    leaves 1/8 again, not 1/4. *)
Theorem accumulate_twice_through_workspace :
  exists g1 g2,
    backward_impl smoothstep_cubic Half 1 75 750 (root_only_encoder 1 1) None
      centroid_input 1 ones None Accumulate zero_buffer zero_buffer
    = Some (g1, None)
    /\ backward_impl smoothstep_cubic Half 1 75 750 (root_only_encoder 1 1) None
         centroid_input 1 ones None Accumulate zero_buffer g1
       = Some (g2, None)
    /\ Qeq (g1 0) (1 # 8) /\ Qeq (g2 0) (1 # 8) /\ ~ Qeq (g2 0) (2 * g1 0%Z)%Q.
Proof.
  eexists. eexists. split; [reflexivity |]. split; [reflexivity |].
  split; [vm_compute; reflexivity |]. split; [vm_compute; reflexivity |].
  vm_compute. discriminate.
Qed.

(** ** The scatter into the gradient slots *)

Lemma fold_atomic_add_same (p : Z) (term : Z -> Q) (l : list Z) (pg : buffer) :
  Qeq (fold_left (fun b f => atomic_add b p (term f)) l pg p)
      (pg p + sumQ (map term l))%Q.
Proof.
  revert pg. induction l as [| x l IH]; intros pg; simpl.
  - ring.
  - rewrite IH. unfold atomic_add. rewrite buf_set_same. ring.
Qed.

Lemma fold_atomic_add_other (p : Z) (term : Z -> Q) (l : list Z) (pg : buffer)
    (j : Z) :
  j <> p -> fold_left (fun b f => atomic_add b p (term f)) l pg j = pg j.
Proof.
  intros H.
  apply (fold_left_preserves (fun b f => atomic_add b p (term f))
           (fun b => b j = pg j)); [reflexivity |].
  intros b f _ Hb. rewrite <- Hb. apply buf_set_other. exact H.
Qed.

(** C1 at the failing path.  With [float] accumulation the update of one
    corner adds the contributions of all [F] features to the single slot
    [param_idx] and changes no other slot: for [F > 1] the slots
    [param_idx + f], [f >= 1], of the vertex receive nothing. *)
Theorem float_scatter_single_slot F arch pg p grad w :
  Qeq (scatter F Float32 arch pg p grad w p)
      (pg p + sumQ (map (fun f => grad f * w)%Q (range F)))%Q
  /\ forall j, j <> p -> scatter F Float32 arch pg p grad w j = pg j.
Proof.
  unfold scatter, scatter_float. rewrite !andb_false_r. simpl. split.
  - apply (fold_atomic_add_same p (fun f => (grad f * w)%Q)).
  - intros j Hj. apply (fold_atomic_add_other p (fun f => (grad f * w)%Q)).
    exact Hj.
Qed.

(** ** The centroid scenario *)

Lemma trilinear_centroid (c : Z -> Q) :
  Qeq (trilinear c (1 # 2) (1 # 2) (1 # 2)) (mean8 c).
Proof. unfold trilinear, mean8. field. Qed.

Lemma smoothstep_cubic_half : Qeq (smoothstep_cubic (1 # 2)) (1 # 2).
Proof. reflexivity. Qed.

(** C2 at the failing input.  Feature width 2, the two-level one-node
    octree with the vertices 0 .. 7, starting level 0, one sample at the
    centroid.  In either interpolation mode the forward kernel leaves at
    level 0 the arithmetic mean of the 8 corner feature vectors.  With the
    upstream gradient [1, 1] and a zeroed buffer, the backward kernel with
    [float] accumulation leaves 1/4 in the first slot of every vertex and 0
    in the second, not 1/8 in each; with [__half] accumulation on the
    [__half2] path it leaves 1/8 in every slot. *)
Theorem centroid_scenario_float_accumulation :
  (forall it,
     exists out',
       fst (kernel_takikawa root_only_traverse smoothstep_cubic
              smoothstep_cubic_derivative 2 1 2 0 it distinct_grid
              centroid_input 0 (Some (fun _ _ => 0%Q), None)) = Some out'
       /\ Qeq (out' 0 0) (mean8 (fun idx => distinct_grid (2 * idx)))
       /\ Qeq (out' 1 0) (mean8 (fun idx => distinct_grid (2 * idx + 1))))
  /\ (forall it v, In v (range 8) ->
        Qeq (kernel_takikawa_backward root_only_traverse smoothstep_cubic 2
               Float32 750 1 2 0 it centroid_input ones 0 zero_buffer (2 * v))
            (1 # 4)
        /\ Qeq (kernel_takikawa_backward root_only_traverse smoothstep_cubic 2
                  Float32 750 1 2 0 it centroid_input ones 0 zero_buffer
                  (2 * v + 1))
               0)
  /\ (forall it j, In j (range 16) ->
        Qeq (kernel_takikawa_backward root_only_traverse smoothstep_cubic 2
               Half 750 1 2 0 it centroid_input ones 0 zero_buffer j)
            (1 # 8)).
Proof.
  split; [| split].
  - intros it. destruct it; eexists;
      (split; [reflexivity | split; vm_compute; reflexivity]).
  - intros it v Hv. simpl in Hv.
    destruct it;
      repeat (destruct Hv as [<- | Hv]; [split; vm_compute; reflexivity |]);
      destruct Hv.
  - intros it j Hj. simpl in Hj.
    destruct it;
      repeat (destruct Hj as [<- | Hj]; [vm_compute; reflexivity |]);
      destruct Hj.
Qed.

(** ** The theorems at a concrete launch *)

Lemma root_only_sample_ok : sample_ok 2 2 0 1 0.
Proof.
  apply launch_sample_ok; [| lia].
  apply root_only_launch_ok; right; reflexivity.
Qed.

Lemma root_only_traversal_ok :
  traversal_ok (2 + 0) (sample_traversal root_only_traverse 2 0 centroid_input 0).
Proof. apply traverse_spec_ok. lia. Qed.

Lemma scrambled_traversal_ok :
  traversal_ok (2 + 0)
    (sample_traversal scrambled_traverse 2 0 quarter_input 0).
Proof. apply traverse_spec_ok. lia. Qed.

Lemma scrambled_nodes_ok (v : visit) :
  In v (visits (sample_traversal scrambled_traverse 2 0 quarter_input 0)) ->
  node_ok 2 (v_node v).
Proof.
  intros [<- | []]. split; [reflexivity |].
  repeat constructor; simpl; lia.
Qed.

Lemma forward_zero_fill_unreached_witness :
  exists out',
    fst (kernel_takikawa scrambled_traverse smoothstep_cubic
           smoothstep_cubic_derivative 2 1 2 0 Linear distinct_grid
           quarter_input 0 (Some (fun _ _ => 7%Q), None)) = Some out'
    /\ out' 2 0 = 0%Q /\ out' 3 0 = 0%Q
    /\ Qeq (out' 0 0) (49 # 8) /\ Qeq (out' 1 0) (57 # 8).
Proof.
  destruct (forward_zero_fill_unreached scrambled_traverse smoothstep_cubic
              smoothstep_cubic_derivative 2 1 2 0 Linear distinct_grid
              quarter_input 0 (fun _ _ => 7%Q) None
              root_only_sample_ok scrambled_traversal_ok scrambled_nodes_ok)
    as (out' & E & Hz & Hv).
  exists out'. split; [exact E |].
  split; [| split; [| split]].
  - apply (Hz 1 0); try lia. vm_compute. split; congruence.
  - apply (Hz 1 1); try lia. vm_compute. split; congruence.
  - eapply Qeq_trans.
    + apply (Hv (mk_visit (mk_dual [5; 3; 0; 7; 2; 6; 1; 4]) 0
                   (mk_vec3 (1 # 4) (1 # 2) (3 # 4))) 0);
        [left; reflexivity | simpl; lia | lia].
    + vm_compute. reflexivity.
  - eapply Qeq_trans.
    + apply (Hv (mk_visit (mk_dual [5; 3; 0; 7; 2; 6; 1; 4]) 0
                   (mk_vec3 (1 # 4) (1 # 2) (3 # 4))) 1);
        [left; reflexivity | simpl; lia | lia].
    + vm_compute. reflexivity.
Defined.

Lemma forward_derivative_cache_witness :
  exists dd',
    snd (kernel_takikawa scrambled_traverse smoothstep_cubic
           smoothstep_cubic_derivative 2 1 2 0 Linear distinct_grid
           quarter_input 0 (None, Some zero_buffer)) = Some dd'
    /\ Qeq (dd' 0) (13 # 2) /\ Qeq (dd' 4) (- 13 # 4) /\ Qeq (dd' 8) (- 3 # 2).
Proof.
  destruct (forward_derivative_cache scrambled_traverse smoothstep_cubic
              smoothstep_cubic_derivative 2 1 2 0 Linear distinct_grid
              quarter_input 0 None zero_buffer
              root_only_sample_ok scrambled_traversal_ok scrambled_nodes_ok)
    as (dd' & E & H).
  exists dd'. split; [exact E |].
  split; [| split]; eapply Qeq_trans.
  - apply (H (mk_visit (mk_dual [5; 3; 0; 7; 2; 6; 1; 4]) 0
                (mk_vec3 (1 # 4) (1 # 2) (3 # 4))) 0 0);
      [left; reflexivity | simpl; lia | lia | lia].
  - vm_compute. reflexivity.
  - apply (H (mk_visit (mk_dual [5; 3; 0; 7; 2; 6; 1; 4]) 0
                (mk_vec3 (1 # 4) (1 # 2) (3 # 4))) 1 0);
      [left; reflexivity | simpl; lia | lia | lia].
  - vm_compute. reflexivity.
  - apply (H (mk_visit (mk_dual [5; 3; 0; 7; 2; 6; 1; 4]) 0
                (mk_vec3 (1 # 4) (1 # 2) (3 # 4))) 2 0);
      [left; reflexivity | simpl; lia | lia | lia].
  - vm_compute. reflexivity.
Defined.

Lemma backward_input_dot_product_witness :
  Qeq (linear_kernel
         (kernel_takikawa_backward_input (U32.mul 1 3) 2 ones distinct_grid)
         (U32.mul 1 3) (fun _ _ => 0%Q) 0 0)
      3.
Proof.
  destruct (backward_input_dot_product 1 2 ones distinct_grid (fun _ _ => 0%Q)
              ltac:(lia) ltac:(lia) ltac:(lia) ltac:(lia)) as (H & _ & _).
  eapply Qeq_trans.
  - apply (H 0 0); lia.
  - vm_compute. reflexivity.
Defined.

Lemma unreached_cache_entries_unwritten_witness :
  exists out' dd',
    kernel_takikawa root_only_traverse smoothstep_cubic
      smoothstep_cubic_derivative 2 1 2 0 Linear distinct_grid centroid_input 0
      (Some (fun _ _ => 7%Q), Some distinct_grid)
    = (Some out', Some dd')
    /\ out' 2 0 = 0%Q /\ dd' 2 = distinct_grid 2.
Proof.
  destruct (unreached_cache_entries_unwritten root_only_traverse
              smoothstep_cubic smoothstep_cubic_derivative 2 1 2 0 Linear
              distinct_grid centroid_input 0 (fun _ _ => 7%Q) distinct_grid
              root_only_sample_ok root_only_traversal_ok)
    as (out' & dd' & E & H & _).
  exists out', dd'. split; [exact E |].
  apply (H 1 0 0); try lia. vm_compute. split; congruence.
Defined.

(** * Further properties of the encoder *)

(** ** The scatter on the [__half2] path *)

(** X4.  On the [__half2] path (feature width 2, 4 or 8, [__half]
    accumulation, architecture 600 or above) the update of one corner
    adds [grad[f] * weight] to slot [param_idx + f] for every feature [f]
    and changes no other slot. *)
Theorem scatter_half2_exact F arch pg p grad w j :
  F = 2 \/ F = 4 \/ F = 8 -> 600 <= arch ->
  Qeq (scatter F Half arch pg p grad w j) (pg j + slot_share F p grad w j).
Proof.
  intros HF Harch. unfold slot_share.
  destruct (Z.leb_spec p j) as [Hlo | Hlo];
    destruct (Z.ltb_spec j (p + F)) as [Hhi | Hhi]; simpl;
    [ replace j with (p + (j - p)) at 1 2 by lia;
      apply scatter_half2_each_slot; [exact HF | exact Harch | lia]
    | | | ];
    unfold scatter, scatter_half2;
    (destruct (Z.geb_spec arch 600) as [_ | C]; [| lia]);
    destruct HF as [-> | [-> | ->]]; try (exfalso; lia); simpl; buf_simpl; ring.
Qed.

Lemma scatter_half2_exact_witness :
  Qeq (scatter 4 Half 750 zero_buffer 8 (fun f => inject_Z (f + 1)) (1 # 8) 10)
      (zero_buffer 10
       + slot_share 4 8 (fun f => inject_Z (f + 1)) (1 # 8) 10).
Proof.
  apply (scatter_half2_exact 4 750 zero_buffer 8 (fun f => inject_Z (f + 1))
           (1 # 8) 10); [right; left; reflexivity | lia].
Defined.

(** ** Output width and alignment *)

(** X5.  For a constructed encoder the output width is the stored number of
    output dimensions; it is a multiple of the required output alignment,
    also when the product of feature width and level count wraps around;
    [set_padded_output_width] accepts exactly this width. *)
Theorem output_width_aligned F sl oct it e :
  TakikawaEncoding_new F sl oct it = inr e ->
  output_width e = m_n_output_dims e
  /\ output_width e mod required_output_alignment F = 0
  /\ set_padded_output_width e (output_width e) = Some e
  /\ forall w, w <> output_width e -> set_padded_output_width e w = None.
Proof.
  intros E. pose proof (constructor_accepts _ _ _ _ _ E) as [_ HF].
  apply constructor_result in E. subst e.
  unfold output_width, padded_output_width, set_padded_output_width,
    required_output_alignment. simpl.
  assert (Ew : U32.add (U32.mul F (n_levels_of oct sl)) 0
               = U32.mul F (n_levels_of oct sl)).
  { unfold U32.add, U32.mul, U32.wrap. rewrite Z.add_0_r.
    apply Z.mod_mod. discriminate. }
  rewrite Ew. split; [reflexivity |]. split; [| split].
  - unfold U32.mul, U32.wrap. rewrite modulus_eq.
    generalize (n_levels_of oct sl). intros n.
    destruct HF as [-> | [-> | [-> | ->]]]; Z.div_mod_to_equations; lia.
  - rewrite Z.eqb_refl. reflexivity.
  - intros w Hw. destruct (Z.eqb_spec w (U32.mul F (n_levels_of oct sl)));
      [contradiction | reflexivity].
Qed.

Lemma output_width_aligned_witness :
  output_width (root_only_encoder 2 2) = 4
  /\ set_padded_output_width (root_only_encoder 2 2) 4
     = Some (root_only_encoder 2 2).
Proof.
  destruct (output_width_aligned 2 0 (root_only_octree 2) Linear
              (root_only_encoder 2 2) eq_refl) as (_ & _ & H & _).
  split; [reflexivity | exact H].
Defined.

(** ** The output of the forward launch *)

Lemma zero_fill_outside F n_levels s t_lvl i out r c :
  0 < F -> F * n_levels < 2 ^ 32 ->
  c <> i \/ r < Z.max 0 (t_lvl - U32.to_int s) * F \/ n_levels * F <= r ->
  zero_fill F n_levels s t_lvl i out r c = out r c.
Proof.
  intros HF Hn H. unfold zero_fill.
  set (level0 := Z.max 0 (t_lvl - U32.to_int s)) in *.
  apply (fold_left_preserves
           (fun o l => store_features F o l i (fun _ => 0%Q))
           (fun m => m r c = out r c)); [reflexivity |].
  intros m x Hx Hm. rewrite <- Hm. apply in_range_from in Hx.
  apply store_features_miss; [lia | nia |].
  destruct H as [H | [H | H]]; [left; exact H | right; nia | right; nia].
Qed.

Section ForwardLaunchOutput.

Variable traverse : Z -> vec3 -> traversal.
Variable smoothstep : Q -> Q.
Variable smoothstep_derivative : Q -> Q.
Variable F : Z.
Variables N n_levels s : Z.
Variable it : InterpolationType.
Variable grid : buffer.
Variable data_in : matrix.

Local Abbreviation t_out' :=
  (thread_output traverse smoothstep smoothstep_derivative F
     N n_levels s it grid data_in).

Hypothesis Hok : launch_ok F n_levels s N.
Hypothesis Htrav :
  forall i, 0 <= i < N ->
    traversal_ok (n_levels + s) (sample_traversal traverse n_levels s data_in i).

Lemma t_out_sample i out :
  0 <= i < N ->
  t_out' i out
  = zero_fill F n_levels s
      (t_level (sample_traversal traverse n_levels s data_in i)) i
      (fold_left
         (visit_output smoothstep smoothstep_derivative F s it grid i)
         (visits (sample_traversal traverse n_levels s data_in i)) out).
Proof.
  intros Hi.
  pose proof (kernel_takikawa_effects traverse smoothstep smoothstep_derivative
                F N n_levels s it grid data_in i (Some out, None)) as E.
  rewrite kernel_takikawa_sample in E
    by (apply (launch_sample_ok F N n_levels s Hok); exact Hi).
  simpl in E. injection E as E. symmetry. exact E.
Qed.

Lemma t_out_padding i out :
  N <= i < n_blocks_linear N * N_THREADS_LINEAR -> t_out' i out = out.
Proof.
  intros Hi. destruct Hok as (HF & Hn & Hs & Hd & HN & Hb).
  unfold thread_output, U32.mul.
  assert (Hnf : 0 < F * n_levels) by nia.
  rewrite (u32_wrap_small (F * n_levels)) by (rewrite modulus_eq; nia).
  rewrite (u32_wrap_small (i * _)) by (rewrite modulus_eq; nia).
  rewrite (u32_wrap_small (N * _)) by (rewrite modulus_eq; nia).
  destruct (Z.geb_spec (i * (F * n_levels)) (N * (F * n_levels))) as [C | C];
    [reflexivity | nia].
Qed.

(** A thread writes its own column only, and only the rows of the active
    levels. *)
Lemma t_out_frame j out r c :
  0 <= j < n_blocks_linear N * N_THREADS_LINEAR ->
  c <> j \/ ~ (0 <= r < F * n_levels) ->
  t_out' j out r c = out r c.
Proof.
  intros Hj H.
  destruct (Z_lt_ge_dec j N) as [Hlt | Hge];
    [| rewrite t_out_padding by lia; reflexivity].
  rewrite t_out_sample by lia.
  pose proof (launch_sample_ok F N n_levels s Hok j ltac:(lia))
    as (HF & Hn & Hs & Hd & Hi & Hb).
  destruct (Htrav j ltac:(lia)) as (Hnd & Hlv & Hret).
  assert (Hfn : F * n_levels < 2 ^ 32) by nia.
  rewrite zero_fill_outside; try assumption.
  - apply (fold_v_out_miss smoothstep smoothstep_derivative F n_levels);
      try assumption.
    + intros v Hv. specialize (Hlv v Hv). lia.
    + destruct H as [H | H]; [left; exact H | right].
      intros v Hv Hvge Hr. specialize (Hlv v Hv). apply H. nia.
  - destruct H as [H | H]; [left; exact H |].
    destruct (Z_lt_ge_dec r 0) as [Hneg | Hpos].
    + right. left.
      assert (0 <= Z.max 0 (t_level (sample_traversal traverse n_levels s
                                       data_in j) - U32.to_int s)) by lia.
      nia.
    + right. right. nia.
Qed.

Lemma launch_out_sample i out r :
  0 <= i < N ->
  linear_kernel t_out' N out r i
  = t_out' i (fold_left (fun o j => t_out' j o) (range i) out) r i
    /\ fold_left (fun o j => t_out' j o) (range i) out r i = out r i.
Proof.
  intros Hi. pose proof (launch_padding N) as Hp.
  destruct Hok as (_ & _ & _ & _ & HN & _).
  rewrite linear_kernel_unfold by lia.
  rewrite (range_split _ i) by lia.
  rewrite fold_left_app. simpl. split.
  - apply (fold_left_preserves (fun o j => t_out' j o)
             (fun m => m r i = t_out' i (fold_left (fun o j => t_out' j o)
                                           (range i) out) r i));
      [reflexivity |].
    intros m j Hj Hm. rewrite <- Hm. apply in_range_from in Hj.
    apply t_out_frame; [lia | left; lia].
  - apply (fold_left_preserves (fun o j => t_out' j o) (fun m => m r i = out r i));
      [reflexivity |].
    intros m j Hj Hm. rewrite <- Hm. apply in_range in Hj.
    apply t_out_frame; [lia | left; lia].
Qed.

Lemma launch_out_visited i out v f :
  0 <= i < N ->
  In v (visits (sample_traversal traverse n_levels s data_in i)) ->
  s <= v_level v -> 0 <= f < F ->
  Qeq (linear_kernel t_out' N out ((v_level v - s) * F + f) i)
      (trilinear (fun idx => grid (param_idx F (v_node v) idx + f))
         (vx (warped smoothstep it (v_pos v)))
         (vy (warped smoothstep it (v_pos v)))
         (vz (warped smoothstep it (v_pos v)))).
Proof.
  intros Hi Hv Hge Hf.
  pose proof (launch_sample_ok F N n_levels s Hok i Hi)
    as (HF & Hn & Hs & Hd & _ & Hb).
  destruct (Htrav i Hi) as (Hnd & Hlv & Hret).
  assert (Hfn : F * n_levels < 2 ^ 32) by nia.
  destruct (launch_out_sample i out ((v_level v - s) * F + f) Hi) as [E _].
  rewrite E, t_out_sample by exact Hi.
  rewrite zero_fill_miss; try assumption.
  - rewrite (fold_v_out_hit smoothstep smoothstep_derivative F n_levels);
      try assumption.
    + rewrite warp_fst. apply interpolate_trilinear.
    + intros w Hw. specialize (Hlv w Hw). lia.
  - right. rewrite u32_to_int_small by lia. specialize (Hlv v Hv).
    assert (v_level v - s + 1
            <= Z.max 0 (t_level (sample_traversal traverse n_levels s
                                   data_in i) - s)) by lia.
    nia.
Qed.

Lemma launch_out_unreached i out level f :
  0 <= i < N ->
  Z.max 0 (t_level (sample_traversal traverse n_levels s data_in i) - s)
    <= level < n_levels ->
  0 <= f < F ->
  linear_kernel t_out' N out (level * F + f) i = 0%Q.
Proof.
  intros Hi Hl Hf.
  pose proof (launch_sample_ok F N n_levels s Hok i Hi)
    as (HF & Hn & Hs & Hd & _ & Hb).
  assert (Hfn : F * n_levels < 2 ^ 32) by nia.
  destruct (launch_out_sample i out (level * F + f) Hi) as [E _].
  rewrite E, t_out_sample by exact Hi.
  apply zero_fill_hit; try assumption.
  rewrite u32_to_int_small by lia. exact Hl.
Qed.

Lemma launch_out_outside out r c :
  ~ (0 <= c < N) \/ ~ (0 <= r < F * n_levels) ->
  linear_kernel t_out' N out r c = out r c.
Proof.
  intros H. destruct Hok as (_ & _ & _ & _ & HN & _).
  rewrite linear_kernel_unfold by lia.
  apply (fold_left_preserves (fun o j => t_out' j o) (fun m => m r c = out r c));
    [reflexivity |].
  intros m j Hj Hm. rewrite <- Hm. apply in_range in Hj.
  destruct (Z.eq_dec c j) as [-> | Hne];
    [| apply t_out_frame; [lia | left; exact Hne]].
  destruct H as [H | H]; [| apply t_out_frame; [lia | right; exact H]].
  rewrite t_out_padding by lia. reflexivity.
Qed.

End ForwardLaunchOutput.

(** X6.  On a constructed encoder whose visited nodes are well formed, a
    forward call with a non-null output leaves in the output, for every
    sample of the batch, at every level the sample's traversal visited at
    or above the starting level the trilinear interpolation of the
    feature vectors of the 8 vertices of the visited node (corner [idx]
    takes the vector the parameters hold from entry [vertex * F] on for
    the [idx]-th vertex of the node), and exactly zero at every level
    from the returned level on; it changes no entry outside the columns
    of the batch and the rows of the active levels. *)
Theorem forward_output smoothstep smoothstep_derivative F sl oct it e
    params inference_params input N use_inference_params prepare fresh out :
  TakikawaEncoding_new F sl oct it = inr e ->
  launch_ok F (n_levels e) sl N ->
  (forall i, 0 <= i < N ->
     traversal_ok (n_levels e + sl)
       (sample_traversal (octree_traverse oct) (n_levels e) sl input i)) ->
  (forall i v, 0 <= i < N ->
     In v (visits (sample_traversal (octree_traverse oct) (n_levels e) sl
                     input i)) ->
     node_ok F (v_node v)) ->
  exists out',
    fst (forward_impl smoothstep smoothstep_derivative F e params
           inference_params input N (Some out) use_inference_params prepare
           fresh) = Some out'
    /\ (forall i v f,
          0 <= i < N ->
          In v (visits (sample_traversal (octree_traverse oct) (n_levels e)
                          sl input i)) ->
          sl <= v_level v -> 0 <= f < F ->
          Qeq (out' ((v_level v - sl) * F + f) i)
              (trilinear
                 (corner_features F
                    (if use_inference_params then inference_params else params)
                    (v_node v) f)
                 (vx (warped smoothstep it (v_pos v)))
                 (vy (warped smoothstep it (v_pos v)))
                 (vz (warped smoothstep it (v_pos v)))))
    /\ (forall i level f,
          0 <= i < N ->
          Z.max 0 (t_level (sample_traversal (octree_traverse oct)
                              (n_levels e) sl input i) - sl)
            <= level < n_levels e ->
          0 <= f < F ->
          out' (level * F + f) i = 0%Q)
    /\ (forall r c,
          ~ (0 <= c < N) \/ ~ (0 <= r < F * n_levels e) ->
          out' r c = out r c).
Proof.
  intros E Hok Htrav Hnodes. apply constructor_result in E. subst e.
  unfold n_levels in *. simpl in *.
  set (n := n_levels_of oct sl) in *.
  assert (Hw : (padded_output_width (mk_encoding sl (U32.mul F n) 0 oct it)
                =? 0) = false).
  { destruct Hok as (HF & Hn & Hs & Hd & HN & Hb).
    pose proof (launch_padding N) as Hp.
    unfold padded_output_width, U32.add, U32.mul. simpl.
    rewrite (u32_wrap_small (F * n)) by (rewrite modulus_eq; nia).
    rewrite Z.add_0_r.
    rewrite u32_wrap_small by (rewrite modulus_eq; nia).
    apply Z.eqb_neq. nia. }
  exists (linear_kernel
            (thread_output (octree_traverse oct) smoothstep
               smoothstep_derivative F N n sl it
               (if use_inference_params then inference_params else params)
               input) N out).
  unfold forward_impl. rewrite Hw. simpl.
  unfold n_levels. simpl. fold n.
  rewrite launch_effects. simpl.
  split; [reflexivity |]. split; [| split].
  - intros i v f Hi Hv Hge Hf.
    rewrite launch_out_visited by assumption.
    rewrite (trilinear_ext _
               (corner_features F
                  (if use_inference_params then inference_params else params)
                  (v_node v) f)); [reflexivity |].
    intros idx Hidx. apply corner_features_gather;
      [destruct Hok as (HF & _); exact HF | apply (Hnodes i v Hi Hv)
      | exact Hidx].
  - intros i level f Hi Hl Hf. apply launch_out_unreached; assumption.
  - intros r c H. apply launch_out_outside; assumption.
Qed.

Lemma scrambled_encoder_nodes_ok (i : Z) (v : visit) :
  0 <= i < 1 ->
  In v (visits (sample_traversal scrambled_traverse 2 0 quarter_input i)) ->
  node_ok 2 (v_node v).
Proof.
  intros _ [<- | []]. split; [reflexivity |].
  repeat constructor; simpl; lia.
Qed.

Lemma forward_output_witness :
  exists out',
    fst (forward_impl smoothstep_cubic smoothstep_cubic_derivative 2
           (scrambled_encoder 2 2) distinct_grid distinct_grid quarter_input
           1 (Some (fun _ _ => 7%Q)) false false zero_buffer) = Some out'
    /\ Qeq (out' 0 0) (49 # 8) /\ out' 2 0 = 0%Q /\ out' 0 1 = 7%Q.
Proof.
  destruct (forward_output smoothstep_cubic smoothstep_cubic_derivative
              2 0 (scrambled_octree 2) Linear (scrambled_encoder 2 2)
              distinct_grid distinct_grid quarter_input 1 false false
              zero_buffer (fun _ _ => 7%Q) eq_refl
              (root_only_launch_ok 2 2 (or_intror eq_refl) (or_intror eq_refl))
              (fun i _ => traverse_spec_ok root_only_nodes scrambled_dual_nodes
                            2 _ ltac:(lia))
              scrambled_encoder_nodes_ok)
    as (out' & E & Hv & Hz & Hf).
  exists out'. split; [exact E |]. split; [| split].
  - eapply Qeq_trans.
    + apply (Hv 0 (mk_visit (mk_dual [5; 3; 0; 7; 2; 6; 1; 4]) 0
                     (mk_vec3 (1 # 4) (1 # 2) (3 # 4))) 0);
        [lia | left; reflexivity | simpl; lia | lia].
    + vm_compute. reflexivity.
  - apply (Hz 0 1 0); [lia | | lia]. vm_compute. split; congruence.
  - apply (Hf 0 1). left. lia.
Defined.

Lemma forward_impl_output smoothstep smoothstep_derivative F sl oct it
    params inference_params input N use_inference_params prepare fresh out :
  launch_ok F (n_levels_of oct sl) sl N ->
  fst (forward_impl smoothstep smoothstep_derivative F
         (mk_encoding sl (U32.mul F (n_levels_of oct sl)) 0 oct it)
         params inference_params input N (Some out) use_inference_params
         prepare fresh)
  = Some (linear_kernel
            (thread_output (octree_traverse oct) smoothstep
               smoothstep_derivative F N (n_levels_of oct sl) sl it
               (if use_inference_params then inference_params else params)
               input) N out).
Proof.
  intros Hok. set (n := n_levels_of oct sl) in *.
  assert (Hw : (padded_output_width (mk_encoding sl (U32.mul F n) 0 oct it)
                =? 0) = false).
  { destruct Hok as (HF & Hn & Hs & Hd & HN & Hb).
    pose proof (launch_padding N) as Hp.
    unfold padded_output_width, U32.add, U32.mul. simpl.
    rewrite (u32_wrap_small (F * n)) by (rewrite modulus_eq; nia).
    rewrite Z.add_0_r.
    rewrite u32_wrap_small by (rewrite modulus_eq; nia).
    apply Z.eqb_neq. nia. }
  unfold forward_impl. rewrite Hw. simpl.
  unfold n_levels. simpl. fold n.
  rewrite launch_effects. reflexivity.
Qed.

Lemma traverse_from_complete fuel nodes dual_nodes node_idx level pos l :
  level <= l
  < t_level (traverse_from fuel nodes dual_nodes node_idx level pos) ->
  exists v,
    In v (visits (traverse_from fuel nodes dual_nodes node_idx level pos))
    /\ v_level v = l.
Proof.
  revert node_idx level pos.
  induction fuel as [| fuel IH]; intros node_idx level pos; simpl; [lia |].
  destruct (_ <? 0); simpl.
  - intros H. eexists. split; [left; reflexivity |]. simpl. lia.
  - intros H. destruct (Z.eq_dec l level) as [-> | Hne].
    + eexists. split; [left; reflexivity |]. reflexivity.
    + destruct (IH _ (level + 1) (child_pos pos) ltac:(split; [lia | apply H]))
        as (v & Hv & E).
      exists v. split; [right; exact Hv | exact E].
Qed.

Lemma traverse_spec_complete nodes dual_nodes max_depth pos :
  traversal_complete (traverse_spec nodes dual_nodes max_depth pos).
Proof.
  intros l Hl. apply traverse_from_complete. exact Hl.
Qed.

(** X7.  Where every traversal visits all the levels below the level it
    returns, a forward call with a non-null output determines every output
    entry of the batch: the rows of the active levels in the columns of the
    samples do not depend on what the output matrix held before the call. *)
Theorem forward_output_overwrites smoothstep smoothstep_derivative F sl oct it
    e params inference_params input N use_inference_params prepare fresh
    out1 out2 :
  TakikawaEncoding_new F sl oct it = inr e ->
  launch_ok F (n_levels e) sl N ->
  (forall i, 0 <= i < N ->
     traversal_ok (n_levels e + sl)
       (sample_traversal (octree_traverse oct) (n_levels e) sl input i)
     /\ traversal_complete
          (sample_traversal (octree_traverse oct) (n_levels e) sl input i)) ->
  exists o1 o2,
    fst (forward_impl smoothstep smoothstep_derivative F e params
           inference_params input N (Some out1) use_inference_params prepare
           fresh) = Some o1
    /\ fst (forward_impl smoothstep smoothstep_derivative F e params
              inference_params input N (Some out2) use_inference_params
              prepare fresh) = Some o2
    /\ forall r c, 0 <= c < N -> 0 <= r < F * n_levels e ->
         Qeq (o1 r c) (o2 r c).
Proof.
  intros E Hok Htrav. apply constructor_result in E. subst e.
  unfold n_levels in *. simpl in *.
  set (n := n_levels_of oct sl) in *.
  eexists. eexists.
  split; [apply forward_impl_output; exact Hok |].
  split; [apply forward_impl_output; exact Hok |].
  intros r c Hc Hr. fold n.
  pose proof Hok as (HF & Hn & Hs & Hd & HN & Hb).
  assert (Ht : forall i, 0 <= i < N ->
             traversal_ok (n + sl)
               (sample_traversal (octree_traverse oct) n sl input i))
    by (intros i Hi; apply Htrav; exact Hi).
  destruct (Htrav c Hc) as [(Hnd & Hlv & Hret) Hcomplete].
  set (t := sample_traversal (octree_traverse oct) n sl input c) in *.
  pose proof (Z.div_mod r F ltac:(lia)) as Er.
  pose proof (Z.mod_pos_bound r F HF) as Br.
  assert (Hlevel : 0 <= r / F < n).
  { split; [apply Z.div_pos; lia | apply Z.div_lt_upper_bound; lia]. }
  replace r with (r / F * F + r mod F) by lia.
  destruct (Z_lt_ge_dec (r / F) (Z.max 0 (t_level t - sl))) as [Hlt | Hge].
  - destruct (Hcomplete (r / F + sl) ltac:(lia)) as (v & Hv & Ev).
    replace (r / F) with (v_level v - sl) by lia.
    rewrite !(launch_out_visited (octree_traverse oct) smoothstep
                smoothstep_derivative F N n sl it _ input Hok Ht c _ v)
      by (try assumption; lia).
    reflexivity.
  - rewrite !(launch_out_unreached (octree_traverse oct) smoothstep
                smoothstep_derivative F N n sl it _ input Hok Ht c)
      by (try assumption; fold t; lia).
    reflexivity.
Qed.

Lemma forward_output_overwrites_witness :
  exists o1 o2,
    fst (forward_impl smoothstep_cubic smoothstep_cubic_derivative 2
           (root_only_encoder 2 2) distinct_grid distinct_grid centroid_input
           1 (Some (fun _ _ => 7%Q)) false false zero_buffer) = Some o1
    /\ fst (forward_impl smoothstep_cubic smoothstep_cubic_derivative 2
              (root_only_encoder 2 2) distinct_grid distinct_grid
              centroid_input 1 (Some (fun _ _ => 9%Q)) false false
              zero_buffer) = Some o2
    /\ Qeq (o1 1 0) (o2 1 0).
Proof.
  destruct (forward_output_overwrites smoothstep_cubic
              smoothstep_cubic_derivative 2 0 (root_only_octree 2) Linear
              (root_only_encoder 2 2) distinct_grid distinct_grid
              centroid_input 1 false false zero_buffer
              (fun _ _ => 7%Q) (fun _ _ => 9%Q) eq_refl
              (root_only_launch_ok 2 2 (or_intror eq_refl) (or_intror eq_refl))
              (fun i _ =>
                 conj (traverse_spec_ok root_only_nodes root_only_dual_nodes
                         2 _ ltac:(lia))
                      (traverse_spec_complete root_only_nodes
                         root_only_dual_nodes 2 _)))
    as (o1 & o2 & E1 & E2 & H).
  exists o1, o2. split; [exact E1 |]. split; [exact E2 |].
  apply H; simpl; lia.
Defined.

(** ** Sums *)

Lemma sumQ_map_ext {A : Type} (f g : A -> Q) (l : list A) :
  (forall a, In a l -> Qeq (f a) (g a)) -> Qeq (sumQ (map f l)) (sumQ (map g l)).
Proof.
  induction l as [| x l IH]; intros H; simpl; [reflexivity |].
  rewrite (H x) by (left; reflexivity).
  rewrite IH by (intros a Ha; apply H; right; exact Ha). reflexivity.
Qed.

Lemma root_only_width : padded_output_width (root_only_encoder 2 2) <> 0.
Proof. vm_compute. discriminate. Qed.

(** ** From the forward call to the gradient of the input *)

Lemma launch_cache_unvisited traverse smoothstep smoothstep_derivative F N
    n_levels s it grid data_in i dd level g f :
  launch_ok F n_levels s N ->
  (forall i, 0 <= i < N ->
     traversal_ok (n_levels + s) (sample_traversal traverse n_levels s data_in i)) ->
  0 <= i < N -> 0 <= level < n_levels -> 0 <= g < 3 -> 0 <= f < F ->
  (forall v, In v (visits (sample_traversal traverse n_levels s data_in i)) ->
     v_level v <> level + s) ->
  linear_kernel
    (thread_cache traverse smoothstep smoothstep_derivative F N n_levels s it
       grid data_in) N dd (cache_slot F (F * n_levels) i level g f)
  = dd (cache_slot F (F * n_levels) i level g f).
Proof.
  intros Hok Htrav Hi Hl Hg Hf Hnot.
  pose proof (launch_sample_ok F N n_levels s Hok i Hi)
    as (HF & Hn & Hs & Hd & _ & Hb).
  destruct (Htrav i Hi) as (Hnd & Hlv & Hret).
  destruct (launch_cache_sample traverse smoothstep smoothstep_derivative F N
              n_levels s it grid data_in Hok Htrav i dd
              (cache_slot F (F * n_levels) i level g f) Hi) as [E E'].
  { apply (cache_slot_range F N n_levels s Hok); [lia | exact Hg | exact Hf]. }
  rewrite E, (t_cache_sample traverse smoothstep smoothstep_derivative F N
                n_levels s it grid data_in Hok) by exact Hi.
  rewrite <- E'.
  apply (fold_v_cache_miss smoothstep smoothstep_derivative F n_levels N);
    try assumption.
  - intros w Hw. specialize (Hlv w Hw). lia.
  - intros w Hw Hwge g' f' Hg' Hf' E2. specialize (Hlv w Hw).
    apply (cache_slot_inj F n_levels) in E2; try lia.
    apply (Hnot w Hw). lia.
Qed.

Lemma visit_at_some t level v :
  visit_at t level = Some v -> In v (visits t) /\ v_level v = level.
Proof.
  unfold visit_at. intros H. apply find_some in H. destruct H as [Hin E].
  split; [exact Hin | apply Z.eqb_eq; exact E].
Qed.

Lemma visit_at_none t level v :
  visit_at t level = None -> In v (visits t) -> v_level v <> level.
Proof.
  unfold visit_at. intros H Hin E.
  pose proof (find_none _ _ H v Hin) as C. simpl in C.
  apply Z.eqb_neq in C. contradiction.
Qed.

Lemma dot_ext (n : Z) (a b b' : Z -> Q) :
  (forall k, 0 <= k < n -> Qeq (b k) (b' k)) -> Qeq (dot n a b) (dot n a b').
Proof.
  intros H. unfold dot. apply sumQ_map_ext. intros k Hk.
  apply in_range in Hk. rewrite (H k Hk). reflexivity.
Qed.

(** X9.  On a constructed encoder, a forward call that prepares input
    gradients followed by a backward call that asks for them leaves in
    [dL_dinput(j, i)], for every sample [i] and axis [j], the dot product of
    the sample's upstream gradient with the derivatives of the levels its
    traversal visited; for a level the traversal did not visit the term
    uses what the newly allocated cache held. *)
Theorem input_gradient_end_to_end smoothstep smoothstep_derivative T F MIN
    ARCH sl oct it e params inference_params input N use_inference_params
    fresh output dL_dy dL_dx mode ws g :
  TakikawaEncoding_new F sl oct it = inr e ->
  launch_ok F (n_levels e) sl N ->
  (forall i, 0 <= i < N ->
     traversal_ok (n_levels e + sl)
       (sample_traversal (octree_traverse oct) (n_levels e) sl input i)) ->
  exists cache gradients' dL_dx',
    snd (forward_impl smoothstep smoothstep_derivative F e params
           inference_params input N output use_inference_params true fresh)
    = Some cache
    /\ backward_impl smoothstep T F MIN ARCH e (Some cache) input N dL_dy
         (Some dL_dx) mode ws g
       = Some (gradients', Some dL_dx')
    /\ forall i j, 0 <= i < N -> 0 <= j < 3 ->
         Qeq (dL_dx' j i)
             (dot (F * n_levels e) (fun k => dL_dy k i)
                (cache_entry (octree_traverse oct) smoothstep
                   smoothstep_derivative F (n_levels e) sl it
                   (if use_inference_params then inference_params else params)
                   input fresh i j)).
Proof.
  intros E Hok Htrav. apply constructor_result in E. subst e.
  unfold n_levels in *. simpl in *.
  set (n := n_levels_of oct sl) in *.
  set (grid := if use_inference_params then inference_params else params).
  pose proof Hok as (HF & Hn & Hs & Hd & HN & Hb).
  pose proof (launch_padding N) as Hp.
  assert (Hnf : 0 < F * n) by nia.
  assert (Ew : U32.mul F n = F * n).
  { unfold U32.mul. apply u32_wrap_small. rewrite modulus_eq. nia. }
  assert (E3 : U32.mul N input_width = 3 * N).
  { unfold U32.mul, input_width. rewrite u32_wrap_small; [lia |].
    rewrite modulus_eq. nia. }
  assert (Hw : (padded_output_width (mk_encoding sl (U32.mul F n) 0 oct it)
                =? 0) = false).
  { unfold padded_output_width, U32.add. simpl. rewrite Ew, Z.add_0_r.
    rewrite u32_wrap_small by (rewrite modulus_eq; nia).
    apply Z.eqb_neq. lia. }
  set (cache := linear_kernel
                  (thread_cache (octree_traverse oct) smoothstep
                     smoothstep_derivative F N n sl it grid input) N fresh).
  exists cache. eexists. eexists. split; [| split].
  - unfold forward_impl. rewrite Hw, andb_false_r. simpl.
    unfold n_levels. simpl. fold n. rewrite launch_effects. reflexivity.
  - unfold backward_impl. rewrite Hw.
    destruct (Z.eqb_spec N 0); [lia |]. simpl. reflexivity.
  - intros i j Hi Hj. unfold n_levels. simpl. fold n. rewrite Ew, E3.
    rewrite linear_kernel_unfold by lia.
    eapply Qeq_trans.
    { apply (backward_input_schedule N (F * n) dL_dy cache);
        try assumption; try lia; try nia.
      - intros t Ht. apply in_range in Ht. lia.
      - apply launch_covers. lia. }
    apply dot_ext. intros k Hk.
    pose proof (Z.div_mod k F ltac:(lia)) as Ek.
    pose proof (Z.mod_pos_bound k F HF) as Bk.
    assert (Hlevel : 0 <= k / F < n).
    { split; [apply Z.div_pos; lia | apply Z.div_lt_upper_bound; lia]. }
    replace (i * (3 * (F * n)) + j * (F * n) + k)
      with (cache_slot F (F * n) i (k / F) j (k mod F))
      by (unfold cache_slot; lia).
    unfold cache_entry.
    destruct (visit_at (sample_traversal (octree_traverse oct) n sl input i)
                (k / F + sl)) as [v |] eqn:Ev.
    + apply visit_at_some in Ev. destruct Ev as [Hin Elv].
      replace (k / F) with (v_level v - sl) by lia.
      apply launch_cache_visited; try assumption; lia.
    + replace (i * (3 * (F * n)) + j * (F * n) + k)
        with (cache_slot F (F * n) i (k / F) j (k mod F))
        by (unfold cache_slot; lia).
      unfold cache.
      rewrite launch_cache_unvisited; try assumption; [reflexivity |].
      intros v Hv. apply (visit_at_none _ _ v Ev Hv).
Qed.

Lemma input_gradient_end_to_end_witness :
  exists cache gradients' dL_dx',
    snd (forward_impl smoothstep_cubic smoothstep_cubic_derivative 2
           (root_only_encoder 2 2) distinct_grid distinct_grid centroid_input
           1 None false true zero_buffer)
    = Some cache
    /\ backward_impl smoothstep_cubic Half 2 75 750 (root_only_encoder 2 2)
         (Some cache) centroid_input 1 ones (Some (fun _ _ => 0%Q)) Ignore
         zero_buffer zero_buffer
       = Some (gradients', Some dL_dx')
    /\ Qeq (dL_dx' 0 0) 4.
Proof.
  destruct (input_gradient_end_to_end smoothstep_cubic
              smoothstep_cubic_derivative Half 2 75 750 0 (root_only_octree 2)
              Linear (root_only_encoder 2 2) distinct_grid distinct_grid
              centroid_input 1 false zero_buffer None ones (fun _ _ => 0%Q)
              Ignore zero_buffer zero_buffer eq_refl
              (root_only_launch_ok 2 2 (or_intror eq_refl) (or_intror eq_refl))
              (fun i _ => traverse_spec_ok root_only_nodes root_only_dual_nodes
                            2 _ ltac:(lia)))
    as (cache & g' & dx' & E1 & E2 & H).
  exists cache, g', dx'. split; [exact E1 |]. split; [exact E2 |].
  eapply Qeq_trans; [apply H; lia |]. vm_compute. reflexivity.
Defined.

(** ** Overwrite mode *)

(** X10.  Over a non-empty batch, with a non-zero output width, a pass in
    [Overwrite] mode leaves gradients that depend neither on what the
    gradient buffer held nor on what the workspace held, on every
    accumulation path. *)
Theorem overwrite_discards_previous smoothstep T F MIN ARCH e input N dL_dy
    dy_dx ws ws' g g' :
  padded_output_width e <> 0 -> N <> 0 ->
  exists g1 g1',
    backward_impl smoothstep T F MIN ARCH e dy_dx input N dL_dy None
      Overwrite ws g = Some (g1, None)
    /\ backward_impl smoothstep T F MIN ARCH e dy_dx input N dL_dy None
         Overwrite ws' g' = Some (g1', None)
    /\ forall idx, 0 <= idx < n_params F e -> Qeq (g1 idx) (g1' idx).
Proof.
  intros Hw HN.
  assert (Hc : (padded_output_width e =? 0) || (N =? 0) = false).
  { destruct (Z.eqb_spec (padded_output_width e) 0); [contradiction |].
    destruct (Z.eqb_spec N 0); [contradiction | reflexivity]. }
  rewrite !backward_impl_params, Hc. eexists. eexists.
  split; [reflexivity |]. split; [reflexivity |].
  intros idx Hidx. rewrite !backward_params_overwrite by exact Hidx.
  reflexivity.
Qed.

Lemma overwrite_discards_previous_witness :
  exists g1 g1',
    backward_impl smoothstep_cubic Float32 2 75 750 (root_only_encoder 2 2)
      None centroid_input 1 ones None Overwrite zero_buffer (fun _ => 3%Q)
    = Some (g1, None)
    /\ backward_impl smoothstep_cubic Float32 2 75 750 (root_only_encoder 2 2)
         None centroid_input 1 ones None Overwrite ones_buffer (fun _ => 5%Q)
       = Some (g1', None)
    /\ Qeq (g1 4) (g1' 4).
Proof.
  destruct (overwrite_discards_previous smoothstep_cubic Float32 2 75 750
              (root_only_encoder 2 2) centroid_input 1 ones None
              zero_buffer ones_buffer (fun _ => 3%Q) (fun _ => 5%Q)
              root_only_width ltac:(discriminate))
    as (g1 & g1' & E1 & E2 & H).
  exists g1, g1'. split; [exact E1 |]. split; [exact E2 |].
  apply H. vm_compute. split; congruence.
Defined.

(** * The render buffer *)

(** ** [CudaSurface2D] *)

(** X12.  [CudaSurface2D::free] may be called twice: the second call
    changes neither the surface nor the byte counter. *)
Theorem free_idempotent (st : RenderBuffer.surface_state) :
  RenderBuffer.free (RenderBuffer.free st) = RenderBuffer.free st.
Proof. reflexivity. Qed.

Lemma resize_changed (size : RenderBuffer.ivec2) (n : Z)
    (st : RenderBuffer.surface_state) :
  size <> RenderBuffer.m_size (fst st)
  \/ n <> RenderBuffer.m_n_channels (fst st) ->
  RenderBuffer.ivec2_eqb size (RenderBuffer.m_size (fst st))
    && (n =? RenderBuffer.m_n_channels (fst st)) = false.
Proof.
  intros H. unfold RenderBuffer.ivec2_eqb.
  destruct size as [a b], (RenderBuffer.m_size (fst st)) as [c d]; simpl.
  destruct (Z.eqb_spec a c), (Z.eqb_spec b d),
    (Z.eqb_spec n (RenderBuffer.m_n_channels (fst st))); simpl; try reflexivity.
  subst. destruct H as [H | H]; contradiction H; reflexivity.
Qed.

(** X13.  A [resize] to an unsupported channel count throws only after
    the surface was freed: the call leaves an empty surface, and the
    counter lowered by the bytes the code counts for the array it held
    (the [int] product of its sizes, times 4, times the channels). *)
Theorem resize_unsupported_channels (size : RenderBuffer.ivec2)
    (n array surface : Z) (st : RenderBuffer.surface_state) :
  n < 1 \/ 4 < n ->
  size <> RenderBuffer.m_size (fst st)
  \/ n <> RenderBuffer.m_n_channels (fst st) ->
  let r := RenderBuffer.resize size n array surface st in
  snd r = Some (RenderBuffer.unsupported_channels n)
  /\ fst (fst r) = RenderBuffer.empty_surface
  /\ snd (fst r)
     = if RenderBuffer.m_array (fst st) =? 0 then snd st
       else RenderBuffer.size_t_wrap
              (snd st
               - RenderBuffer.surface_bytes (RenderBuffer.m_size (fst st))
                   (RenderBuffer.m_n_channels (fst st))).
Proof.
  intros Hn Hch. unfold RenderBuffer.resize.
  rewrite (resize_changed _ _ _ Hch).
  replace ((1 <=? n) && (n <=? 4)) with false
    by (destruct (Z.leb_spec 1 n), (Z.leb_spec n 4); simpl; lia).
  cbv zeta. repeat split.
Qed.

Lemma resize_unsupported_channels_witness :
  let st := (RenderBuffer.mk_surface 7 9 (4, 4) 4, 1000) in
  let r := RenderBuffer.resize (4, 4) 5 11 12 st in
  snd r = Some (RenderBuffer.unsupported_channels 5)
  /\ fst (fst r) = RenderBuffer.empty_surface
  /\ snd (fst r) = 744.
Proof.
  apply (resize_unsupported_channels (4, 4) 5 11 12
           (RenderBuffer.mk_surface 7 9 (4, 4) 4, 1000)).
  - right. lia.
  - right. simpl. lia.
Defined.

(** X14.  A [resize] that allocates adds nothing to the byte counter,
    because the size it multiplies is the one [free] has just zeroed; the
    [free] that follows subtracts the bytes the code counts for the new
    array (the [int] product of its sizes, times 4, times the channels).
    Every allocate-and-free round therefore lowers the counter by that
    amount. *)
Theorem resize_never_counts (size : RenderBuffer.ivec2) (n array surface : Z)
    (st : RenderBuffer.surface_state) :
  1 <= n <= 4 ->
  size <> RenderBuffer.m_size (fst st)
  \/ n <> RenderBuffer.m_n_channels (fst st) ->
  array <> 0 ->
  0 <= snd st < 2 ^ 64 ->
  let r := RenderBuffer.resize size n array surface st in
  snd r = None
  /\ fst (fst r) = RenderBuffer.mk_surface surface array size n
  /\ snd (fst r) = snd (RenderBuffer.free st)
  /\ snd (RenderBuffer.free (fst r))
     = RenderBuffer.size_t_wrap
         (snd (RenderBuffer.free st) - RenderBuffer.surface_bytes size n).
Proof.
  intros Hn Hch Harr Ht. unfold RenderBuffer.resize.
  rewrite (resize_changed _ _ _ Hch).
  replace ((1 <=? n) && (n <=? 4)) with true
    by (destruct (Z.leb_spec 1 n), (Z.leb_spec n 4); simpl; lia).
  cbv zeta.
  assert (Hfree : 0 <= snd (RenderBuffer.free st) < 2 ^ 64).
  { unfold RenderBuffer.free. simpl.
    destruct (RenderBuffer.m_array (fst st) =? 0); [exact Ht |].
    unfold RenderBuffer.size_t_wrap. apply Z.mod_pos_bound. lia. }
  assert (Hsame : RenderBuffer.size_t_wrap
            (snd (RenderBuffer.free st)
             + RenderBuffer.int_product
                 (RenderBuffer.m_size (fst (RenderBuffer.free st)))
               * RenderBuffer.sizeof_float * n)
          = snd (RenderBuffer.free st)).
  { transitivity (RenderBuffer.size_t_wrap (snd (RenderBuffer.free st))).
    - f_equal. cbn [RenderBuffer.free fst snd RenderBuffer.m_size].
      change (RenderBuffer.int_product (0, 0)) with 0. lia.
    - unfold RenderBuffer.size_t_wrap. apply Z.mod_small. exact Hfree. }
  split; [reflexivity |]. split; [reflexivity |].
  split; [exact Hsame |].
  unfold RenderBuffer.free at 1. cbn [fst snd RenderBuffer.m_array
    RenderBuffer.m_size RenderBuffer.m_n_channels].
  destruct (Z.eqb_spec array 0) as [E | _]; [contradiction |].
  rewrite Hsame. reflexivity.
Qed.

Lemma resize_never_counts_witness :
  let st := (RenderBuffer.empty_surface, 1000) in
  let r := RenderBuffer.resize (4, 4) 4 11 12 st in
  snd r = None
  /\ fst (fst r) = RenderBuffer.mk_surface 12 11 (4, 4) 4
  /\ snd (fst r) = 1000
  /\ snd (RenderBuffer.free (fst r)) = 744.
Proof.
  apply (resize_never_counts (4, 4) 4 11 12 (RenderBuffer.empty_surface, 1000)).
  - lia.
  - right. simpl. lia.
  - lia.
  - simpl. lia.
Defined.

(** At 65536 x 65536 the [int] product wraps to 0: the code counts no
    bytes for a surface of that size. *)
Lemma surface_bytes_wraps : RenderBuffer.surface_bytes (65536, 65536) 4 = 0.
Proof. reflexivity. Qed.

(** ** Two-dimensional launches *)

Lemma NoDup_range (n : Z) : NoDup (range n).
Proof.
  unfold range. apply NoDup_map_NoDup_ForallPairs.
  - intros a b _ _. apply Nat2Z.inj.
  - apply seq_NoDup.
Qed.

(** When exactly one element of a duplicate-free list changes what is
    observed, the fold changes it the way that element does. *)
Lemma fold_single_hit {S T A : Type} (step : S -> T -> S) (obs : S -> A)
    (g : A -> A) (l : list T) (t0 : T) :
  NoDup l -> In t0 l ->
  (forall s, obs (step s t0) = g (obs s)) ->
  (forall s t, In t l -> t <> t0 -> obs (step s t) = obs s) ->
  forall s, obs (fold_left step l s) = g (obs s).
Proof.
  induction l as [| a l IH]; intros ND Hin Hhit Hmiss s; [contradiction |].
  simpl. inversion ND as [| ? ? Hnotin ND']; subst.
  destruct Hin as [-> | Hin].
  - transitivity (obs (step s t0)); [| apply Hhit].
    apply (fold_left_preserves step (fun s' => obs s' = obs (step s t0))).
    + reflexivity.
    + intros s' b Hb Hs'. rewrite Hmiss; [exact Hs' | right; exact Hb |].
      intros ->. contradiction.
  - rewrite IH; [| exact ND' | exact Hin | exact Hhit |].
    + rewrite Hmiss; [reflexivity | left; reflexivity |].
      intros ->. contradiction.
    + intros s' t Ht Hne. apply Hmiss; [right; exact Ht | exact Hne].
Qed.

Lemma product_bounds (w h : Z) :
  RenderBuffer.resolution_ok (w, h) ->
  0 < w < 2 ^ 31 /\ 0 < h < 2 ^ 31 /\ w * h < 2 ^ 31.
Proof.
  unfold RenderBuffer.resolution_ok, RenderBuffer.product. simpl.
  intros (Hw & Hh & Hp). nia.
Qed.

Lemma pixel_index (w h x y : Z) :
  RenderBuffer.resolution_ok (w, h) -> 0 <= x < w -> 0 <= y < h ->
  U32.add x (U32.mul (U32.wrap w) y) = x + w * y.
Proof.
  intros Hres Hx Hy. destruct (product_bounds w h Hres) as (Hw & Hh & Hp).
  unfold U32.add, U32.mul.
  rewrite (u32_wrap_small w) by (rewrite modulus_eq; lia).
  assert (0 <= w * y /\ x + w * y < w * h) by nia.
  rewrite (u32_wrap_small (w * y)) by (rewrite modulus_eq; lia).
  apply u32_wrap_small. rewrite modulus_eq. lia.
Qed.

Lemma div_round_up_covers (n d : Z) :
  0 < n < 2 ^ 31 -> 0 < d <= 16 ->
  n <= RenderBuffer.div_round_up (U32.wrap n) d * d.
Proof.
  intros Hn Hd. unfold RenderBuffer.div_round_up, U32.sub, U32.add.
  rewrite (u32_wrap_small n) by (rewrite modulus_eq; lia).
  rewrite (u32_wrap_small (n + d)) by (rewrite modulus_eq; lia).
  rewrite (u32_wrap_small (n + d - 1)) by (rewrite modulus_eq; lia).
  pose proof (Z.div_mod (n + d - 1) d ltac:(lia)) as E.
  pose proof (Z.mod_pos_bound (n + d - 1) d ltac:(lia)) as B.
  nia.
Qed.

Section AccumulateLaunch.

Variable linear_to_srgb : vec3 -> vec3.
Variables w h : Z.
Variable frame : RenderBuffer.buffer4.
Variable sample_count : Q.
Variable color_space : RenderBuffer.EColorSpace.
Hypothesis Hres : RenderBuffer.resolution_ok (w, h).

Local Abbreviation a_kernel :=
  (RenderBuffer.accumulate_kernel linear_to_srgb (w, h) frame sample_count
     color_space).
Local Abbreviation a_pixel :=
  (RenderBuffer.accumulate_pixel linear_to_srgb sample_count color_space).

(** What one thread does to one entry of the accumulate buffer. *)
Lemma accumulate_kernel_at (x y j : Z) (acc : RenderBuffer.buffer4) :
  0 <= x -> 0 <= y ->
  a_kernel x y acc j
  = if (x <? w) && (y <? h) && (j =? x + w * y)
    then a_pixel (frame j) (acc j) else acc j.
Proof.
  intros Hx Hy. destruct (product_bounds w h Hres) as (Hw & Hh & Hp).
  unfold RenderBuffer.accumulate_kernel. cbn [fst snd].
  rewrite (u32_wrap_small w) by (rewrite modulus_eq; lia).
  rewrite (u32_wrap_small h) by (rewrite modulus_eq; lia).
  destruct (Z.leb_spec w x), (Z.ltb_spec x w); try lia; simpl;
    [reflexivity |].
  destruct (Z.leb_spec h y), (Z.ltb_spec y h); try lia; simpl;
    [reflexivity |].
  pose proof (pixel_index w h x y Hres ltac:(lia) ltac:(lia)) as E.
  unfold U32.add, U32.mul in E.
  rewrite (u32_wrap_small w) in E by (rewrite modulus_eq; lia).
  unfold U32.add, U32.mul. rewrite E.
  unfold RenderBuffer.buffer4_set.
  destruct (Z.eqb_spec j (x + w * y)) as [-> | _]; reflexivity.
Qed.

(** The launch applies the pixel function once to every pixel. *)
Lemma launch_accumulate_pixel (bx by_ x y : Z) (acc : RenderBuffer.buffer4) :
  0 <= x < w -> 0 <= y < h -> w <= bx * 16 -> h <= by_ * 8 ->
  RenderBuffer.launch_2d a_kernel bx by_ acc (x + w * y)
  = a_pixel (frame (x + w * y)) (acc (x + w * y)).
Proof.
  intros Hx Hy Hbx Hby. unfold RenderBuffer.launch_2d.
  apply (fold_single_hit
           (fun st y' => fold_left (fun st x' => a_kernel x' y' st)
                           (range (bx * 16)) st)
           (fun b : RenderBuffer.buffer4 => b (x + w * y))
           (fun c => a_pixel (frame (x + w * y)) c)
           (range (by_ * 8)) y).
  - apply NoDup_range.
  - apply in_range. lia.
  - intros s.
    apply (fold_single_hit (fun st x' => a_kernel x' y st)
             (fun b : RenderBuffer.buffer4 => b (x + w * y))
             (fun c => a_pixel (frame (x + w * y)) c)
             (range (bx * 16)) x).
    + apply NoDup_range.
    + apply in_range. lia.
    + intros s'. rewrite accumulate_kernel_at by lia.
      destruct (Z.ltb_spec x w), (Z.ltb_spec y h); try lia.
      rewrite Z.eqb_refl. reflexivity.
    + intros s' x' Hin Hne. apply in_range in Hin.
      rewrite accumulate_kernel_at by lia.
      destruct (Z.eqb_spec (x + w * y) (x' + w * y)); [lia |].
      rewrite andb_false_r. reflexivity.
  - intros s y' Hin Hne. apply in_range in Hin.
    apply (fold_left_preserves (fun st x' => a_kernel x' y' st)
             (fun b : RenderBuffer.buffer4 => b (x + w * y) = s (x + w * y))).
    + reflexivity.
    + intros b x' Hin' Hb. apply in_range in Hin'.
      rewrite accumulate_kernel_at by lia.
      destruct (Z.ltb_spec x' w); simpl; [| exact Hb].
      destruct (Z.eqb_spec (x + w * y) (x' + w * y')); [nia |].
      rewrite andb_false_r. exact Hb.
Qed.

(** The launch leaves every entry that is no pixel of the image. *)
Lemma launch_accumulate_outside (bx by_ j : Z) (acc : RenderBuffer.buffer4) :
  ~ (0 <= j < w * h) ->
  RenderBuffer.launch_2d a_kernel bx by_ acc j = acc j.
Proof.
  intros Hj. unfold RenderBuffer.launch_2d.
  apply (fold_left_preserves
           (fun st y' => fold_left (fun st x' => a_kernel x' y' st)
                           (range (bx * 16)) st)
           (fun b : RenderBuffer.buffer4 => b j = acc j)).
  - reflexivity.
  - intros s y' Hin Hs. apply in_range in Hin.
    apply (fold_left_preserves (fun st x' => a_kernel x' y' st)
             (fun b : RenderBuffer.buffer4 => b j = acc j)).
    + exact Hs.
    + intros b x' Hin' Hb. apply in_range in Hin'.
      rewrite accumulate_kernel_at by lia.
      destruct (Z.ltb_spec x' w); simpl; [| exact Hb].
      destruct (Z.ltb_spec y' h); simpl; [| exact Hb].
      destruct (Z.eqb_spec j (x' + w * y')); [| exact Hb].
      exfalso. apply Hj. nia.
Qed.

End AccumulateLaunch.

(** ** [CudaRenderBuffer::accumulate] *)

(** One call: the counter goes up by one, the pixel is the pixel function
    of the frame and of the buffer, cleared first when the count is 0. *)
Lemma accumulate_step (linear_to_srgb : vec3 -> vec3)
    (rb : RenderBuffer.CudaRenderBuffer) (x y : Z) :
  RenderBuffer.resolution_ok (RenderBuffer.m_in_resolution rb) ->
  0 <= x < fst (RenderBuffer.m_in_resolution rb) ->
  0 <= y < snd (RenderBuffer.m_in_resolution rb) ->
  let idx := x + fst (RenderBuffer.m_in_resolution rb) * y in
  let accum_spp :=
    if RenderBuffer.m_dlss rb then 0 else RenderBuffer.m_spp rb in
  RenderBuffer.m_accumulate_buffer (RenderBuffer.accumulate linear_to_srgb rb)
    idx
  = RenderBuffer.accumulate_pixel linear_to_srgb (inject_Z accum_spp)
      (RenderBuffer.m_color_space rb) (RenderBuffer.m_frame_buffer rb idx)
      (if accum_spp =? 0 then RenderBuffer.vec4_zero
       else RenderBuffer.m_accumulate_buffer rb idx).
Proof.
  destruct rb as [spp dlss cs [w h] frame acc]. cbn [RenderBuffer.m_spp
    RenderBuffer.m_dlss RenderBuffer.m_color_space
    RenderBuffer.m_in_resolution RenderBuffer.m_frame_buffer
    RenderBuffer.m_accumulate_buffer fst snd].
  intros Hres Hx Hy. cbv zeta.
  destruct (product_bounds w h Hres) as (Hw & Hh & Hp).
  unfold RenderBuffer.accumulate. cbn [RenderBuffer.m_spp
    RenderBuffer.m_dlss RenderBuffer.m_color_space
    RenderBuffer.m_in_resolution RenderBuffer.m_frame_buffer
    RenderBuffer.m_accumulate_buffer fst snd].
  rewrite (launch_accumulate_pixel linear_to_srgb w h frame _ cs Hres).
  - destruct ((if dlss then 0 else spp) =? 0); reflexivity.
  - exact Hx.
  - exact Hy.
  - apply div_round_up_covers; lia.
  - apply div_round_up_covers; lia.
Qed.

(** One call leaves what is no pixel of the image as it was, after the
    clearing. *)
Lemma accumulate_outside (linear_to_srgb : vec3 -> vec3)
    (rb : RenderBuffer.CudaRenderBuffer) (j : Z) :
  RenderBuffer.resolution_ok (RenderBuffer.m_in_resolution rb) ->
  ~ (0 <= j < RenderBuffer.product (RenderBuffer.m_in_resolution rb)) ->
  let accum_spp :=
    if RenderBuffer.m_dlss rb then 0 else RenderBuffer.m_spp rb in
  RenderBuffer.m_accumulate_buffer (RenderBuffer.accumulate linear_to_srgb rb) j
  = if accum_spp =? 0 then RenderBuffer.vec4_zero
    else RenderBuffer.m_accumulate_buffer rb j.
Proof.
  destruct rb as [spp dlss cs [w h] frame acc]. cbn [RenderBuffer.m_spp
    RenderBuffer.m_dlss RenderBuffer.m_color_space
    RenderBuffer.m_in_resolution RenderBuffer.m_frame_buffer
    RenderBuffer.m_accumulate_buffer fst snd].
  unfold RenderBuffer.product. cbn [fst snd].
  intros Hres Hj. cbv zeta.
  unfold RenderBuffer.accumulate. cbn [RenderBuffer.m_spp
    RenderBuffer.m_dlss RenderBuffer.m_color_space
    RenderBuffer.m_in_resolution RenderBuffer.m_frame_buffer
    RenderBuffer.m_accumulate_buffer fst snd].
  rewrite (launch_accumulate_outside linear_to_srgb w h frame _ cs Hres)
    by exact Hj.
  destruct ((if dlss then 0 else spp) =? 0); reflexivity.
Qed.

Lemma inject_Z_zero_mean (t c : Q) :
  Qeq ((t * inject_Z 0 + c) / (inject_Z 0 + 1)) c.
Proof. change (inject_Z 0) with 0%Q. field. Qed.

(** The positive and the negative part of a signed value. *)
Lemma Qmax_split (t : Q) :
  Qeq (Qmax t 0 - Qmax (- t) 0) t
  /\ (0 <= Qmax t 0)%Q /\ (0 <= Qmax (- t) 0)%Q
  /\ Qeq (Qmax t 0 * Qmax (- t) 0) 0.
Proof.
  destruct (Qlt_le_dec t 0) as [Hneg | Hpos].
  - assert (E1 : Qeq (Qmax t 0) 0) by (apply Q.max_r; lra).
    assert (E2 : Qeq (Qmax (- t) 0) (- t)) by (apply Q.max_l; lra).
    rewrite E1, E2. repeat split; try lra; ring.
  - assert (E1 : Qeq (Qmax t 0) t) by (apply Q.max_l; lra).
    assert (E2 : Qeq (Qmax (- t) 0) 0) by (apply Q.max_r; lra).
    rewrite E1, E2. repeat split; try lra; ring.
Qed.

(** X15.  One call of [accumulate] without DLSS, in the linear or the
    sRGB colour space and with a sample count [k] below 2^24 (which the
    cast to [float] keeps): every pixel of the image is visited by
    exactly one thread and becomes, channel by channel,
    [(old * k + sample) / (k + 1)], the sample being the colour of the
    frame (converted to sRGB in the sRGB space); for [k = 0] it becomes
    the sample itself, whatever the buffer held.  The entries that are
    no pixel of the image stay as they were for [k > 0] and are cleared
    for [k = 0]; the sample counter becomes [k + 1]. *)
Theorem accumulate_once (linear_to_srgb : vec3 -> vec3)
    (rb : RenderBuffer.CudaRenderBuffer) (x y j : Z) :
  RenderBuffer.resolution_ok (RenderBuffer.m_in_resolution rb) ->
  0 <= x < fst (RenderBuffer.m_in_resolution rb) ->
  0 <= y < snd (RenderBuffer.m_in_resolution rb) ->
  ~ (0 <= j < RenderBuffer.product (RenderBuffer.m_in_resolution rb)) ->
  RenderBuffer.m_dlss rb = false ->
  0 <= RenderBuffer.m_spp rb < 2 ^ 24 ->
  RenderBuffer.m_color_space rb <> RenderBuffer.VisPosNeg ->
  let idx := x + fst (RenderBuffer.m_in_resolution rb) * y in
  let k := RenderBuffer.m_spp rb in
  let old := RenderBuffer.m_accumulate_buffer rb idx in
  let sample :=
    RenderBuffer.frame_sample linear_to_srgb (RenderBuffer.m_color_space rb)
      (RenderBuffer.m_frame_buffer rb idx) in
  let out := RenderBuffer.accumulate linear_to_srgb rb in
  let mean (channel : RenderBuffer.vec4 -> Q) : Q :=
    if k =? 0 then channel sample
    else RenderBuffer.mean_step (inject_Z k) (channel old) (channel sample) in
  RenderBuffer.m_spp out = k + 1
  /\ Qeq (RenderBuffer.c_r (RenderBuffer.m_accumulate_buffer out idx))
       (mean RenderBuffer.c_r)
  /\ Qeq (RenderBuffer.c_g (RenderBuffer.m_accumulate_buffer out idx))
       (mean RenderBuffer.c_g)
  /\ Qeq (RenderBuffer.c_b (RenderBuffer.m_accumulate_buffer out idx))
       (mean RenderBuffer.c_b)
  /\ Qeq (RenderBuffer.c_a (RenderBuffer.m_accumulate_buffer out idx))
       (mean RenderBuffer.c_a)
  /\ RenderBuffer.m_accumulate_buffer out j
     = if k =? 0 then RenderBuffer.vec4_zero
       else RenderBuffer.m_accumulate_buffer rb j.
Proof.
  intros Hres Hx Hy Hj Hdlss Hk Hcs. cbv zeta.
  pose proof (accumulate_step linear_to_srgb rb x y Hres Hx Hy) as E.
  pose proof (accumulate_outside linear_to_srgb rb j Hres Hj) as Eout.
  cbv zeta in E, Eout. rewrite Hdlss in E, Eout.
  split.
  { unfold RenderBuffer.accumulate. cbn [RenderBuffer.m_spp].
    unfold U32.add. apply u32_wrap_small. rewrite modulus_eq. lia. }
  rewrite E, Eout. clear E Eout.
  destruct (Z.eqb_spec (RenderBuffer.m_spp rb) 0) as [E0 | Hpos].
  - rewrite E0.
    destruct (RenderBuffer.m_color_space rb);
      [| | contradiction Hcs; reflexivity];
      repeat split; cbn; apply inject_Z_zero_mean.
  - destruct (RenderBuffer.m_color_space rb);
      [| | contradiction Hcs; reflexivity];
      repeat split; reflexivity.
Qed.

Lemma accumulate_once_witness :
  let dark : RenderBuffer.buffer4 := fun _ => RenderBuffer.mk_vec4 0 0 0 1 in
  let bright : RenderBuffer.buffer4 := fun _ => RenderBuffer.mk_vec4 1 1 1 1 in
  let rb :=
    RenderBuffer.mk_render_buffer 1 false RenderBuffer.Linear (2, 2) bright
      dark in
  let out := RenderBuffer.accumulate (fun v => v) rb in
  RenderBuffer.m_spp out = 2
  /\ Qeq (RenderBuffer.c_r (RenderBuffer.m_accumulate_buffer out 3)) (1 # 2)
  /\ RenderBuffer.m_accumulate_buffer out 4 = RenderBuffer.mk_vec4 0 0 0 1.
Proof.
  intros dark bright rb out.
  destruct (accumulate_once (fun v => v) rb 1 1 4)
    as (Hspp & Hr & _ & _ & _ & Hout).
  - unfold RenderBuffer.resolution_ok, RenderBuffer.product. simpl. lia.
  - simpl. lia.
  - simpl. lia.
  - unfold RenderBuffer.product. simpl. lia.
  - reflexivity.
  - simpl. lia.
  - discriminate.
  - split; [exact Hspp |]. split; [| exact Hout].
    cbv zeta in Hr. simpl in Hr. unfold out. simpl. rewrite Hr. reflexivity.
Defined.

(** X16.  In the positive/negative visualisation one call of
    [accumulate] (sample count below 2^24) leaves in the first two
    channels of every pixel the split of one signed value: neither
    channel is negative, at most one is not zero, and their difference
    is [(old * k + sample) / (k + 1)] for the differences [r - g] of the
    buffer and of the frame, [k] being the sample count the kernel is
    given and the buffer counting as cleared when that is 0.  The third
    channel is not written by the kernel. *)
Theorem accumulate_vis_pos_neg (linear_to_srgb : vec3 -> vec3)
    (rb : RenderBuffer.CudaRenderBuffer) (x y : Z) :
  RenderBuffer.resolution_ok (RenderBuffer.m_in_resolution rb) ->
  0 <= x < fst (RenderBuffer.m_in_resolution rb) ->
  0 <= y < snd (RenderBuffer.m_in_resolution rb) ->
  0 <= RenderBuffer.m_spp rb < 2 ^ 24 ->
  RenderBuffer.m_color_space rb = RenderBuffer.VisPosNeg ->
  let idx := x + fst (RenderBuffer.m_in_resolution rb) * y in
  let k := if RenderBuffer.m_dlss rb then 0 else RenderBuffer.m_spp rb in
  let old :=
    if k =? 0 then RenderBuffer.vec4_zero
    else RenderBuffer.m_accumulate_buffer rb idx in
  let color := RenderBuffer.m_frame_buffer rb idx in
  let out :=
    RenderBuffer.m_accumulate_buffer (RenderBuffer.accumulate linear_to_srgb rb)
      idx in
  (0 <= RenderBuffer.c_r out)%Q
  /\ (0 <= RenderBuffer.c_g out)%Q
  /\ Qeq (RenderBuffer.c_r out * RenderBuffer.c_g out) 0
  /\ Qeq (RenderBuffer.c_r out - RenderBuffer.c_g out)
       (RenderBuffer.mean_step (inject_Z k)
          (RenderBuffer.c_r old - RenderBuffer.c_g old)
          (RenderBuffer.c_r color - RenderBuffer.c_g color))
  /\ RenderBuffer.c_b out = RenderBuffer.c_b old.
Proof.
  intros Hres Hx Hy Hk Hcs. cbv zeta.
  pose proof (accumulate_step linear_to_srgb rb x y Hres Hx Hy) as E.
  cbv zeta in E. rewrite E, Hcs. clear E.
  set (k := if RenderBuffer.m_dlss rb then 0 else RenderBuffer.m_spp rb).
  set (old := if k =? 0 then RenderBuffer.vec4_zero
              else RenderBuffer.m_accumulate_buffer rb
                     (x + fst (RenderBuffer.m_in_resolution rb) * y)).
  set (color := RenderBuffer.m_frame_buffer rb
                  (x + fst (RenderBuffer.m_in_resolution rb) * y)).
  cbn. unfold RenderBuffer.mean_step.
  destruct (Qmax_split
              (((RenderBuffer.c_r old - RenderBuffer.c_g old) * inject_Z k
                + (RenderBuffer.c_r color - RenderBuffer.c_g color))
               / (inject_Z k + 1))) as (Hd & Hr & Hg & Hz).
  repeat split; assumption || reflexivity.
Qed.

Lemma accumulate_vis_pos_neg_witness :
  let old : RenderBuffer.buffer4 := fun _ => RenderBuffer.mk_vec4 3 0 7 1 in
  let frame : RenderBuffer.buffer4 := fun _ => RenderBuffer.mk_vec4 0 5 0 1 in
  let rb :=
    RenderBuffer.mk_render_buffer 1 false RenderBuffer.VisPosNeg (2, 2) frame
      old in
  let out :=
    RenderBuffer.m_accumulate_buffer (RenderBuffer.accumulate (fun v => v) rb)
      3 in
  Qeq (RenderBuffer.c_r out - RenderBuffer.c_g out) (- 1)
  /\ RenderBuffer.c_b out = 7%Q.
Proof.
  intros old frame rb out.
  destruct (accumulate_vis_pos_neg (fun v => v) rb 1 1)
    as (_ & _ & _ & Hd & Hb).
  - unfold RenderBuffer.resolution_ok, RenderBuffer.product. simpl. lia.
  - simpl. lia.
  - simpl. lia.
  - simpl. lia.
  - reflexivity.
  - split; [| exact Hb].
    cbv zeta in Hd. simpl in Hd. unfold out. simpl. rewrite Hd. reflexivity.
Defined.

(** X17.  With DLSS enabled nothing is averaged, in any colour space:
    whatever the sample counter and the accumulate buffer were, one call
    of [accumulate] leaves in every pixel what the frame gives on its
    own - its colour in the linear space, its colour converted to sRGB
    in the sRGB space, and in the positive/negative visualisation the
    positive and the negative part of the frame's [r - g], a third
    channel of 0 and the frame's alpha - and the sample counter is
    advanced all the same. *)
Theorem accumulate_dlss_latest_frame (linear_to_srgb : vec3 -> vec3)
    (rb : RenderBuffer.CudaRenderBuffer) (x y : Z) :
  RenderBuffer.resolution_ok (RenderBuffer.m_in_resolution rb) ->
  0 <= x < fst (RenderBuffer.m_in_resolution rb) ->
  0 <= y < snd (RenderBuffer.m_in_resolution rb) ->
  RenderBuffer.m_dlss rb = true ->
  let idx := x + fst (RenderBuffer.m_in_resolution rb) * y in
  let out := RenderBuffer.accumulate linear_to_srgb rb in
  let color :=
    RenderBuffer.latest_sample linear_to_srgb (RenderBuffer.m_color_space rb)
      (RenderBuffer.m_frame_buffer rb idx) in
  RenderBuffer.m_spp out = U32.add (RenderBuffer.m_spp rb) 1
  /\ Qeq (RenderBuffer.c_r (RenderBuffer.m_accumulate_buffer out idx))
       (RenderBuffer.c_r color)
  /\ Qeq (RenderBuffer.c_g (RenderBuffer.m_accumulate_buffer out idx))
       (RenderBuffer.c_g color)
  /\ Qeq (RenderBuffer.c_b (RenderBuffer.m_accumulate_buffer out idx))
       (RenderBuffer.c_b color)
  /\ Qeq (RenderBuffer.c_a (RenderBuffer.m_accumulate_buffer out idx))
       (RenderBuffer.c_a color).
Proof.
  intros Hres Hx Hy Hdlss. cbv zeta.
  split; [reflexivity |].
  pose proof (accumulate_step linear_to_srgb rb x y Hres Hx Hy) as E.
  cbv zeta in E. rewrite Hdlss in E. rewrite E. clear E.
  rewrite Z.eqb_refl.
  destruct (RenderBuffer.m_color_space rb).
  - repeat split; cbn; apply inject_Z_zero_mean.
  - repeat split; cbn; apply inject_Z_zero_mean.
  - cbn. split; [| split; [| split]].
    + apply Q.max_compat; [apply inject_Z_zero_mean | reflexivity].
    + apply Q.max_compat; [| reflexivity].
      apply Qopp_comp. apply inject_Z_zero_mean.
    + reflexivity.
    + apply inject_Z_zero_mean.
Qed.

Lemma accumulate_dlss_latest_frame_witness :
  let old : RenderBuffer.buffer4 := fun _ => RenderBuffer.mk_vec4 9 9 9 9 in
  let frame : RenderBuffer.buffer4 := fun _ => RenderBuffer.mk_vec4 1 3 5 1 in
  let rb :=
    RenderBuffer.mk_render_buffer 5 true RenderBuffer.VisPosNeg (2, 2) frame
      old in
  let out :=
    RenderBuffer.m_accumulate_buffer (RenderBuffer.accumulate (fun v => v) rb)
      3 in
  Qeq (RenderBuffer.c_r out) 0 /\ Qeq (RenderBuffer.c_g out) 2
  /\ Qeq (RenderBuffer.c_b out) 0.
Proof.
  intros old frame rb out.
  destruct (accumulate_dlss_latest_frame (fun v => v) rb 1 1)
    as (_ & Hr & Hg & Hb & _).
  - unfold RenderBuffer.resolution_ok, RenderBuffer.product. simpl. lia.
  - simpl. lia.
  - simpl. lia.
  - reflexivity.
  - cbv zeta in Hr, Hg, Hb. split; [| split].
    + eapply Qeq_trans; [exact Hr | vm_compute; reflexivity].
    + eapply Qeq_trans; [exact Hg | vm_compute; reflexivity].
    + eapply Qeq_trans; [exact Hb | vm_compute; reflexivity].
Defined.

(** ** Tone mapping *)

Lemma aces_coefficients_ok : RenderBuffer.coefficients_ok RenderBuffer.aces_coefficients.
Proof. vm_compute. repeat split; discriminate. Qed.

Lemma hable_coefficients_ok : RenderBuffer.coefficients_ok RenderBuffer.hable_coefficients.
Proof. vm_compute. repeat split; discriminate. Qed.

Lemma rational_curve_sign (k : Q * Q * Q * Q * Q * Q) (t : Q) :
  RenderBuffer.coefficients_ok k -> (0 <= t)%Q ->
  (0 < RenderBuffer.curve_denom k t)%Q
  /\ (0 <= RenderBuffer.curve_nom k t / RenderBuffer.curve_denom k t)%Q.
Proof.
  destruct k as [[[[[k0 k1] k2] k3] k4] k5].
  intros (H0 & H1 & H2 & H3 & H4 & H5) Ht.
  unfold RenderBuffer.curve_denom, RenderBuffer.curve_nom.
  assert (Htt : (0 <= t * t)%Q) by (apply Qmult_le_0_compat; assumption).
  assert (Hd : (0 < k3 * (t * t) + k4 * t + k5)%Q).
  { pose proof (Qmult_le_0_compat _ _ H3 Htt).
    pose proof (Qmult_le_0_compat _ _ H4 Ht). lra. }
  split; [exact Hd |].
  apply Qmult_le_0_compat.
  - pose proof (Qmult_le_0_compat _ _ Htt H0).
    pose proof (Qmult_le_0_compat _ _ H1 Ht). lra.
  - apply Qinv_le_0_compat. apply Qlt_le_weak. exact Hd.
Qed.

Lemma luminance_nonneg (x : vec3) :
  (0 <= vx x)%Q -> (0 <= vy x)%Q -> (0 <= vz x)%Q ->
  (0 <= RenderBuffer.luminance x)%Q.
Proof. intros Hx Hy Hz. unfold RenderBuffer.luminance. lra. Qed.

Lemma Qmax_zero_nonneg (t : Q) : (0 <= Qmax t 0)%Q.
Proof. apply Q.le_max_r. Qed.

(** X18.  Every curve but the identity returns a colour without negative
    channels, whatever the colour it is given. *)
Theorem tonemap_nonnegative (x : vec3) (curve : RenderBuffer.ETonemapCurve) :
  curve <> RenderBuffer.Identity ->
  (0 <= vx (RenderBuffer.tonemap_curve x curve))%Q
  /\ (0 <= vy (RenderBuffer.tonemap_curve x curve))%Q
  /\ (0 <= vz (RenderBuffer.tonemap_curve x curve))%Q.
Proof.
  intros Hc. destruct curve; [contradiction Hc; reflexivity | | |]; cbn.
  - repeat split;
      apply (rational_curve_sign _ _ aces_coefficients_ok (Qmax_zero_nonneg _)).
  - repeat split;
      apply (rational_curve_sign _ _ hable_coefficients_ok (Qmax_zero_nonneg _)).
  - set (c := RenderBuffer.v3_map (fun t => Qmax t 0) x).
    assert (HY : (0 <= RenderBuffer.luminance c)%Q)
      by (apply luminance_nonneg; apply Qmax_zero_nonneg).
    assert (Hs : (0 <= 1 / (RenderBuffer.luminance c + 1))%Q).
    { apply Qmult_le_0_compat; [lra |]. apply Qinv_le_0_compat. lra. }
    repeat split; apply Qmult_le_0_compat;
      solve [apply Qmax_zero_nonneg | exact Hs].
Qed.

Lemma tonemap_nonnegative_witness :
  (0 <= vx (RenderBuffer.tonemap_curve (mk_vec3 (- 1) 2 3) RenderBuffer.ACES))%Q.
Proof.
  apply (tonemap_nonnegative (mk_vec3 (- 1) 2 3) RenderBuffer.ACES).
  discriminate.
Defined.

(** X19.  No curve divides by zero: the denominators of the two rational
    curves are positive on the clamped channels, and so is the one of the
    Reinhard curve. *)
Theorem tonemap_denominators_positive (x : vec3) (t : Q) :
  (0 < RenderBuffer.curve_denom RenderBuffer.aces_coefficients (Qmax t 0))%Q
  /\ (0 < RenderBuffer.curve_denom RenderBuffer.hable_coefficients
            (Qmax t 0))%Q
  /\ (0 < RenderBuffer.luminance
            (RenderBuffer.v3_map (fun t => Qmax t 0) x) + 1)%Q.
Proof.
  split; [| split].
  - apply (rational_curve_sign _ _ aces_coefficients_ok (Qmax_zero_nonneg _)).
  - apply (rational_curve_sign _ _ hable_coefficients_ok (Qmax_zero_nonneg _)).
  - assert (0 <= RenderBuffer.luminance
                   (RenderBuffer.v3_map (fun t => Qmax t 0) x))%Q
      by (apply luminance_nonneg; apply Qmax_zero_nonneg).
    lra.
Qed.

Lemma clamp01_inside (t : Q) : (0 <= t <= 1)%Q -> Qeq (RenderBuffer.clamp01 t) t.
Proof.
  intros [H0 H1]. unfold RenderBuffer.clamp01.
  rewrite (Q.max_l t 0) by exact H0. apply Q.min_l. exact H1.
Qed.

(** The alpha [tonemap_pixel] returns, before the clamp. *)
Lemma tonemap_pixel_alpha_raw (linear_to_srgb srgb_to_linear : vec3 -> vec3)
    (exp2 : Q -> Q) (exposure : Q) (background_color : RenderBuffer.vec4)
    (color_space output_color_space : RenderBuffer.EColorSpace)
    (curve : RenderBuffer.ETonemapCurve) (unmultiply_alpha : bool)
    (color : RenderBuffer.vec4) :
  RenderBuffer.c_a
    (RenderBuffer.tonemap_pixel linear_to_srgb srgb_to_linear exp2 exposure
       background_color color_space output_color_space curve false
       unmultiply_alpha color)
  = (RenderBuffer.c_a color
     + (1 - RenderBuffer.c_a color) * RenderBuffer.c_a background_color)%Q.
Proof.
  unfold RenderBuffer.tonemap_pixel.
  destruct (RenderBuffer.is_srgb color_space); cbn;
    destruct unmultiply_alpha; cbn;
    try match goal with
        | |- context [RenderBuffer.Qpositive ?a] =>
            destruct (RenderBuffer.Qpositive a)
        end; reflexivity.
Qed.

(** X21.  [tonemap_kernel] composites the pixel over the background
    before anything else, and neither the curve, nor the division by
    alpha, nor the clamp touches the result: for alphas in [0, 1] the
    alpha written is [a + (1 - a) * background], it lies in [0, 1] and is
    not below the alpha of the pixel. *)
Theorem tonemap_pixel_alpha (linear_to_srgb srgb_to_linear : vec3 -> vec3)
    (exp2 : Q -> Q) (exposure : Q) (background_color : RenderBuffer.vec4)
    (color_space output_color_space : RenderBuffer.EColorSpace)
    (curve : RenderBuffer.ETonemapCurve)
    (clamp_output_color unmultiply_alpha : bool) (color : RenderBuffer.vec4) :
  (0 <= RenderBuffer.c_a color <= 1)%Q ->
  (0 <= RenderBuffer.c_a background_color <= 1)%Q ->
  let out :=
    RenderBuffer.c_a
      (RenderBuffer.tonemap_pixel linear_to_srgb srgb_to_linear exp2 exposure
         background_color color_space output_color_space curve
         clamp_output_color unmultiply_alpha color) in
  Qeq out
    (RenderBuffer.c_a color
     + (1 - RenderBuffer.c_a color) * RenderBuffer.c_a background_color)
  /\ (RenderBuffer.c_a color <= out)%Q /\ (out <= 1)%Q.
Proof.
  intros Ha Hb. cbv zeta.
  pose proof (tonemap_pixel_alpha_raw linear_to_srgb srgb_to_linear exp2
                exposure background_color color_space output_color_space curve
                unmultiply_alpha color) as Raw.
  set (a := RenderBuffer.c_a color) in *.
  set (b := RenderBuffer.c_a background_color) in *.
  assert (Hrange : (a <= a + (1 - a) * b)%Q /\ (a + (1 - a) * b <= 1)%Q)
    by (split; nra).
  assert (E : Qeq (RenderBuffer.c_a
                     (RenderBuffer.tonemap_pixel linear_to_srgb srgb_to_linear
                        exp2 exposure background_color color_space
                        output_color_space curve clamp_output_color
                        unmultiply_alpha color))
                (a + (1 - a) * b)).
  { destruct clamp_output_color.
    - unfold RenderBuffer.tonemap_pixel in Raw |- *.
      cbv zeta in Raw |- *. cbn [RenderBuffer.c_a].
      rewrite Raw. apply clamp01_inside. lra.
    - rewrite Raw. reflexivity. }
  rewrite E. split; [reflexivity |]. exact Hrange.
Qed.

Lemma tonemap_pixel_alpha_witness :
  Qeq (RenderBuffer.c_a
         (RenderBuffer.tonemap_pixel (fun v => v) (fun v => v) (fun e => 1%Q) 0
            (RenderBuffer.mk_vec4 1 1 1 1) RenderBuffer.Linear
            RenderBuffer.SRGB RenderBuffer.ACES true true
            (RenderBuffer.mk_vec4 (1 # 4) (1 # 4) (1 # 4) (1 # 2))))
      1.
Proof.
  destruct (tonemap_pixel_alpha (fun v => v) (fun v => v) (fun e => 1%Q) 0
              (RenderBuffer.mk_vec4 1 1 1 1) RenderBuffer.Linear
              RenderBuffer.SRGB RenderBuffer.ACES true true
              (RenderBuffer.mk_vec4 (1 # 4) (1 # 4) (1 # 4) (1 # 2)))
    as (E & _).
  - simpl. lra.
  - simpl. lra.
  - cbv zeta in E. rewrite E. reflexivity.
Defined.

(** ** The depth overlay *)

(** X22.  [overlay_depth_kernel] reads the depth image only inside it:
    whenever it reads, the index is that of the source pixel, row by row,
    and lies below the number of pixels of the image. *)
Theorem depth_read_in_bounds (image_resolution : RenderBuffer.ivec2)
    (src : Z * Z) (srcidx : Z) :
  RenderBuffer.product image_resolution <= 2 ^ 32 ->
  RenderBuffer.depth_read image_resolution src = Some srcidx ->
  srcidx = fst src + fst image_resolution * snd src
  /\ 0 <= srcidx < RenderBuffer.product image_resolution.
Proof.
  destruct image_resolution as [iw ih], src as [sx sy].
  unfold RenderBuffer.depth_read, RenderBuffer.product. cbn [fst snd].
  intros Hp.
  destruct (Z.leb_spec iw sx), (Z.leb_spec ih sy), (Z.ltb_spec sx 0),
    (Z.ltb_spec sy 0); simpl; try discriminate.
  intros E. injection E as <-.
  assert (0 <= sx + iw * sy < iw * ih) by nia.
  rewrite u32_wrap_small by (rewrite modulus_eq; lia).
  split; [reflexivity | lia].
Qed.

Lemma depth_read_in_bounds_witness :
  9 = 1 + 4 * 2 /\ 0 <= 9 < RenderBuffer.product (4, 3).
Proof.
  apply (depth_read_in_bounds (4, 3) (1, 2) 9).
  - unfold RenderBuffer.product. simpl. lia.
  - reflexivity.
Defined.

Lemma Qfloor_half (n : Z) (u : Q) :
  Qeq u (inject_Z n + (1 # 2)) -> Qfloor u = n.
Proof.
  intros E. rewrite (Qfloor_comp _ _ E).
  pose proof (Qfloor_le (inject_Z n + (1 # 2))) as Hle.
  pose proof (Qlt_floor (inject_Z n + (1 # 2))) as Hlt.
  set (f := Qfloor (inject_Z n + (1 # 2))) in *.
  assert (A : (inject_Z f < inject_Z (n + 1))%Q)
    by (rewrite inject_Z_plus; change (inject_Z 1) with 1%Q; lra).
  assert (B : (inject_Z n < inject_Z (f + 1))%Q) by lra.
  rewrite <- Zlt_Qlt in A, B. lia.
Qed.

Lemma source_pixel_aligned (w h fov_axis x y : Z) :
  0 < w -> 0 < h ->
  RenderBuffer.source_pixel (w, h) (w, h) fov_axis 1 (1 # 2, 1 # 2) x y
  = (x, y).
Proof.
  intros Hw Hh. unfold RenderBuffer.source_pixel. cbn [fst snd].
  assert (Hs : ~ Qeq (inject_Z (RenderBuffer.ivec2_get (w, h) fov_axis)) 0).
  { unfold RenderBuffer.ivec2_get. cbn [fst snd].
    destruct (fov_axis =? 0); intros Hz; unfold Qeq in Hz; simpl in Hz; lia. }
  f_equal; apply Qfloor_half; field; exact Hs.
Qed.

(** X23.  Shown at its own resolution, unzoomed and centred, the depth
    image is laid over the screen pixel by pixel, for either axis of the
    field of view: pixel [(x, y)] takes the colour of the depth at index
    [x + w * y], of alpha 1, blended with the previous colour of the
    surface.  The sizes are at most 2^22, so that every coordinate the
    kernel computes is a multiple of 1/2 below 2^23, which [float] holds
    exactly, and the scale is exactly 1. *)
Theorem overlay_depth_aligned (colormap_turbo : Q -> vec3) (w h : Z)
    (alpha : Q) (depth : Z -> Q) (depth_scale : Q) (fov_axis x y : Z)
    (prev_color : RenderBuffer.vec4) :
  0 < w <= 2 ^ 22 -> 0 < h <= 2 ^ 22 -> w * h < 2 ^ 31 ->
  fov_axis = 0 \/ fov_axis = 1 ->
  0 <= x < w -> 0 <= y < h ->
  RenderBuffer.source_pixel (w, h) (w, h) fov_axis 1 (1 # 2, 1 # 2) x y
  = (x, y)
  /\ RenderBuffer.overlay_depth_pixel colormap_turbo (w, h) alpha depth
       depth_scale (w, h) fov_axis 1 (1 # 2, 1 # 2) x y prev_color
     = let c := colormap_turbo (Qmult (depth (x + w * y)) depth_scale) in
       RenderBuffer.blend alpha (RenderBuffer.mk_vec4 (vx c) (vy c) (vz c) 1)
         prev_color.
Proof.
  intros Hw Hh Hp Haxis Hx Hy.
  split; [apply source_pixel_aligned; lia |].
  unfold RenderBuffer.overlay_depth_pixel.
  rewrite source_pixel_aligned by lia.
  unfold RenderBuffer.depth_read. cbn [fst snd].
  destruct (Z.leb_spec w x), (Z.leb_spec h y), (Z.ltb_spec x 0),
    (Z.ltb_spec y 0); try lia. simpl.
  assert (0 <= x + w * y < w * h) by nia.
  rewrite u32_wrap_small by (rewrite modulus_eq; lia).
  reflexivity.
Qed.

Lemma overlay_depth_aligned_witness :
  RenderBuffer.source_pixel (4, 3) (4, 3) 1 1 (1 # 2, 1 # 2) 1 2 = (1, 2)
  /\ RenderBuffer.overlay_depth_pixel (fun d => mk_vec3 d d d) (4, 3) 1
       (fun i => inject_Z i) 2 (4, 3) 1 1 (1 # 2, 1 # 2) 1 2
       RenderBuffer.vec4_zero
     = let c := (fun d => mk_vec3 d d d) (Qmult (inject_Z (1 + 4 * 2)) 2) in
       RenderBuffer.blend 1 (RenderBuffer.mk_vec4 (vx c) (vy c) (vz c) 1)
         RenderBuffer.vec4_zero.
Proof.
  apply (overlay_depth_aligned (fun d => mk_vec3 d d d) 4 3 1
           (fun i => inject_Z i) 2 1 1 2 RenderBuffer.vec4_zero); lia.
Defined.
